(** * socow_vector: a small-object, copy-on-write vector

    A shallow embedding of [socow-vector.h].  The C++ object model is made
    explicit: containers live in an object store, heap buffers
    ([large_data_header]) live in a heap shared by the containers that
    reference them, and every member function is a computation over that
    world which returns, throws, or is undefined. *)

From stdpp Require Import gmap list.
From Stdlib Require Import ZArith Lia.

Open Scope Z_scope.

(** ** Machine integers *)

(** [uint64_t] / [size_t] arithmetic wraps modulo 2^64. *)
Definition u64 (z : Z) : Z := z mod 2 ^ 64.

(** [static constexpr uint64_t STATE_BIT = 1ull << 63]. *)
Definition STATE_BIT : Z := Z.shiftl 1 63.

(** ** Pointers

    A [T*] points into the inline array of a container or into the element
    run of a heap buffer, at some offset. *)
Inductive block :=
  | null_block
  | small_of (v : nat)
  | data_of (p : nat).

Record pointer := Ptr { blk : block; off : Z }.

#[global] Instance block_eq_dec : EqDecision block.
Proof. solve_decision. Defined.

#[global] Instance pointer_eq_dec : EqDecision pointer.
Proof. solve_decision. Defined.

Definition ptr_add (p : pointer) (k : Z) : pointer := Ptr (blk p) (off p + k).

Definition nullptr : pointer := Ptr null_block 0.

Section socow_vector.

Context {T : Type}.

(** Template parameter [SMALL_SIZE]. *)
Variable SMALL_SIZE : Z.

(** The element type's copy constructor may throw: [copy_fails k] tells
    whether the k-th element copy made by the program throws. *)
Variable copy_fails : nat -> bool.

(** ** Objects, heap buffers, world *)

(** [struct large_data_header { size_t capacity_; size_t refcnt; T data_[0]; }].
    A slot of [data_] is [None] while it holds no constructed element. *)
Record large_data_header := Hdr {
  capacity_ : Z;
  refcnt : Z;
  data_ : list (option T)
}.

(** [union { T small_data[SMALL_SIZE]; large_data_header* large_data; }],
    with the active member explicit. *)
Inductive storage :=
  | small_data (a : list (option T))
  | large_data (p : nat).

Record socow_vector := Vec {
  size_ : Z;
  store : storage
}.

Inductive event :=
  | Construct (x : T)
  | Destroy (x : T).

Record world := World {
  objs : gmap nat socow_vector;
  heap : gmap nat large_data_header;
  copies : nat;
  trace : list event
}.

(** ** Computations: return, throw, or undefined behaviour

    [Undef] stands for undefined behaviour and for a failed [assert]. *)
Inductive outcome (A : Type) :=
  | Ok (a : A) (w : world)
  | Throw (w : world)
  | Undef.
Arguments Ok {A} a w.
Arguments Throw {A} w.
Arguments Undef {A}.

Definition M (A : Type) : Type := world -> outcome A.

#[global] Instance M_ret : MRet M := fun A a w => Ok a w.
#[global] Instance M_bind : MBind M := fun A B k m w =>
  match m w with
  | Ok a w' => k a w'
  | Throw w' => Throw w'
  | Undef => Undef
  end.

Definition undef {A} : M A := fun _ => Undef.
Definition throw {A} : M A := fun w => Throw w.

(** [try { m } catch (...) { h; throw; }] *)
Definition try_catch {A} (m : M A) (h : M unit) : M A := fun w =>
  match m w with
  | Ok a w' => Ok a w'
  | Throw w' =>
      match h w' with
      | Ok _ w'' => Throw w''
      | Throw w'' => Throw w''
      | Undef => Undef
      end
  | Undef => Undef
  end.

Definition assert (b : bool) : M unit := if b then mret tt else undef.

Definition ptr_diff (p q : pointer) : M Z :=
  if decide (blk p = blk q) then mret (off p - off q) else undef.

(** ** Raw memory *)

Definition raw (n : Z) : list (option T) := replicate (Z.to_nat n) None.

Definition block_array (b : block) (w : world) : option (list (option T)) :=
  match b with
  | null_block => None
  | small_of v =>
      match objs w !! v with
      | Some (Vec _ (small_data a)) => Some a
      | _ => None
      end
  | data_of p => data_ <$> heap w !! p
  end.

Definition set_block_array (b : block) (a : list (option T)) (w : world) : world :=
  match b with
  | null_block => w
  | small_of v =>
      match objs w !! v with
      | Some c =>
          World (<[v := Vec (size_ c) (small_data a)]> (objs w))
                (heap w) (copies w) (trace w)
      | None => w
      end
  | data_of p =>
      match heap w !! p with
      | Some h =>
          World (objs w) (<[p := Hdr (capacity_ h) (refcnt h) a]> (heap w))
                (copies w) (trace w)
      | None => w
      end
  end.

Definition slot (p : pointer) (w : world) : option (option T) :=
  if 0 <=? off p
  then a ← block_array (blk p) w; a !! Z.to_nat (off p)
  else None.

Definition set_slot (p : pointer) (s : option T) (w : world) : world :=
  match block_array (blk p) w with
  | Some a => set_block_array (blk p) (<[Z.to_nat (off p) := s]> a) w
  | None => w
  end.

(** Reading [*p]. *)
Definition load (p : pointer) : M T := fun w =>
  match slot p w with
  | Some (Some x) => Ok x w
  | _ => Undef
  end.

(** [new (dst) T(x)]: the copy is counted, and throws when the element
    type says so. *)
Definition copy_construct (dst : pointer) (x : T) : M unit := fun w =>
  match slot dst w with
  | Some _ =>
      if copy_fails (copies w)
      then Throw (World (objs w) (heap w) (S (copies w)) (trace w))
      else
        let w' := set_slot dst (Some x) w in
        Ok tt (World (objs w') (heap w') (S (copies w)) (trace w ++ [Construct x]))
  | None => Undef
  end.

(** [p->~T()] *)
Definition destroy (p : pointer) : M unit := fun w =>
  match slot p w with
  | Some (Some x) =>
      let w' := set_slot p None w in
      Ok tt (World (objs w') (heap w') (copies w') (trace w ++ [Destroy x]))
  | _ => Undef
  end.

(** [std::swap] of the two live elements that [p] and [q] point to; the
    exchange itself is taken not to throw. *)
Definition swap_elems (p q : pointer) : M unit := fun w =>
  match slot p w, slot q w with
  | Some (Some x), Some (Some y) =>
      Ok tt (set_slot q (Some x) (set_slot p (Some y) w))
  | _, _ => Undef
  end.

(** Assignment through a mutable reference, [*p = x]. *)
Definition assign (p : pointer) (x : T) : M unit := fun w =>
  match slot p w with
  | Some (Some _) =>
      if copy_fails (copies w)
      then Throw (World (objs w) (heap w) (S (copies w)) (trace w))
      else
        let w' := set_slot p (Some x) w in
        Ok tt (World (objs w') (heap w') (S (copies w)) (trace w))
  | _ => Undef
  end.

(** ** Member access *)

Definition get_obj (this : nat) : M socow_vector := fun w =>
  match objs w !! this with
  | Some c => Ok c w
  | None => Undef
  end.

Definition put_obj (this : nat) (c : socow_vector) : M unit := fun w =>
  Ok tt (World (<[this := c]> (objs w)) (heap w) (copies w) (trace w)).

Definition delete_obj (this : nat) : M unit := fun w =>
  Ok tt (World (delete this (objs w)) (heap w) (copies w) (trace w)).

Definition get_size_ (this : nat) : M Z :=
  c ← get_obj this; mret (size_ c).

Definition set_size_ (this : nat) (z : Z) : M unit :=
  c ← get_obj this; put_obj this (Vec z (store c)).

(** Reading the union member [large_data]; undefined unless it is the
    active member. *)
Definition get_large_data (this : nat) : M nat :=
  c ← get_obj this;
  match store c with
  | large_data p => mret p
  | small_data _ => undef
  end.

(** [large_data = p] *)
Definition set_large_data (this : nat) (p : nat) : M unit :=
  c ← get_obj this; put_obj this (Vec (size_ c) (large_data p)).

(** Naming [small_data] as the destination of construction makes the array
    the active member of the union; its slots are raw storage. *)
Definition use_small_data (this : nat) : M pointer :=
  c ← get_obj this;
  match store c with
  | small_data _ => mret (Ptr (small_of this) 0)
  | large_data _ =>
      put_obj this (Vec (size_ c) (small_data (raw SMALL_SIZE)));;
      mret (Ptr (small_of this) 0)
  end.

Definition get_hdr (p : nat) : M large_data_header := fun w =>
  match heap w !! p with
  | Some h => Ok h w
  | None => Undef
  end.

Definition put_hdr (p : nat) (h : large_data_header) : M unit := fun w =>
  Ok tt (World (objs w) (<[p := h]> (heap w)) (copies w) (trace w)).

(** [operator new] followed by the placement-new of the header
    [{capacity, 1}]. *)
Definition new_header (capacity : Z) : M nat := fun w =>
  let p := fresh (dom (heap w)) in
  Ok p (World (objs w) (<[p := Hdr capacity 1 (raw capacity)]> (heap w))
              (copies w) (trace w)).

Definition operator_delete (p : nat) : M unit := fun w =>
  match heap w !! p with
  | Some _ => Ok tt (World (objs w) (delete p (heap w)) (copies w) (trace w))
  | None => Undef
  end.

(** ** Private members *)

Definition is_small (this : nat) : M bool :=
  s ← get_size_ this; mret (Z.land s STATE_BIT =? 0).

Definition switch_size_state (this : nat) : M unit :=
  s ← get_size_ this; set_size_ this (Z.lxor s STATE_BIT).

Definition set_large_state (this : nat) : M unit :=
  s ← get_size_ this; set_size_ this (Z.lor s STATE_BIT).

Definition size (this : nat) : M Z :=
  s ← get_size_ this; mret (Z.land s (u64 (Z.lnot STATE_BIT))).

Definition is_unique (this : nat) : M bool :=
  b ← is_small this;
  if b : bool then mret true
  else p ← get_large_data this; h ← get_hdr p; mret (refcnt h =? 1).

Fixpoint destruct_array_loop (src : pointer) (n : nat) : M unit :=
  match n with
  | O => mret tt
  | S k => destroy (ptr_add src (Z.of_nat k));; destruct_array_loop src k
  end.

(** [for (size_t i = cnt; i > 0; i--) src[i - 1].~T();] *)
Definition destruct_array (src : pointer) (cnt : Z) : M unit :=
  destruct_array_loop src (Z.to_nat cnt).

(** The loop of [safe_init_array] from index [i] with [n] iterations to
    go.  The handler of the enclosing try block runs with the index the
    loop had reached. *)
Fixpoint safe_init_array_from (src dst : pointer) (n : nat) (i : Z) : M unit :=
  match n with
  | O => mret tt
  | S k =>
      try_catch (x ← load (ptr_add src i); copy_construct (ptr_add dst i) x)
                (destruct_array dst i);;
      safe_init_array_from src dst k (i + 1)
  end.

Definition safe_init_array (src dst : pointer) (cnt : Z) : M unit :=
  safe_init_array_from src dst (Z.to_nat cnt) 0.

Definition release_large_data (p : nat) (size : Z) : M unit :=
  h ← get_hdr p;
  let r := u64 (refcnt h - 1) in
  put_hdr p (Hdr (capacity_ h) r (data_ h));;
  if r =? 0
  then destruct_array (Ptr (data_of p) 0) size;; operator_delete p
  else mret tt.

Definition release_owned_large_data (this : nat) : M unit :=
  p ← get_large_data this; sz ← size this; release_large_data p sz.

Definition alloc_large_data (src : pointer) (size capacity : Z) : M nat :=
  assert (size <=? capacity);;
  p ← new_header capacity;
  try_catch (safe_init_array src (Ptr (data_of p) 0) size)
            (operator_delete p);;
  mret p.

Definition make_new_ref (p : nat) : M nat :=
  h ← get_hdr p;
  put_hdr p (Hdr (capacity_ h) (u64 (refcnt h + 1)) (data_ h));;
  mret p.

(** ** Public members *)

(** [T* data()]: the privatisation point. *)
Definition data (this : nat) : M pointer :=
  b ← is_small this;
  if b : bool then mret (Ptr (small_of this) 0)
  else
    uq ← is_unique this;
    (if uq : bool then mret tt
     else
       p ← get_large_data this;
       h ← get_hdr p;
       sz ← size this;
       new_data ← alloc_large_data (Ptr (data_of p) 0) sz (capacity_ h);
       release_owned_large_data this;;
       set_large_data this new_data);;
    p ← get_large_data this;
    mret (Ptr (data_of p) 0).

(** [T const* data() const] *)
Definition data_const (this : nat) : M pointer :=
  b ← is_small this;
  if b : bool then mret (Ptr (small_of this) 0)
  else p ← get_large_data this; mret (Ptr (data_of p) 0).

Definition begin (this : nat) : M pointer := data this.

Definition end_ (this : nat) : M pointer :=
  d ← data this; sz ← size this; mret (ptr_add d sz).

Definition begin_const (this : nat) : M pointer := data_const this.

Definition end_const (this : nat) : M pointer :=
  d ← data_const this; sz ← size this; mret (ptr_add d sz).

(** [T& operator[](size_t i)]; the reference is the pointer. *)
Definition index (this : nat) (i : Z) : M pointer :=
  b ← begin this; mret (ptr_add b i).

Definition index_const (this : nat) (i : Z) : M pointer :=
  b ← begin_const this; mret (ptr_add b i).

Definition front (this : nat) : M pointer := begin this.

Definition front_const (this : nat) : M pointer := begin_const this.

Definition back (this : nat) : M pointer :=
  b ← begin this; sz ← size this; mret (ptr_add (ptr_add b sz) (-1)).

Definition back_const (this : nat) : M pointer :=
  b ← begin_const this; sz ← size this; mret (ptr_add (ptr_add b sz) (-1)).

Definition empty (this : nat) : M bool :=
  sz ← size this; mret (sz =? 0).

Definition capacity (this : nat) : M Z :=
  b ← is_small this;
  if b : bool then mret SMALL_SIZE
  else p ← get_large_data this; h ← get_hdr p; mret (capacity_ h).

Definition destruct_data (this : nat) : M unit :=
  d ← data this; sz ← size this; destruct_array d sz.

(** [~socow_vector()], the destructor body. *)
Definition destructor (this : nat) : M unit :=
  b ← is_small this;
  if b : bool then destruct_data this else release_owned_large_data this.

(** [socow_vector()] *)
Definition default_constructor (this : nat) : M unit :=
  put_obj this (Vec 0 (small_data (raw SMALL_SIZE))).

(** [socow_vector(socow_vector const& other)]; when the constructor throws
    the object never comes into existence. *)
Definition copy_constructor (this other : nat) : M unit :=
  s ← get_size_ other;
  put_obj this (Vec s (small_data (raw SMALL_SIZE)));;
  try_catch
    (b ← is_small other;
     if b : bool then
       sz ← size this;
       safe_init_array (Ptr (small_of other) 0) (Ptr (small_of this) 0) sz
     else
       p ← get_large_data other;
       q ← make_new_ref p;
       set_large_data this q)
    (delete_obj this).

Definition push_back (this : nat) (value : T) : M unit :=
  cur_size ← size this;
  cur_cap ← capacity this;
  (if cur_size =? cur_cap then
     src ← data_const this;
     new_data ← alloc_large_data src cur_size (u64 (2 * cur_cap + 1));
     try_catch (copy_construct (Ptr (data_of new_data) cur_size) value)
               (release_large_data new_data cur_size);;
     destructor this;;
     set_large_data this new_data;;
     set_large_state this
   else
     d ← data this;
     copy_construct (ptr_add d cur_size) value);;
  s ← get_size_ this;
  set_size_ this (u64 (s + 1)).

Definition pop_back (this : nat) : M unit :=
  d ← data this;
  sz ← size this;
  destroy (ptr_add d (u64 (sz - 1)));;
  s ← get_size_ this;
  set_size_ this (u64 (s - 1)).

Definition copy_to_small_data (this : nat) (begin : pointer) (cnt : Z) : M unit :=
  b ← is_small this;
  assert (negb b);;
  p ← get_large_data this;
  old_data ← make_new_ref p;
  release_owned_large_data this;;
  try_catch (dst ← use_small_data this; safe_init_array begin dst cnt)
            (set_large_data this old_data);;
  sz ← size this;
  release_large_data old_data sz.

Definition resize (this : nat) (new_capacity : Z) : M unit :=
  if new_capacity <=? SMALL_SIZE then
    b ← is_small this;
    assert (negb b);;
    p ← get_large_data this;
    sz ← size this;
    copy_to_small_data this (Ptr (data_of p) 0) sz;;
    switch_size_state this
  else
    d ← data this;
    sz ← size this;
    ndata ← alloc_large_data d sz new_capacity;
    destructor this;;
    set_large_data this ndata;;
    b ← is_small this;
    if b : bool then switch_size_state this else mret tt.

Definition reserve (this : nat) (new_capacity : Z) : M unit :=
  uq ← is_unique this;
  sz ← size this;
  cap ← capacity this;
  if (negb uq && (sz <? new_capacity)) || (cap <? new_capacity)
  then resize this new_capacity
  else mret tt.

Definition shrink_to_fit (this : nat) : M unit :=
  b ← is_small this;
  if b : bool then mret tt
  else
    sz ← size this;
    p ← get_large_data this;
    h ← get_hdr p;
    if negb (sz =? capacity_ h) then resize this sz else mret tt.

Definition clear (this : nat) : M unit :=
  uq ← is_unique this;
  if uq : bool then
    destruct_data this;;
    s ← get_size_ this;
    set_size_ this (Z.land s STATE_BIT)
  else
    release_owned_large_data this;;
    cap ← capacity this;
    p ← alloc_large_data nullptr 0 cap;
    set_large_data this p;;
    set_size_ this STATE_BIT.

(** A local [socow_vector copy(other)] with scope [body]: the object is
    destroyed when the scope is left, normally or by an exception. *)
Definition with_local_copy {A} (other : nat) (body : nat -> M A) : M A := fun w =>
  let copy := fresh (dom (objs w)) in
  (copy_constructor copy other;;
   a ← try_catch (body copy) (destructor copy;; delete_obj copy);
   destructor copy;;
   delete_obj copy;;
   mret a) w.

(** [for (size_t i = 0; i < cnt; i++) std::swap(small_data[i], other.small_data[i]);] *)
Fixpoint swap_prefix (this other : nat) (n : nat) (i : Z) : M unit :=
  match n with
  | O => mret tt
  | S k =>
      swap_elems (Ptr (small_of this) i) (Ptr (small_of other) i);;
      swap_prefix this other k (i + 1)
  end.

(** The second loop of the inline/inline case of [swap], counting [i]
    down with [n] iterations to go. *)
Fixpoint move_suffix (dst src : pointer) (n : nat) (i : Z) : M unit :=
  match n with
  | O => mret tt
  | S k =>
      x ← load (ptr_add src (i - 1));
      copy_construct (ptr_add dst (i - 1)) x;;
      destroy (ptr_add src (i - 1));;
      move_suffix dst src k (i - 1)
  end.

(** [std::swap(size_, other.size_)] *)
Definition swap_size_ (this other : nat) : M unit :=
  s ← get_size_ this;
  os ← get_size_ other;
  set_size_ this os;;
  set_size_ other s.

(** [swap] calls itself with the roles exchanged when only [other] is
    inline; [fuel] bounds the depth of that recursion. *)
Fixpoint swap_fuel (fuel : nat) (this other : nat) : M unit :=
  match fuel with
  | O => undef
  | S fuel' =>
      if decide (this = other) then mret tt
      else
        b ← is_small this;
        if b : bool then
          bo ← is_small other;
          (if bo : bool then
             sz ← size this;
             osz ← size other;
             let cnt := Z.min sz osz in
             swap_prefix this other (Z.to_nat cnt) 0;;
             let dst := Ptr (small_of this) 0 in
             let src := Ptr (small_of other) 0 in
             let '(src, dst) := if osz <? sz then (dst, src) else (src, dst) in
             move_suffix dst src (Z.to_nat (Z.max sz osz - cnt)) (Z.max sz osz)
           else
             with_local_copy other (fun copy =>
               sz ← size this;
               copy_to_small_data other (Ptr (small_of this) 0) sz;;
               destruct_data this;;
               p ← get_large_data copy;
               q ← make_new_ref p;
               set_large_data this q));;
          swap_size_ this other
        else
          bo ← is_small other;
          if negb bo then
            p ← get_large_data this;
            q ← get_large_data other;
            set_large_data this q;;
            set_large_data other p;;
            swap_size_ this other
          else swap_fuel fuel' other this
  end.

Definition swap (this other : nat) : M unit := swap_fuel 2 this other.

(** [socow_vector& operator=(socow_vector const& other)] *)
Definition operator_assign (this other : nat) : M unit :=
  if decide (this = other) then mret tt
  else with_local_copy other (fun copy => swap this copy).

(** [for (; wpos != pos; wpos--) std::swap( *wpos, *(wpos - 1) );]
    The loop meets [pos] within [off wpos] steps or walks off the front of
    the block. *)
Fixpoint insert_loop (fuel : nat) (wpos pos : pointer) : M pointer :=
  if decide (wpos = pos) then mret wpos
  else
    match fuel with
    | O => undef
    | S k =>
        swap_elems wpos (ptr_add wpos (-1));;
        insert_loop k (ptr_add wpos (-1)) pos
    end.

Definition insert (this : nat) (pos : pointer) (value : T) : M pointer :=
  b ← begin_const this;
  index ← ptr_diff pos b;
  push_back this value;;
  b' ← begin this;
  let pos := ptr_add b' index in
  e ← end_ this;
  let wpos := ptr_add e (-1) in
  insert_loop (Z.to_nat (off wpos)) wpos pos.

(** [for (; pos != end(); pos++) { res = pos - len; std::swap(...); }]
    The loop meets [end()] within [end() - pos] steps or never does. *)
Fixpoint erase_loop (fuel : nat) (this : nat) (pos : pointer) (len : Z)
    (res : pointer) : M pointer :=
  e ← end_ this;
  if decide (pos = e) then mret res
  else
    match fuel with
    | O => undef
    | S k =>
        swap_elems pos (ptr_add pos (- len));;
        erase_loop k this (ptr_add pos 1) len (ptr_add pos (- len))
    end.

(** [iterator erase(const_iterator first, const_iterator last)] *)
Definition erase (this : nat) (first last : pointer) : M pointer :=
  b ← begin_const this;
  ind ← ptr_diff first b;
  len ← ptr_diff last first;
  bm ← begin this;
  let pos := ptr_add (ptr_add bm ind) len in
  res ← end_ this;
  res ← erase_loop (Z.to_nat (off res - off pos)) this pos len res;
  bm ← begin this;
  sz ← size this;
  destruct_array (ptr_add bm (u64 (sz - len))) (u64 len);;
  s ← get_size_ this;
  set_size_ this (u64 (s - len));;
  mret res.

(** [iterator erase(const_iterator pos)] *)
Definition erase_at (this : nat) (pos : pointer) : M pointer :=
  erase this pos (ptr_add pos 1).


(** ** Clients *)

(** [c[i] = x] through the mutable [operator[]]. *)
Definition store_at (this : nat) (i : Z) (x : T) : M unit :=
  p ← index this i; assign p x.

(** Reading [c[i]] through the const [operator[]]. *)
Definition at_const (this : nat) (i : Z) : M T :=
  p ← index_const this i; load p.

Definition value_of {A} (m : M A) (w : world) : option A :=
  match m w with
  | Ok a _ => Some a
  | _ => None
  end.

(** The observable content of a container: [size()] and the value of
    [c[i]] for every [i] below it. *)
Definition contents (this : nat) (w : world) : option (list T) :=
  n ← value_of (size this) w;
  mapM (fun i => value_of (at_const this (Z.of_nat i)) w) (seq 0 (Z.to_nat n)).

(** The mutating calls a client can make on one container; positions are
    given as indices and turned into iterators with [begin() const]. *)
Inductive mutation :=
  | MPushBack (v : T)
  | MPopBack
  | MInsert (i : nat) (v : T)
  | MErase (i j : nat)
  | MClear
  | MStore (i : nat) (v : T)
  | MTouch
  | MReserve (n : Z)
  | MShrinkToFit.

Definition run_mutation (this : nat) (m : mutation) : M unit :=
  match m with
  | MPushBack v => push_back this v
  | MPopBack => pop_back this
  | MInsert i v =>
      b ← begin_const this;
      insert this (ptr_add b (Z.of_nat i)) v;;
      mret tt
  | MErase i j =>
      b ← begin_const this;
      erase this (ptr_add b (Z.of_nat i)) (ptr_add b (Z.of_nat j));;
      mret tt
  | MClear => clear this
  | MStore i v => store_at this (Z.of_nat i) v
  | MTouch => data this;; mret tt
  | MReserve n => reserve this n
  | MShrinkToFit => shrink_to_fit this
  end.

Fixpoint run_all (this : nat) (ms : list mutation) : M unit :=
  match ms with
  | [] => mret tt
  | m :: ms' => run_mutation this m;; run_all this ms'
  end.

(** ** Specification-level vocabulary *)

(** Index of the first throwing copy among the [n] copies that follow the
    [k] copies made so far. *)
Fixpoint first_fail (k n : nat) : option nat :=
  match n with
  | O => None
  | S n' => if copy_fails k then Some O else S <$> first_fail (S k) n'
  end.

(** An element array of [cap] slots whose first [length xs] slots hold
    [xs] and whose other slots are raw. *)
Definition arr (cap : Z) (xs : list T) : list (option T) :=
  (Some <$> xs) ++ replicate (Z.to_nat cap - length xs)%nat None.

(** World with block [b] holding array [a], [c] copies made, trace [t]. *)
Definition upd (b : block) (a : list (option T)) (c : nat) (t : list event)
    (w : world) : world :=
  let w' := set_block_array b a w in
  World (objs w') (heap w') c t.

(** The two representations of a container holding [xs]. *)
Inductive shape :=
  | Inline (xs : list T)
  | Shared (p : nat) (cap rc : Z) (xs : list T).

Definition elems (sh : shape) : list T :=
  match sh with
  | Inline xs => xs
  | Shared _ _ _ xs => xs
  end.

Definition cap_of (sh : shape) : Z :=
  match sh with
  | Inline _ => SMALL_SIZE
  | Shared _ cap _ _ => cap
  end.

Definition len (xs : list T) : Z := Z.of_nat (length xs).

(** The object of a container of shape [sh] whose size field counts [n]
    elements. *)
Definition obj_n (n : Z) (sh : shape) : socow_vector :=
  match sh with
  | Inline xs => Vec n (small_data (arr SMALL_SIZE xs))
  | Shared p _ _ _ => Vec (STATE_BIT + n) (large_data p)
  end.

Definition obj_of (sh : shape) : socow_vector := obj_n (len (elems sh)) sh.

Definition hdr_of (cap rc : Z) (xs : list T) : large_data_header :=
  Hdr cap rc (arr cap xs).

Definition with_elems (sh : shape) (ys : list T) : shape :=
  match sh with
  | Inline _ => Inline ys
  | Shared p cap rc _ => Shared p cap rc ys
  end.

Definition heap_with (sh : shape) (h : gmap nat large_data_header) :
    gmap nat large_data_header :=
  match sh with
  | Inline _ => h
  | Shared p cap rc xs => <[p := hdr_of cap rc xs]> h
  end.

(** World [w] with container [this] put in shape [sh], its size field
    counting [n] elements. *)
Definition put_shape (this : nat) (n : Z) (sh : shape) (c : nat)
    (t : list event) (w : world) : world :=
  World (<[this := obj_n n sh]> (objs w)) (heap_with sh (heap w)) c t.

(** World [w] after a container of shape [sh] gave up its storage. *)
Definition released (sh : shape) (w : world) : world :=
  match sh with
  | Inline _ => w
  | Shared p cap rc xs =>
      World (objs w)
            (if rc =? 1 then delete p (heap w)
             else <[p := hdr_of cap (rc - 1) xs]> (heap w))
            (copies w) (trace w)
  end.

Definition is_inline (sh : shape) : bool :=
  match sh with
  | Inline _ => true
  | Shared _ _ _ _ => false
  end.

(** Bounds a shape respects: the count fits the capacity, the capacity
    fits the 63 bits of the size field, at least one container references
    the buffer. *)
Definition ok (sh : shape) : Prop :=
  match sh with
  | Inline xs => len xs <= SMALL_SIZE
  | Shared p cap rc xs => len xs <= cap < 2 ^ 63 /\ 1 <= rc < 2 ^ 64
  end.

(** The heap holds the buffer a shape refers to. *)
Definition buffered (h : gmap nat large_data_header) (sh : shape) : Prop :=
  match sh with
  | Inline _ => True
  | Shared p cap rc xs => h !! p = Some (hdr_of cap rc xs)
  end.

(** Container [this] of world [w] is well formed and has shape [sh]. *)
Definition reps (w : world) (this : nat) (sh : shape) : Prop :=
  objs w !! this = Some (obj_of sh) /\ ok sh /\ buffered (heap w) sh.

(** A shape whose buffer needs no privatisation. *)
Definition unique (sh : shape) : bool :=
  match sh with
  | Inline _ => true
  | Shared _ _ rc _ => rc =? 1
  end.

(** The block that holds the elements of a container of shape [sh]. *)
Definition block_of (this : nat) (sh : shape) : block :=
  match sh with
  | Inline _ => small_of this
  | Shared p _ _ _ => data_of p
  end.

(** What a member function may do to the world, seen from container
    [this] going from shape [sh] to shape [sh']: nothing but copying;
    an update in place of storage it alone owns; or a move to new storage
    after giving up the old one. *)
Inductive step (this : nat) (w : world) (sh : shape) (w' : world)
    (sh' : shape) : Prop :=
  | step_same c t :
      sh' = sh ->
      w' = World (objs w) (heap w) c t ->
      (copies w <= c)%nat ->
      step this w sh w' sh'
  | step_in_place ys c t :
      unique sh = true ->
      sh' = with_elems sh ys ->
      w' = put_shape this (len ys) sh' c t w ->
      (copies w <= c)%nat ->
      step this w sh w' sh'
  | step_moved c t :
      match sh' with
      | Inline _ => True
      | Shared q _ rc _ => heap (released sh w) !! q = None /\ rc = 1
      end ->
      w' = put_shape this (len (elems sh')) sh' c t (released sh w) ->
      (copies w <= c)%nat ->
      step this w sh w' sh'.

(** Some copy made from world [w] on throws. *)
Definition failed (w : world) : Prop :=
  exists k, (copies w <= k)%nat /\ copy_fails k = true.

(** Container [this] of shape [sh] does not own alone a buffer that a
    container of shape [shv] uses. *)
Definition compat (sh shv : shape) : Prop :=
  match sh, shv with
  | Shared p _ rc _, Shared pv _ _ _ => p = pv -> 2 <= rc
  | _, _ => True
  end.

(** Container [this] went from shape [sh] in [w] to a shape with the same
    elements, capacity and mode in [w']. *)
Definition kept (this : nat) (w : world) (sh : shape) (w' : world) : Prop :=
  exists sh',
    step this w sh w' sh' /\ reps w' this sh' /\
    elems sh' = elems sh /\ cap_of sh' = cap_of sh /\
    is_inline sh' = is_inline sh.

(** The erased window after one step of the loop of [erase]: its first
    element has been exchanged to its end. *)
Definition rotl (l : list T) : list T :=
  match l with
  | [] => []
  | x :: l' => l' ++ [x]
  end.

Definition rot (k : nat) (l : list T) : list T := Nat.iter k rotl l.

(** Specification of [insert], in its own words: append, then rotate the
    new element leftward from the end into index [i] by pairwise
    exchanges. *)
Definition exchange (k : nat) (l : list T) : list T :=
  match l !! k, l !! S k with
  | Some a, Some b => <[k := b]> (<[S k := a]> l)
  | _, _ => l
  end.

Fixpoint rotate_from (k cnt : nat) (l : list T) : list T :=
  match cnt with
  | O => l
  | S c => rotate_from (k - 1) c (exchange (k - 1) l)
  end.

Definition rotate_into (i : nat) (l : list T) : list T :=
  rotate_from (length l - 1) (length l - 1 - i) l.

Definition insert_by_rotation (i : nat) (v : T) (l : list T) : list T :=
  rotate_into i (l ++ [v]).

(** An element array under construction from its end: [C] live, a gap of
    [gap] raw slots, [ds] live, the rest raw. *)
Definition garr (cap : Z) (C : list T) (gap : nat) (ds : list T) :
    list (option T) :=
  (Some <$> C) ++ replicate gap None ++ (Some <$> ds) ++
  replicate (Z.to_nat cap - length C - gap - length ds)%nat None.

(** The reference count of the buffer of a shape can still grow. *)
Definition not_saturated (sh : shape) : Prop :=
  match sh with
  | Inline _ => True
  | Shared _ _ rc _ => rc + 1 < 2 ^ 64
  end.

(** The reference dynamic array: what a mutation does to the sequence of
    elements, and when a client may make it. *)
Definition effect (m : mutation) (xs : list T) : list T :=
  match m with
  | MPushBack v => xs ++ [v]
  | MPopBack => removelast xs
  | MInsert i v => take i xs ++ v :: drop i xs
  | MErase i j => take i xs ++ drop j xs
  | MClear => []
  | MStore i v => <[i := v]> xs
  | MTouch | MReserve _ | MShrinkToFit => xs
  end.

Definition valid_mutation (xs : list T) (m : mutation) : Prop :=
  match m with
  | MPushBack _ => 2 * len xs + 1 < 2 ^ 63
  | MPopBack => xs <> []
  | MInsert i _ => (i <= length xs)%nat /\ 2 * len xs + 1 < 2 ^ 63
  | MErase i j => (i <= j <= length xs)%nat
  | MClear => True
  | MStore i _ => (i < length xs)%nat
  | MTouch => True
  | MReserve n => 0 <= n < 2 ^ 63
  | MShrinkToFit => True
  end.

Fixpoint valid_all (xs : list T) (ms : list mutation) : Prop :=
  match ms with
  | [] => True
  | m :: ms' => valid_mutation xs m /\ valid_all (effect m xs) ms'
  end.

Fixpoint effects (ms : list mutation) (xs : list T) : list T :=
  match ms with
  | [] => xs
  | m :: ms' => effects ms' (effect m xs)
  end.

(** The representation invariant in the words of the specification: the
    count is at most the capacity, and the mode tag agrees with the active
    member of the union. *)
Definition invariant (this : nat) (w : world) : Prop :=
  exists c,
    objs w !! this = Some c /\
    match store c with
    | small_data _ =>
        Z.land (size_ c) STATE_BIT = 0 /\
        Z.land (size_ c) (u64 (Z.lnot STATE_BIT)) <= SMALL_SIZE
    | large_data p =>
        Z.land (size_ c) STATE_BIT <> 0 /\
        exists h, heap w !! p = Some h /\
          Z.land (size_ c) (u64 (Z.lnot STATE_BIT)) <= capacity_ h
    end.

(** The world a bulk copy of [xs] leaves behind when the copy of element
    [j] throws: objects and heap as before the call, [j] elements
    constructed and then destroyed again, last one first. *)
Definition rolled_back (w : world) (j : nat) (xs : list T) : world :=
  World (objs w) (heap w) (copies w + j + 1)%nat
        (trace w ++ (Construct <$> take j xs) ++
         (Destroy <$> reverse (take j xs))).

(** Two objects with the same size field and the same active union
    member (the same buffer, if it is the pointer). *)
Definition same_rep (c c' : socow_vector) : Prop :=
  size_ c' = size_ c /\
  match store c, store c' with
  | small_data _, small_data _ => True
  | large_data p, large_data p' => p' = p
  | _, _ => False
  end.

(** Worlds that differ at most in the elements held in inline arrays. *)
Definition same_layout (w w' : world) : Prop :=
  heap w' = heap w /\
  forall v, match objs w !! v, objs w' !! v with
            | Some c, Some c' => same_rep c c'
            | None, None => True
            | _, _ => False
            end.

(** The reference count of the buffer of a shape can still grow by two:
    [operator=] holds a local copy while [swap] takes one more. *)
Definition two_refs_free (sh : shape) : Prop :=
  match sh with
  | Inline _ => True
  | Shared _ _ rc _ => rc + 2 < 2 ^ 64
  end.

(** Container [c] references heap buffer [p]. *)
Definition is_large_at (p : nat) (c : socow_vector) : bool :=
  match store c with
  | large_data q => bool_decide (q = p)
  | small_data _ => false
  end.

(** Number of containers of an object store that reference heap buffer
    [p]. *)
Definition holders (p : nat) (o : gmap nat socow_vector) : nat :=
  base.size (filter (fun kv : nat * socow_vector => is_large_at p kv.2 = true) o).

(** A container counts for one or for nothing. *)
Definition flag (b : bool) : nat := if b then 1%nat else 0%nat.


(** ** Tag-bit arithmetic *)

Lemma STATE_BIT_eq : STATE_BIT = 2 ^ 63.
Proof. reflexivity. Qed.

Lemma mask_eq : u64 (Z.lnot STATE_BIT) = Z.ones 63.
Proof. reflexivity. Qed.

Lemma land_small_STATE_BIT n : 0 <= n < 2 ^ 63 -> Z.land n STATE_BIT = 0.
Proof.
  intros Hn. rewrite STATE_BIT_eq. apply Z.bits_inj'. intros k Hk.
  rewrite Z.land_spec, Z.bits_0, Z.pow2_bits_eqb by lia.
  destruct (Z.eqb_spec 63 k) as [<-|]; [|apply andb_false_r].
  rewrite andb_true_r.
  destruct (Z.eq_dec n 0) as [->|]; [apply Z.bits_0|].
  apply Z.bits_above_log2; [lia|]. apply Z.log2_lt_pow2; lia.
Qed.

Lemma tag_add_lor n : 0 <= n < 2 ^ 63 -> Z.lor n STATE_BIT = STATE_BIT + n.
Proof.
  intros Hn. rewrite <- Z.lxor_lor by (apply land_small_STATE_BIT; lia).
  rewrite <- Z.add_nocarry_lxor by (apply land_small_STATE_BIT; lia). lia.
Qed.

Lemma land_tagged_STATE_BIT n :
  0 <= n < 2 ^ 63 -> Z.land (STATE_BIT + n) STATE_BIT = STATE_BIT.
Proof.
  intros Hn. rewrite <- tag_add_lor by lia.
  rewrite Z.land_lor_distr_l, land_small_STATE_BIT, Z.land_diag by lia.
  reflexivity.
Qed.

Lemma lxor_small n : 0 <= n < 2 ^ 63 -> Z.lxor n STATE_BIT = STATE_BIT + n.
Proof.
  intros Hn.
  rewrite <- Z.add_nocarry_lxor by (apply land_small_STATE_BIT; lia). lia.
Qed.

Lemma lxor_tagged n : 0 <= n < 2 ^ 63 -> Z.lxor (STATE_BIT + n) STATE_BIT = n.
Proof.
  intros Hn. rewrite <- lxor_small by lia.
  rewrite Z.lxor_assoc, Z.lxor_nilpotent, Z.lxor_0_r. reflexivity.
Qed.

Lemma lor_tagged n :
  0 <= n < 2 ^ 63 -> Z.lor (STATE_BIT + n) STATE_BIT = STATE_BIT + n.
Proof.
  intros Hn. rewrite <- tag_add_lor by lia.
  rewrite <- Z.lor_assoc, Z.lor_diag. reflexivity.
Qed.

Lemma land_mask_small n :
  0 <= n < 2 ^ 63 -> Z.land n (u64 (Z.lnot STATE_BIT)) = n.
Proof.
  intros Hn. rewrite mask_eq, Z.land_ones by lia. apply Z.mod_small. lia.
Qed.

Lemma land_mask_tagged n :
  0 <= n < 2 ^ 63 -> Z.land (STATE_BIT + n) (u64 (Z.lnot STATE_BIT)) = n.
Proof.
  intros Hn. rewrite mask_eq, Z.land_ones, STATE_BIT_eq by lia.
  rewrite <- (Z.mul_1_l (2 ^ 63)) at 1. rewrite Z.add_comm, Z.mod_add by lia.
  apply Z.mod_small. lia.
Qed.

Lemma u64_small n : 0 <= n < 2 ^ 64 -> u64 n = n.
Proof. intros. apply Z.mod_small. lia. Qed.

(** ** Element arrays *)

Lemma len_app xs ys : len (xs ++ ys) = len xs + len ys.
Proof. unfold len. rewrite length_app. lia. Qed.

Lemma len_nonneg xs : 0 <= len xs.
Proof. unfold len. lia. Qed.

Lemma arr_length cap xs : len xs <= cap -> length (arr cap xs) = Z.to_nat cap.
Proof.
  unfold arr, len. intros H.
  rewrite length_app, length_fmap, length_replicate. lia.
Qed.

Lemma arr_nil cap : arr cap [] = raw cap.
Proof. unfold arr, raw. simpl. f_equal. lia. Qed.

Lemma arr_lookup_live cap xs (i : nat) x :
  xs !! i = Some x -> arr cap xs !! i = Some (Some x).
Proof.
  intros H. unfold arr. rewrite lookup_app_l.
  - rewrite list_lookup_fmap, H. reflexivity.
  - rewrite length_fmap. eapply lookup_lt_Some, H.
Qed.

Lemma arr_lookup_raw cap xs (i : nat) :
  (length xs <= i < Z.to_nat cap)%nat -> arr cap xs !! i = Some None.
Proof.
  intros H. unfold arr. rewrite lookup_app_r; rewrite length_fmap; [|lia].
  apply lookup_replicate_2. lia.
Qed.

Lemma arr_lookup_end cap xs x :
  arr cap (xs ++ [x]) !! length xs = Some (Some x).
Proof.
  apply arr_lookup_live. rewrite lookup_app_r by lia.
  rewrite Nat.sub_diag. reflexivity.
Qed.

Lemma arr_push cap xs x :
  len xs < cap ->
  <[length xs := Some x]> (arr cap xs) = arr cap (xs ++ [x]).
Proof.
  unfold arr, len. intros H.
  rewrite insert_app_r_alt; rewrite length_fmap; [|lia].
  rewrite Nat.sub_diag, fmap_app, <- app_assoc. f_equal.
  rewrite length_app. simpl.
  replace (Z.to_nat cap - length xs)%nat
    with (S (Z.to_nat cap - (length xs + 1)))%nat by lia.
  reflexivity.
Qed.

Lemma arr_pop cap xs x :
  len xs < cap ->
  <[length xs := None]> (arr cap (xs ++ [x])) = arr cap xs.
Proof.
  unfold arr, len. intros H.
  rewrite fmap_app, <- app_assoc.
  rewrite insert_app_r_alt; rewrite length_fmap; [|lia].
  rewrite Nat.sub_diag, length_app. simpl. f_equal.
  replace (Z.to_nat cap - length xs)%nat
    with (S (Z.to_nat cap - (length xs + 1)))%nat by lia.
  reflexivity.
Qed.

Lemma arr_set cap xs (i : nat) x :
  <[i := Some x]> (arr cap xs) =
  if decide (i < length xs)%nat then arr cap (<[i := x]> xs)
  else <[i := Some x]> (arr cap xs).
Proof.
  case_decide; [|reflexivity]. unfold arr.
  rewrite insert_app_l by (rewrite length_fmap; lia).
  rewrite list_fmap_insert, length_insert. reflexivity.
Qed.

(** ** Running computations *)

Lemma run_bind {A B} (m : M A) (k : A -> M B) w :
  (m ≫= k) w =
  match m w with
  | Ok a w' => k a w'
  | Throw w' => Throw w'
  | Undef => Undef
  end.
Proof. reflexivity. Qed.

Lemma run_ret {A} (a : A) w : (mret a : M A) w = Ok a w.
Proof. reflexivity. Qed.

(** ** Blocks of memory *)

Lemma set_block_array_copies b a w : copies (set_block_array b a w) = copies w.
Proof.
  destruct b as [|v|p]; simpl; [reflexivity| |].
  - destruct (objs w !! v); reflexivity.
  - destruct (heap w !! p); reflexivity.
Qed.

Lemma set_block_array_trace b a w : trace (set_block_array b a w) = trace w.
Proof.
  destruct b as [|v|p]; simpl; [reflexivity| |].
  - destruct (objs w !! v); reflexivity.
  - destruct (heap w !! p); reflexivity.
Qed.

Lemma block_array_upd b a c t w :
  is_Some (block_array b w) -> block_array b (upd b a c t w) = Some a.
Proof.
  unfold upd. destruct b as [|v|p]; simpl.
  - intros [? [=]].
  - destruct (objs w !! v) as [[s [a0|q]]|] eqn:E; intros [? [=]]; simpl.
    rewrite lookup_insert_eq. reflexivity.
  - destruct (heap w !! p) as [h|] eqn:E; intros [? [=]]; simpl.
    rewrite lookup_insert_eq. reflexivity.
Qed.

Lemma block_array_upd_ne b b' a c t w :
  b <> b' -> block_array b' (upd b a c t w) = block_array b' w.
Proof.
  unfold upd. intros Hne.
  destruct b as [|v|p]; simpl; [destruct b'; reflexivity| |].
  - destruct (objs w !! v) eqn:E; destruct b' as [|v'|p']; simpl; try reflexivity.
    rewrite lookup_insert_ne by congruence. reflexivity.
  - destruct (heap w !! p) eqn:E; destruct b' as [|v'|p']; simpl; try reflexivity.
    rewrite lookup_insert_ne by congruence. reflexivity.
Qed.

Lemma upd_upd b a1 c1 t1 a2 c2 t2 w :
  upd b a2 c2 t2 (upd b a1 c1 t1 w) = upd b a2 c2 t2 w.
Proof.
  unfold upd. destruct b as [|v|p]; simpl; [reflexivity| |].
  - destruct (objs w !! v) as [c|] eqn:E; simpl; rewrite ?E; simpl.
    + rewrite lookup_insert_eq, insert_insert_eq. reflexivity.
    + reflexivity.
  - destruct (heap w !! p) as [h|] eqn:E; simpl; rewrite ?E; simpl.
    + rewrite lookup_insert_eq, insert_insert_eq. reflexivity.
    + reflexivity.
Qed.

Lemma upd_id b a w :
  block_array b w = Some a ->
  upd b a (copies w) (trace w) w = w.
Proof.
  unfold upd. destruct w as [o h n t].
  destruct b as [|v|p]; simpl; [reflexivity| |].
  - destruct (o !! v) as [[s [a0|q]]|] eqn:E; intros [=]; subst; simpl.
    rewrite insert_id by exact E. reflexivity.
  - destruct (h !! p) as [[cap rc a0]|] eqn:E; intros [=]; subst; simpl.
    rewrite insert_id by exact E. reflexivity.
Qed.

Lemma upd_keep b a c t w :
  block_array b w = Some a ->
  upd b a c t w = World (objs w) (heap w) c t.
Proof.
  intros H. pose proof (upd_id _ _ _ H) as E.
  unfold upd in *. destruct (set_block_array b a w) as [o h c' t'].
  simpl in *. destruct w. simpl in *. congruence.
Qed.

Lemma upd_copies b a c t w : copies (upd b a c t w) = c.
Proof. reflexivity. Qed.

Lemma upd_trace b a c t w : trace (upd b a c t w) = t.
Proof. reflexivity. Qed.

Lemma slot_eq b z a w :
  block_array b w = Some a -> 0 <= z ->
  slot (Ptr b z) w = a !! Z.to_nat z.
Proof.
  intros Hb Hz. unfold slot. simpl.
  destruct (Z.leb_spec 0 z); [|lia]. rewrite Hb. reflexivity.
Qed.

Lemma load_eq b z a x w :
  block_array b w = Some a -> 0 <= z ->
  a !! Z.to_nat z = Some (Some x) ->
  load (Ptr b z) w = Ok x w.
Proof.
  intros Hb Hz Hx. unfold load. rewrite (slot_eq _ _ _ _ Hb Hz), Hx.
  reflexivity.
Qed.

Lemma destroy_eq b z a x w :
  block_array b w = Some a -> 0 <= z ->
  a !! Z.to_nat z = Some (Some x) ->
  destroy (Ptr b z) w =
  Ok tt (upd b (<[Z.to_nat z := None]> a) (copies w) (trace w ++ [Destroy x]) w).
Proof.
  intros Hb Hz Hx. unfold destroy. rewrite (slot_eq _ _ _ _ Hb Hz), Hx.
  unfold set_slot, upd. simpl. rewrite Hb, set_block_array_copies.
  reflexivity.
Qed.

Lemma copy_construct_eq b z a x w :
  block_array b w = Some a -> 0 <= z ->
  (Z.to_nat z < length a)%nat ->
  copy_construct (Ptr b z) x w =
  if copy_fails (copies w)
  then Throw (upd b a (S (copies w)) (trace w) w)
  else Ok tt (upd b (<[Z.to_nat z := Some x]> a) (S (copies w))
                  (trace w ++ [Construct x]) w).
Proof.
  intros Hb Hz Hlt. unfold copy_construct.
  rewrite (slot_eq _ _ _ _ Hb Hz).
  destruct (lookup_lt_is_Some_2 a _ Hlt) as [s ->].
  destruct (copy_fails (copies w)).
  - f_equal. rewrite <- (upd_id _ _ _ Hb) at 1 2.
    unfold upd. reflexivity.
  - unfold set_slot, upd. simpl. rewrite Hb. reflexivity.
Qed.

(** ** The loops of [destruct_array] and [safe_init_array] *)

Lemma destruct_array_loop_arr b cap ys xs w :
  block_array b w = Some (arr cap (ys ++ xs)) ->
  len (ys ++ xs) <= cap ->
  destruct_array_loop (Ptr b (len ys)) (length xs) w =
  Ok tt (upd b (arr cap ys) (copies w) (trace w ++ (Destroy <$> reverse xs)) w).
Proof.
  revert w. induction xs as [|x xs IH] using rev_ind; intros w Hb Hle.
  - simpl. rewrite app_nil_r in *. rewrite upd_id by exact Hb. reflexivity.
  - rewrite length_app. simpl. rewrite Nat.add_1_r. simpl.
    rewrite run_bind. unfold ptr_add. simpl.
    rewrite app_assoc in Hb.
    assert (Hi : Z.to_nat (len ys + Z.of_nat (length xs)) = length (ys ++ xs)).
    { unfold len. rewrite length_app. lia. }
    rewrite (destroy_eq b _ _ x w Hb); [| unfold len; lia |].
    2:{ rewrite Hi. apply arr_lookup_end. }
    rewrite Hi, arr_pop.
    2:{ rewrite !len_app in Hle. rewrite len_app. unfold len in *. simpl in Hle. lia. }
    rewrite IH.
    + rewrite upd_upd. rewrite reverse_app. simpl.
      rewrite <- app_assoc. reflexivity.
    + apply block_array_upd. rewrite Hb. eauto.
    + rewrite !len_app in *. unfold len in *. simpl in Hle. lia.
Qed.

Lemma destruct_array_arr b cap ys xs w :
  block_array b w = Some (arr cap (ys ++ xs)) ->
  len (ys ++ xs) <= cap ->
  destruct_array (Ptr b (len ys)) (len xs) w =
  Ok tt (upd b (arr cap ys) (copies w) (trace w ++ (Destroy <$> reverse xs)) w).
Proof.
  intros Hb Hle. unfold destruct_array, len at 2. rewrite Nat2Z.id.
  apply destruct_array_loop_arr; assumption.
Qed.

Lemma destruct_array_all b cap xs w :
  block_array b w = Some (arr cap xs) ->
  len xs <= cap ->
  destruct_array (Ptr b 0) (len xs) w =
  Ok tt (upd b (arr cap []) (copies w) (trace w ++ (Destroy <$> reverse xs)) w).
Proof. intros. apply (destruct_array_arr b cap [] xs); assumption. Qed.

Lemma safe_init_array_from_arr bs bd src_a cap ys zs w :
  bs <> bd ->
  block_array bs w = Some src_a ->
  (forall (i : nat) x, (ys ++ zs) !! i = Some x -> src_a !! i = Some (Some x)) ->
  block_array bd w = Some (arr cap ys) ->
  len (ys ++ zs) <= cap ->
  safe_init_array_from (Ptr bs 0) (Ptr bd 0) (length zs) (len ys) w =
  match first_fail (copies w) (length zs) with
  | None =>
      Ok tt (upd bd (arr cap (ys ++ zs)) (copies w + length zs)%nat
                 (trace w ++ (Construct <$> zs)) w)
  | Some j =>
      Throw (upd bd (arr cap []) (copies w + j + 1)%nat
                 (trace w ++ (Construct <$> take j zs) ++
                  (Destroy <$> reverse (ys ++ take j zs))) w)
  end.
Proof.
  intros Hne. revert ys w.
  induction zs as [|z zs IH]; intros ys w Hs Hsrc Hd Hle.
  - simpl. rewrite !app_nil_r, Nat.add_0_r.
    rewrite upd_id by exact Hd. reflexivity.
  - simpl. rewrite run_bind. unfold try_catch. rewrite run_bind.
    unfold ptr_add. simpl.
    assert (Hi : Z.to_nat (len ys) = length ys) by (unfold len; lia).
    rewrite !Z.add_0_l.
    rewrite (load_eq bs _ src_a z w Hs (len_nonneg ys)).
    2:{ rewrite Hi. apply Hsrc. rewrite lookup_app_r by lia.
        rewrite Nat.sub_diag. reflexivity. }
    rewrite (copy_construct_eq bd _ _ z w Hd (len_nonneg ys)).
    2:{ rewrite Hi, arr_length.
        - rewrite len_app in Hle. unfold len in *. simpl in Hle. lia.
        - rewrite len_app in Hle. pose proof (len_nonneg (z :: zs)). lia. }
    destruct (copy_fails (copies w)) eqn:Hf.
    + change (len ys) with (len ([] ++ ys)).
      change (Ptr bd 0) with (Ptr bd (len [])).
      rewrite (destruct_array_arr bd cap [] ys).
      * rewrite upd_upd. simpl. rewrite app_nil_r.
        replace (copies w + 0 + 1)%nat with (S (copies w)) by lia.
        reflexivity.
      * apply block_array_upd. rewrite Hd. eauto.
      * simpl. rewrite len_app in Hle. pose proof (len_nonneg (z :: zs)). lia.
    + rewrite Hi, arr_push.
      2:{ rewrite len_app in Hle. unfold len in *. simpl in Hle. lia. }
      replace (len ys + 1) with (len (ys ++ [z])) by (rewrite len_app; reflexivity).
      rewrite IH.
      * simpl. destruct (first_fail (S (copies w)) (length zs)) as [j|]; simpl.
        -- rewrite upd_upd. f_equal. f_equal; [lia|].
           rewrite <- !app_assoc. reflexivity.
        -- rewrite upd_upd. f_equal.
           rewrite <- !app_assoc. simpl. f_equal. lia.
      * rewrite block_array_upd_ne by congruence. exact Hs.
      * rewrite <- app_assoc. exact Hsrc.
      * apply block_array_upd. rewrite Hd. eauto.
      * rewrite <- app_assoc. exact Hle.
Qed.

Lemma safe_init_array_raw bs bd src_a cap xs w :
  bs <> bd ->
  block_array bs w = Some src_a ->
  (forall (i : nat) x, xs !! i = Some x -> src_a !! i = Some (Some x)) ->
  block_array bd w = Some (arr cap []) ->
  len xs <= cap ->
  safe_init_array (Ptr bs 0) (Ptr bd 0) (len xs) w =
  match first_fail (copies w) (length xs) with
  | None =>
      Ok tt (upd bd (arr cap xs) (copies w + length xs)%nat
                 (trace w ++ (Construct <$> xs)) w)
  | Some j =>
      Throw (upd bd (arr cap []) (copies w + j + 1)%nat
                 (trace w ++ (Construct <$> take j xs) ++
                  (Destroy <$> reverse (take j xs))) w)
  end.
Proof.
  intros Hne Hs Hsrc Hd Hle. unfold safe_init_array, len. rewrite Nat2Z.id.
  apply (safe_init_array_from_arr bs bd src_a cap [] xs w); assumption.
Qed.

Lemma safe_init_array_zero src dst w :
  safe_init_array src dst 0 w = Ok tt w.
Proof. reflexivity. Qed.

Lemma first_fail_bound k n j : first_fail k n = Some j -> (j < n)%nat.
Proof.
  revert k j. induction n as [|n IH]; intros k j; simpl; [discriminate|].
  destruct (copy_fails k); [intros [= <-]; lia|].
  destruct (first_fail (S k) n) as [j'|] eqn:E; simpl; [|discriminate].
  intros [= <-]. apply IH in E. lia.
Qed.

Lemma first_fail_fails k n j :
  first_fail k n = Some j -> copy_fails (k + j) = true.
Proof.
  revert k j. induction n as [|n IH]; intros k j; simpl; [discriminate|].
  destruct (copy_fails k) eqn:Hk.
  - intros [= <-]. rewrite Nat.add_0_r. exact Hk.
  - destruct (first_fail (S k) n) as [j'|] eqn:E; simpl; [|discriminate].
    intros [= <-]. apply IH in E.
    replace (k + S j')%nat with (S k + j')%nat by lia. exact E.
Qed.

Lemma first_fail_none k n :
  (forall i, copy_fails i = false) -> first_fail k n = None.
Proof.
  intros H. revert k. induction n as [|n IH]; intros k; simpl; [reflexivity|].
  rewrite H, IH. reflexivity.
Qed.

(** ** Member access on well-formed containers *)

Hypothesis SMALL_SIZE_range : 0 <= SMALL_SIZE < 2 ^ 63.

Ltac red_world := cbn [objs heap copies trace].

Ltac mred :=
  try unfold mbind; try unfold M_bind; try unfold mret; try unfold M_ret;
  cbv beta iota;
  cbn [is_inline unique elems cap_of block_of with_elems capacity_ refcnt
       data_ size_ store objs heap copies trace blk off negb].

Lemma ok_len sh : ok sh -> 0 <= len (elems sh) < 2 ^ 63.
Proof.
  destruct sh as [xs|p cap rc xs]; simpl; pose proof (len_nonneg xs); lia.
Qed.

Lemma fresh_heap_None (h : gmap nat large_data_header) :
  h !! fresh (dom h) = None.
Proof. apply not_elem_of_dom, is_fresh. Qed.

Lemma fresh_heap_ne (h : gmap nat large_data_header) p x :
  h !! p = Some x -> p <> fresh (dom h).
Proof. intros H ->. rewrite fresh_heap_None in H. discriminate. Qed.

Lemma fresh_heap_ne' (h : gmap nat large_data_header) p x :
  h !! p = Some x -> fresh (dom h) <> p.
Proof. intros H E. symmetry in E. revert E. eapply fresh_heap_ne, H. Qed.

Lemma get_obj_eq this c w :
  objs w !! this = Some c -> get_obj this w = Ok c w.
Proof. intros H. unfold get_obj. rewrite H. reflexivity. Qed.

Lemma get_size_eq this c w :
  objs w !! this = Some c -> get_size_ this w = Ok (size_ c) w.
Proof. intros H. unfold get_size_. rewrite run_bind, (get_obj_eq _ _ _ H). reflexivity. Qed.

Lemma set_size_eq this c z w :
  objs w !! this = Some c ->
  set_size_ this z w =
  Ok tt (World (<[this := Vec z (store c)]> (objs w)) (heap w) (copies w) (trace w)).
Proof. intros H. unfold set_size_. rewrite run_bind, (get_obj_eq _ _ _ H). reflexivity. Qed.

Lemma get_large_data_eq this s p w :
  objs w !! this = Some (Vec s (large_data p)) -> get_large_data this w = Ok p w.
Proof. intros H. unfold get_large_data. rewrite run_bind, (get_obj_eq _ _ _ H). reflexivity. Qed.

Lemma set_large_data_eq this c p w :
  objs w !! this = Some c ->
  set_large_data this p w =
  Ok tt (World (<[this := Vec (size_ c) (large_data p)]> (objs w)) (heap w)
               (copies w) (trace w)).
Proof. intros H. unfold set_large_data. rewrite run_bind, (get_obj_eq _ _ _ H). reflexivity. Qed.

Lemma get_hdr_eq p x w : heap w !! p = Some x -> get_hdr p w = Ok x w.
Proof. intros H. unfold get_hdr. rewrite H. reflexivity. Qed.

Lemma operator_delete_eq p x w :
  heap w !! p = Some x ->
  operator_delete p w =
  Ok tt (World (objs w) (delete p (heap w)) (copies w) (trace w)).
Proof. intros H. unfold operator_delete. rewrite H. reflexivity. Qed.

Lemma is_small_eq this sh w :
  objs w !! this = Some (obj_of sh) -> ok sh ->
  is_small this w = Ok (is_inline sh) w.
Proof.
  intros H Hok. unfold is_small. rewrite run_bind, (get_size_eq _ _ _ H).
  pose proof (ok_len _ Hok) as Hl.
  destruct sh as [xs|p cap rc xs]; simpl in *.
  - rewrite land_small_STATE_BIT by lia. reflexivity.
  - rewrite land_tagged_STATE_BIT by lia. reflexivity.
Qed.

Lemma size_eq this sh w :
  objs w !! this = Some (obj_of sh) -> ok sh ->
  size this w = Ok (len (elems sh)) w.
Proof.
  intros H Hok. unfold size. rewrite run_bind, (get_size_eq _ _ _ H).
  pose proof (ok_len _ Hok) as Hl.
  destruct sh as [xs|p cap rc xs]; simpl in *.
  - rewrite land_mask_small by lia. reflexivity.
  - rewrite land_mask_tagged by lia. reflexivity.
Qed.

Lemma is_unique_eq this sh w :
  reps w this sh -> is_unique this w = Ok (unique sh) w.
Proof.
  intros (H & Hok & Hb). unfold is_unique.
  rewrite run_bind, (is_small_eq _ _ _ H Hok).
  destruct sh as [xs|p cap rc xs]; simpl in *; [reflexivity|].
  rewrite run_bind, (get_large_data_eq _ _ _ _ H).
  rewrite run_bind, (get_hdr_eq _ _ _ Hb). reflexivity.
Qed.

Lemma capacity_eq this sh w :
  reps w this sh -> capacity this w = Ok (cap_of sh) w.
Proof.
  intros (H & Hok & Hb). unfold capacity.
  rewrite run_bind, (is_small_eq _ _ _ H Hok).
  destruct sh as [xs|p cap rc xs]; simpl in *; [reflexivity|].
  rewrite run_bind, (get_large_data_eq _ _ _ _ H).
  rewrite run_bind, (get_hdr_eq _ _ _ Hb). reflexivity.
Qed.

Lemma data_const_eq this sh w :
  objs w !! this = Some (obj_of sh) -> ok sh ->
  data_const this w = Ok (Ptr (block_of this sh) 0) w.
Proof.
  intros H Hok. unfold data_const.
  rewrite run_bind, (is_small_eq _ _ _ H Hok).
  destruct sh as [xs|p cap rc xs]; simpl in *; [reflexivity|].
  rewrite run_bind, (get_large_data_eq _ _ _ _ H). reflexivity.
Qed.

Lemma block_array_reps this sh w :
  reps w this sh ->
  block_array (block_of this sh) w = Some (arr (cap_of sh) (elems sh)).
Proof.
  intros (H & Hok & Hb).
  destruct sh as [xs|p cap rc xs]; simpl in *.
  - rewrite H. reflexivity.
  - rewrite Hb. reflexivity.
Qed.

Lemma upd_small v s a0 a c t w :
  objs w !! v = Some (Vec s (small_data a0)) ->
  upd (small_of v) a c t w =
  World (<[v := Vec s (small_data a)]> (objs w)) (heap w) c t.
Proof. intros H. unfold upd. simpl. rewrite H. reflexivity. Qed.

Lemma upd_data p cap rc a0 a c t w :
  heap w !! p = Some (Hdr cap rc a0) ->
  upd (data_of p) a c t w =
  World (objs w) (<[p := Hdr cap rc a]> (heap w)) c t.
Proof. intros H. unfold upd. simpl. rewrite H. reflexivity. Qed.

Lemma block_array_heap_insert b q x w :
  b <> data_of q ->
  block_array b (World (objs w) (<[q := x]> (heap w)) (copies w) (trace w)) =
  block_array b w.
Proof.
  intros Hne. destruct b as [|v|p]; simpl; try reflexivity.
  rewrite lookup_insert_ne by congruence. reflexivity.
Qed.

Lemma block_array_is_Some_ne b a w :
  block_array b w = Some a -> b <> data_of (fresh (dom (heap w))).
Proof.
  intros H ->. simpl in H. rewrite fresh_heap_None in H. discriminate.
Qed.

(** ** Heap buffers: allocation, sharing, release *)

Lemma alloc_large_data_eq bs src_a xs cap w :
  block_array bs w = Some src_a ->
  (forall (i : nat) x, xs !! i = Some x -> src_a !! i = Some (Some x)) ->
  len xs <= cap ->
  alloc_large_data (Ptr bs 0) (len xs) cap w =
  let q := fresh (dom (heap w)) in
  match first_fail (copies w) (length xs) with
  | None =>
      Ok q (World (objs w) (<[q := hdr_of cap 1 xs]> (heap w))
                  (copies w + length xs)%nat (trace w ++ (Construct <$> xs)))
  | Some j =>
      Throw (World (objs w) (heap w) (copies w + j + 1)%nat
                   (trace w ++ (Construct <$> take j xs) ++
                    (Destroy <$> reverse (take j xs))))
  end.
Proof.
  intros Hs Hsrc Hle. unfold alloc_large_data.
  destruct (Z.leb_spec (len xs) cap); [|lia].
  rewrite run_bind. simpl assert. rewrite run_ret.
  rewrite run_bind. unfold new_header at 1.
  set (q := fresh (dom (heap w))).
  set (w1 := World (objs w) (<[q := Hdr cap 1 (raw cap)]> (heap w)) (copies w) (trace w)).
  assert (Hq : bs <> data_of q) by (eapply block_array_is_Some_ne; eassumption).
  assert (Hs1 : block_array bs w1 = Some src_a).
  { unfold w1. rewrite block_array_heap_insert by exact Hq. exact Hs. }
  assert (Hd1 : heap w1 !! q = Some (Hdr cap 1 (arr cap []))).
  { unfold w1. simpl. rewrite lookup_insert_eq, arr_nil. reflexivity. }
  assert (Hb1 : block_array (data_of q) w1 = Some (arr cap [])).
  { unfold block_array. rewrite Hd1. reflexivity. }
  rewrite run_bind. unfold try_catch.
  rewrite (safe_init_array_raw bs (data_of q) src_a cap xs w1 Hq Hs1 Hsrc Hb1 Hle).
  cbv zeta. change (copies w1) with (copies w). change (trace w1) with (trace w).
  destruct (first_fail (copies w) (length xs)) as [j|].
  - rewrite (upd_data _ _ _ _ _ _ _ _ Hd1).
    erewrite operator_delete_eq by (red_world; apply lookup_insert_eq).
    red_world. unfold w1. red_world.
    rewrite insert_insert_eq, delete_insert_id by apply fresh_heap_None.
    reflexivity.
  - rewrite (upd_data _ _ _ _ _ _ _ _ Hd1). rewrite run_ret.
    unfold w1. red_world. rewrite insert_insert_eq. reflexivity.
Qed.

Lemma alloc_large_data_empty src cap w :
  0 <= cap ->
  alloc_large_data src 0 cap w =
  let q := fresh (dom (heap w)) in
  Ok q (World (objs w) (<[q := hdr_of cap 1 []]> (heap w)) (copies w) (trace w)).
Proof.
  intros Hc. unfold alloc_large_data.
  destruct (Z.leb_spec 0 cap); [|lia].
  rewrite run_bind. simpl assert. rewrite run_ret.
  rewrite run_bind. unfold new_header at 1.
  rewrite run_bind. unfold try_catch. rewrite safe_init_array_zero.
  rewrite run_ret. unfold hdr_of. rewrite arr_nil. reflexivity.
Qed.

Lemma make_new_ref_eq p cap rc xs w :
  heap w !! p = Some (hdr_of cap rc xs) -> 0 <= rc -> rc + 1 < 2 ^ 64 ->
  make_new_ref p w =
  Ok p (World (objs w) (<[p := hdr_of cap (rc + 1) xs]> (heap w))
              (copies w) (trace w)).
Proof.
  intros H H0 H1. unfold make_new_ref.
  rewrite run_bind, (get_hdr_eq _ _ _ H). simpl.
  rewrite u64_small by lia. reflexivity.
Qed.

Lemma release_large_data_eq p cap rc xs w :
  heap w !! p = Some (hdr_of cap rc xs) -> len xs <= cap -> 1 <= rc < 2 ^ 64 ->
  release_large_data p (len xs) w =
  if rc =? 1
  then Ok tt (World (objs w) (delete p (heap w)) (copies w)
                    (trace w ++ (Destroy <$> reverse xs)))
  else Ok tt (World (objs w) (<[p := hdr_of cap (rc - 1) xs]> (heap w))
                    (copies w) (trace w)).
Proof.
  intros H Hle Hrc. unfold release_large_data.
  rewrite run_bind, (get_hdr_eq _ _ _ H). cbv zeta.
  rewrite run_bind. unfold put_hdr at 1. unfold hdr_of.
  cbn [capacity_ refcnt data_].
  rewrite u64_small by lia.
  destruct (Z.eqb_spec rc 1) as [->|Hne].
  - change (1 - 1) with 0. change (0 =? 0) with true. cbv iota.
    rewrite run_bind.
    erewrite (destruct_array_all (data_of p) cap xs);
      [|simpl; rewrite lookup_insert_eq; reflexivity|exact Hle].
    erewrite upd_data by (red_world; apply lookup_insert_eq).
    red_world.
    erewrite operator_delete_eq by (red_world; apply lookup_insert_eq).
    red_world. rewrite !delete_insert_eq. reflexivity.
  - destruct (Z.eqb_spec (rc - 1) 0); [lia|]. reflexivity.
Qed.

(** ** Shapes and steps *)

Lemma arr_inj cap xs ys :
  len xs <= cap -> len ys <= cap -> arr cap xs = arr cap ys -> xs = ys.
Proof.
  intros Hx Hy Heq. apply list_eq. intros i.
  assert (Hl : forall zs, len zs <= cap -> zs !! i = None -> arr cap zs !! i = Some None \/ arr cap zs !! i = None).
  { intros zs Hz Hn. apply lookup_ge_None in Hn.
    destruct (decide (i < Z.to_nat cap)%nat).
    - left. apply arr_lookup_raw. lia.
    - right. apply lookup_ge_None. rewrite arr_length by exact Hz. lia. }
  destruct (xs !! i) as [x|] eqn:Ex, (ys !! i) as [y|] eqn:Ey; try reflexivity.
  - pose proof (arr_lookup_live cap _ _ _ Ex) as H1.
    pose proof (arr_lookup_live cap _ _ _ Ey) as H2.
    rewrite Heq in H1. congruence.
  - pose proof (arr_lookup_live cap _ _ _ Ex) as H1.
    rewrite Heq in H1. destruct (Hl ys Hy Ey); congruence.
  - pose proof (arr_lookup_live cap _ _ _ Ey) as H1.
    rewrite <- Heq in H1. destruct (Hl xs Hx Ex); congruence.
Qed.

Lemma elems_with_elems sh ys : elems (with_elems sh ys) = ys.
Proof. destruct sh; reflexivity. Qed.

Lemma cap_of_with_elems sh ys : cap_of (with_elems sh ys) = cap_of sh.
Proof. destruct sh; reflexivity. Qed.

Lemma block_of_with_elems this sh ys :
  block_of this (with_elems sh ys) = block_of this sh.
Proof. destruct sh; reflexivity. Qed.

Lemma unique_with_elems sh ys : unique (with_elems sh ys) = unique sh.
Proof. destruct sh; reflexivity. Qed.

Lemma is_inline_with_elems sh ys : is_inline (with_elems sh ys) = is_inline sh.
Proof. destruct sh; reflexivity. Qed.

Lemma with_elems_with_elems sh ys zs :
  with_elems (with_elems sh ys) zs = with_elems sh zs.
Proof. destruct sh; reflexivity. Qed.

Lemma with_elems_id sh : with_elems sh (elems sh) = sh.
Proof. destruct sh; reflexivity. Qed.

Lemma ok_with_elems sh ys : ok sh -> len ys <= cap_of sh -> ok (with_elems sh ys).
Proof. destruct sh; simpl; intros; lia. Qed.

Lemma ok_cap sh : ok sh -> len (elems sh) <= cap_of sh < 2 ^ 63.
Proof. destruct sh; simpl; lia. Qed.

Lemma reps_put_shape this sh c t w :
  ok sh -> reps (put_shape this (len (elems sh)) sh c t w) this sh.
Proof.
  intros Hok. split; [|split]; [|exact Hok|].
  - unfold put_shape. red_world. apply lookup_insert_eq.
  - destruct sh as [xs|p cap rc xs]; simpl; [exact I|].
    apply lookup_insert_eq.
Qed.

Lemma reps_put_shape_with this sh ys c t w :
  ok sh -> len ys <= cap_of sh ->
  reps (put_shape this (len ys) (with_elems sh ys) c t w) this (with_elems sh ys).
Proof.
  intros Hok Hle.
  pose proof (reps_put_shape this (with_elems sh ys) c t w) as H.
  rewrite elems_with_elems in H. apply H, ok_with_elems; assumption.
Qed.

Lemma objs_put_shape this n sh c t w :
  objs (put_shape this n sh c t w) !! this = Some (obj_n n sh).
Proof. unfold put_shape. red_world. apply lookup_insert_eq. Qed.

Lemma buffered_put_shape this n sh c t w :
  buffered (heap (put_shape this n sh c t w)) sh.
Proof.
  destruct sh as [xs|p cap rc xs]; simpl; [exact I|]. apply lookup_insert_eq.
Qed.

Lemma block_array_put_shape this n sh c t w :
  block_array (block_of this sh) (put_shape this n sh c t w) =
  Some (arr (cap_of sh) (elems sh)).
Proof.
  destruct sh as [xs|p cap rc xs]; simpl.
  - rewrite lookup_insert_eq. reflexivity.
  - rewrite lookup_insert_eq. reflexivity.
Qed.

Lemma upd_block this n sh ys c t w :
  objs w !! this = Some (obj_n n sh) -> buffered (heap w) sh ->
  upd (block_of this sh) (arr (cap_of sh) ys) c t w =
  put_shape this n (with_elems sh ys) c t w.
Proof.
  intros Ho Hb. destruct sh as [xs|p cap rc xs]; simpl in *.
  - rewrite (upd_small _ _ _ _ _ _ _ Ho). reflexivity.
  - rewrite (upd_data _ _ _ _ _ _ _ _ Hb). unfold put_shape. simpl.
    rewrite (insert_id _ _ _ Ho). reflexivity.
Qed.

Lemma put_shape_twice this n1 n2 sh1 sh2 c1 c2 t1 t2 w :
  block_of this sh2 = block_of this sh1 ->
  put_shape this n2 sh2 c2 t2 (put_shape this n1 sh1 c1 t1 w) =
  put_shape this n2 sh2 c2 t2 w.
Proof.
  intros Hb. unfold put_shape. red_world. rewrite insert_insert_eq.
  f_equal. destruct sh1, sh2; simpl in *; try discriminate; [reflexivity|].
  injection Hb as ->. apply insert_insert_eq.
Qed.

Lemma put_shape_base this n sh c t w w' :
  objs w' = objs w -> heap w' = heap w ->
  put_shape this n sh c t w' = put_shape this n sh c t w.
Proof. intros Ho Hh. unfold put_shape. rewrite Ho, Hh. reflexivity. Qed.

Lemma put_shape_over this n sh c t w w' o :
  objs w' = <[this := o]> (objs w) -> heap w' = heap w ->
  put_shape this n sh c t w' = put_shape this n sh c t w.
Proof.
  intros Ho Hh. unfold put_shape. rewrite Ho, Hh, insert_insert_eq.
  reflexivity.
Qed.

Lemma set_size_put_shape this n m sh c t w :
  set_size_ this ((if is_inline sh then 0 else STATE_BIT) + m)
            (put_shape this n sh c t w) =
  Ok tt (put_shape this m sh c t w).
Proof.
  erewrite set_size_eq by apply objs_put_shape.
  unfold put_shape. red_world. rewrite insert_insert_eq.
  destruct sh; reflexivity.
Qed.

Lemma set_size_put_shape_with this n m sh ys c t w :
  set_size_ this ((if is_inline sh then 0 else STATE_BIT) + m)
            (put_shape this n (with_elems sh ys) c t w) =
  Ok tt (put_shape this m (with_elems sh ys) c t w).
Proof.
  rewrite <- (is_inline_with_elems sh ys). apply set_size_put_shape.
Qed.

Lemma size_field_obj_n n sh :
  size_ (obj_n n sh) = (if is_inline sh then 0 else STATE_BIT) + n.
Proof. destruct sh; reflexivity. Qed.

Lemma released_put_shape_in_place this n sh ys c t w :
  unique sh = true ->
  let w1 := put_shape this n (with_elems sh ys) c t w in
  objs (released (with_elems sh ys) w1) = <[this := obj_n n (with_elems sh ys)]> (objs w) /\
  heap (released (with_elems sh ys) w1) = heap (released sh w).
Proof.
  intros Hu. destruct sh as [xs|p cap rc xs]; simpl in *.
  - split; reflexivity.
  - rewrite Hu. split; [reflexivity|]. apply delete_insert_eq.
Qed.

Lemma step_trans this w sh w1 sh1 w2 sh2 :
  step this w sh w1 sh1 -> step this w1 sh1 w2 sh2 -> step this w sh w2 sh2.
Proof.
  intros [c1 t1 -> -> Hc1 | ys1 c1 t1 Hu1 -> -> Hc1 | c1 t1 Hq1 -> Hc1].
  - intros [c2 t2 -> -> Hc2 | ys2 c2 t2 Hu2 -> -> Hc2 | c2 t2 Hq2 -> Hc2];
      cbn [objs heap copies trace] in *.
    + eapply step_same; [reflexivity|reflexivity|lia].
    + eapply step_in_place; [exact Hu2|reflexivity|reflexivity|lia].
    + eapply (step_moved _ _ _ _ _ c2 t2); [| |lia].
      * destruct sh2; [exact I|]. destruct sh; exact Hq2.
      * apply put_shape_base; destruct sh; reflexivity.
  - intros [c2 t2 -> -> Hc2 | ys2 c2 t2 Hu2 -> -> Hc2 | c2 t2 Hq2 -> Hc2];
      change (copies (put_shape this (len ys1) (with_elems sh ys1) c1 t1 w))
        with c1 in Hc2;
      cbn [objs heap copies trace] in *.
    + eapply (step_in_place _ _ _ _ _ ys1 c2 t2); [exact Hu1|reflexivity|reflexivity|lia].
    + rewrite with_elems_with_elems.
      eapply (step_in_place _ _ _ _ _ ys2 c2 t2); [exact Hu1|reflexivity| |lia].
      apply put_shape_twice. rewrite !block_of_with_elems. reflexivity.
    + destruct (released_put_shape_in_place this (len ys1) sh ys1 c1 t1 w Hu1) as [Ho Hh].
      cbv zeta in Ho, Hh.
      eapply (step_moved _ _ _ _ _ c2 t2); [| |lia].
      * destruct sh2; [exact I|]. rewrite Hh in Hq2. exact Hq2.
      * eapply put_shape_over; [|exact Hh].
        rewrite Ho. destruct sh; reflexivity.
  - intros [c2 t2 -> -> Hc2 | ys2 c2 t2 Hu2 -> -> Hc2 | c2 t2 Hq2 -> Hc2];
      change (copies (put_shape this (len (elems sh1)) sh1 c1 t1 (released sh w)))
        with c1 in Hc2;
      cbn [objs heap copies trace] in *.
    + eapply (step_moved _ _ _ _ _ c2 t2); [exact Hq1|reflexivity|lia].
    + eapply (step_moved _ _ _ _ _ c2 t2); [| |lia].
      * destruct sh1; exact Hq1.
      * rewrite elems_with_elems. apply put_shape_twice.
        apply block_of_with_elems.
    + assert (Ho : objs (released sh1 (put_shape this (len (elems sh1)) sh1 c1 t1 (released sh w)))
                   = <[this := obj_of sh1]> (objs (released sh w))).
      { destruct sh1; reflexivity. }
      assert (Hh : heap (released sh1 (put_shape this (len (elems sh1)) sh1 c1 t1 (released sh w)))
                   = heap (released sh w)).
      { destruct sh1 as [xs1|q1 cap1 rc1 xs1]; [reflexivity|].
        destruct Hq1 as [Hq1 ->]. simpl. apply delete_insert_id. exact Hq1. }
      eapply (step_moved _ _ _ _ _ c2 t2); [| |lia].
      * destruct sh2; [exact I|]. rewrite Hh in Hq2. exact Hq2.
      * eapply put_shape_over; [exact Ho|exact Hh].
Qed.

Lemma step_copies this w sh w' sh' :
  step this w sh w' sh' -> (copies w <= copies w')%nat.
Proof. intros [c t _ -> H | ys c t _ _ -> H | c t _ -> H]; exact H. Qed.

Lemma failed_mono w w' : (copies w <= copies w')%nat -> failed w' -> failed w.
Proof. intros H (k & Hk & Hf). exists k. split; [lia|exact Hf]. Qed.

Lemma not_failed w : (forall i, copy_fails i = false) -> ~ failed w.
Proof. intros H (k & _ & Hf). rewrite H in Hf. discriminate. Qed.

Lemma step_frame this w sh w' sh' v shv :
  reps w this sh -> step this w sh w' sh' -> v <> this ->
  reps w v shv -> compat sh shv ->
  exists shv',
    reps w' v shv' /\ elems shv' = elems shv /\ cap_of shv' = cap_of shv /\
    is_inline shv' = is_inline shv /\ compat sh' shv'.
Proof.
  intros (Ho & Hok & Hb) Hstep Hne (Hov & Hokv & Hbv) Hc.
  destruct Hstep as [c t -> -> _ | ys c t Hu -> -> _ | c t Hq -> _].
  - exists shv. repeat split; try assumption; reflexivity.
  - exists shv. repeat split; try assumption; try reflexivity.
    + unfold put_shape. red_world. rewrite lookup_insert_ne by congruence.
      exact Hov.
    + unfold put_shape. red_world.
      destruct sh as [xs|p cap rc xs]; simpl; [exact Hbv|].
      destruct shv as [xsv|pv capv rcv xsv]; simpl in *; [exact I|].
      rewrite lookup_insert_ne; [exact Hbv|].
      intros <-. apply Z.eqb_eq in Hu. specialize (Hc eq_refl). lia.
    + destruct sh, shv; simpl in *; try exact I. exact Hc.
  - assert (Hmid : exists shm,
      ok shm /\ buffered (heap (released sh w)) shm /\
      obj_of shm = obj_of shv /\
      elems shm = elems shv /\ cap_of shm = cap_of shv /\
      is_inline shm = is_inline shv /\
      forall q, heap (released sh w) !! q = None ->
        match shm with Shared pv _ _ _ => q <> pv | _ => True end).
    { destruct shv as [xsv|pv capv rcv xsv].
      - exists (Inline xsv). repeat split; try assumption; try reflexivity.
      - simpl in Hbv, Hokv.
        destruct sh as [xs|p cap rc xs]; simpl in *.
        + exists (Shared pv capv rcv xsv). repeat split; try assumption; try lia.
          intros q Hq' ->. congruence.
        + destruct (decide (p = pv)) as [<-|Hpp].
          * specialize (Hc eq_refl).
            rewrite Hb in Hbv. injection Hbv as <- <- Harr.
            apply arr_inj in Harr; [|lia|lia]. subst xsv.
            destruct (Z.eqb_spec rc 1); [lia|].
            exists (Shared p cap (rc - 1) xs). simpl.
            repeat split; try lia; try reflexivity.
            -- apply lookup_insert_eq.
            -- intros q Hq' ->. rewrite lookup_insert_eq in Hq'. discriminate.
          * exists (Shared pv capv rcv xsv). simpl.
            repeat split; try lia; try reflexivity.
            -- destruct (rc =? 1).
               ++ rewrite lookup_delete_ne by exact Hpp. exact Hbv.
               ++ rewrite lookup_insert_ne by exact Hpp. exact Hbv.
            -- intros q Hq' ->. destruct (rc =? 1).
               ++ rewrite lookup_delete_ne in Hq' by exact Hpp. congruence.
               ++ rewrite lookup_insert_ne in Hq' by exact Hpp. congruence. }
    destruct Hmid as (shm & Hokm & Hbm & Hobj & He & Hcap & Hin & Hfresh).
    exists shm. repeat split; try assumption.
    + unfold put_shape. red_world. rewrite lookup_insert_ne by congruence.
      rewrite Hobj. destruct sh; exact Hov.
    + unfold put_shape. red_world.
      destruct sh' as [xs'|q cap' rc' xs']; simpl; [exact Hbm|].
      destruct Hq as [Hq _]. specialize (Hfresh q Hq).
      destruct shm as [|pv capv rcv xsv]; simpl in *; [exact I|].
      rewrite lookup_insert_ne by exact Hfresh. exact Hbm.
    + destruct sh' as [xs'|q cap' rc' xs']; simpl; [exact I|].
      destruct Hq as [Hq _]. specialize (Hfresh q Hq).
      destruct shm; [exact I|]. intros ->. congruence.
Qed.

(** ** [data]: the privatisation point *)

Lemma data_unique this sh w :
  reps w this sh -> unique sh = true ->
  data this w = Ok (Ptr (block_of this sh) 0) w.
Proof.
  intros Hr Hu. pose proof Hr as (Ho & Hok & Hb). unfold data. mred.
  rewrite (is_small_eq _ _ _ Ho Hok).
  destruct sh as [xs|p cap rc xs]; mred; [reflexivity|].
  rewrite (is_unique_eq _ _ _ Hr), Hu. mred.
  rewrite (get_large_data_eq _ _ _ _ Ho). reflexivity.
Qed.

Lemma data_shared this p cap rc xs w :
  reps w this (Shared p cap rc xs) -> rc <> 1 ->
  data this w =
  let q := fresh (dom (heap w)) in
  match first_fail (copies w) (length xs) with
  | None =>
      Ok (Ptr (data_of q) 0)
         (put_shape this (len xs) (Shared q cap 1 xs)
            (copies w + length xs)%nat (trace w ++ (Construct <$> xs))
            (released (Shared p cap rc xs) w))
  | Some j =>
      Throw (World (objs w) (heap w) (copies w + j + 1)%nat
                   (trace w ++ (Construct <$> take j xs) ++
                    (Destroy <$> reverse (take j xs))))
  end.
Proof.
  intros Hr Hrc. pose proof Hr as (Ho & Hok & Hb). simpl in Hok, Hb.
  unfold data. mred.
  rewrite (is_small_eq _ _ _ Ho Hok). mred.
  rewrite (is_unique_eq _ _ _ Hr). mred.
  destruct (Z.eqb_spec rc 1) as [|_]; [contradiction|].
  rewrite (get_large_data_eq _ _ _ _ Ho). mred.
  rewrite (get_hdr_eq _ _ _ Hb). mred.
  rewrite (size_eq _ _ _ Ho Hok). unfold hdr_of. mred.
  rewrite (alloc_large_data_eq (data_of p) (arr cap xs) xs cap w);
    [|simpl; rewrite Hb; reflexivity
     |intros i x Hx; apply arr_lookup_live; exact Hx
     |lia].
  cbv zeta. destruct (first_fail (copies w) (length xs)) as [j|]; [reflexivity|].
  set (q := fresh (dom (heap w))).
  assert (Hpq : p <> q) by (eapply fresh_heap_ne; exact Hb).
  mred. unfold release_owned_large_data. mred.
  erewrite get_large_data_eq by (red_world; exact Ho). mred.
  erewrite (size_eq this (Shared p cap rc xs)) by (red_world; assumption).
  mred.
  erewrite (release_large_data_eq p cap rc xs);
    [|red_world; rewrite lookup_insert_ne by congruence; exact Hb|lia|lia].
  destruct (Z.eqb_spec rc 1) as [|_]; [contradiction|]. mred.
  erewrite set_large_data_eq by (red_world; exact Ho). mred.
  erewrite get_large_data_eq by (red_world; apply lookup_insert_eq).
  f_equal.
  unfold put_shape, released. mred. simpl obj_n. simpl heap_with.
  destruct (Z.eqb_spec rc 1) as [|_]; [contradiction|].
  rewrite insert_insert_ne by congruence. reflexivity.
Qed.

Lemma reps_same this sh c t w :
  reps w this sh -> reps (World (objs w) (heap w) c t) this sh.
Proof. intros H. exact H. Qed.

Lemma kept_same this sh c t w :
  reps w this sh -> (copies w <= c)%nat ->
  kept this w sh (World (objs w) (heap w) c t).
Proof.
  intros Hr Hc. exists sh. repeat split; try apply Hr.
  eapply step_same; [reflexivity|reflexivity|exact Hc].
Qed.

Lemma kept_refl this sh w : reps w this sh -> kept this w sh w.
Proof.
  intros Hr. destruct w as [o h c t]. apply (kept_same this sh c t _ Hr).
  simpl. lia.
Qed.

Lemma failed_first_fail w n j :
  first_fail (copies w) n = Some j -> failed w.
Proof.
  intros H. exists (copies w + j)%nat. split; [lia|].
  eapply first_fail_fails, H.
Qed.

Lemma data_spec this sh w :
  reps w this sh ->
  match data this w with
  | Ok d w1 =>
      exists sh1,
        d = Ptr (block_of this sh1) 0 /\ step this w sh w1 sh1 /\
        reps w1 this sh1 /\ unique sh1 = true /\
        elems sh1 = elems sh /\ cap_of sh1 = cap_of sh /\
        is_inline sh1 = is_inline sh /\
        (unique sh = true -> w1 = w /\ sh1 = sh)
  | Throw w1 =>
      failed w /\ unique sh = false /\
      exists j,
        first_fail (copies w) (length (elems sh)) = Some j /\
        w1 = World (objs w) (heap w) (copies w + j + 1)%nat
               (trace w ++ (Construct <$> take j (elems sh)) ++
                (Destroy <$> reverse (take j (elems sh))))
  | Undef => False
  end.
Proof.
  intros Hr. destruct (unique sh) eqn:Hu.
  - rewrite (data_unique _ _ _ Hr Hu). exists sh.
    split; [reflexivity|]. split.
    { destruct w as [o h c t].
      eapply step_same; [reflexivity|reflexivity|simpl; lia]. }
    split; [exact Hr|]. split; [exact Hu|].
    repeat split; reflexivity.
  - destruct sh as [xs|p cap rc xs]; [discriminate|].
    simpl in Hu. apply Z.eqb_neq in Hu.
    rewrite (data_shared _ _ _ _ _ _ Hr Hu). cbv zeta.
    pose proof Hr as (Ho & Hok & Hb). simpl in Hok, Hb.
    destruct (first_fail (copies w) (length xs)) as [j|] eqn:Hf.
    + split; [eapply failed_first_fail; exact Hf|].
      split; [reflexivity|]. exists j. split; [exact Hf|reflexivity].
    + set (q := fresh (dom (heap w))).
      exists (Shared q cap 1 xs).
      split; [reflexivity|]. split; [|split].
      * eapply step_moved; [|reflexivity|lia].
        split; [|reflexivity]. simpl.
        destruct (Z.eqb_spec rc 1); [contradiction|].
        rewrite lookup_insert_ne by (eapply fresh_heap_ne; exact Hb).
        apply fresh_heap_None.
      * apply (reps_put_shape this (Shared q cap 1 xs)). simpl. lia.
      * split; [reflexivity|]. split; [reflexivity|].
        split; [reflexivity|]. split; [reflexivity|].
        simpl. intros H.
        first [discriminate | apply Z.eqb_eq in H; contradiction].
Qed.

Lemma data_throw_kept this sh w w1 :
  reps w this sh ->
  (failed w /\ unique sh = false /\
   exists j,
     first_fail (copies w) (length (elems sh)) = Some j /\
     w1 = World (objs w) (heap w) (copies w + j + 1)%nat
            (trace w ++ (Construct <$> take j (elems sh)) ++
             (Destroy <$> reverse (take j (elems sh))))) ->
  kept this w sh w1 /\ failed w.
Proof.
  intros Hr (Hf & _ & j & _ & ->). split; [|exact Hf].
  apply kept_same; [exact Hr|lia].
Qed.

(** ** [pop_back] *)

Lemma tag_bound sh n :
  0 <= n < 2 ^ 63 -> 0 <= (if is_inline sh then 0 else STATE_BIT) + n < 2 ^ 64.
Proof. rewrite STATE_BIT_eq. destruct (is_inline sh); lia. Qed.

Lemma pop_back_spec this sh ys x w :
  reps w this sh -> elems sh = ys ++ [x] ->
  match pop_back this w with
  | Ok _ w' =>
      exists sh',
        step this w sh w' sh' /\ reps w' this sh' /\ elems sh' = ys /\
        cap_of sh' = cap_of sh /\ is_inline sh' = is_inline sh
  | Throw w' => kept this w sh w' /\ failed w
  | Undef => False
  end.
Proof.
  intros Hr He. unfold pop_back. mred.
  pose proof (data_spec this sh w Hr) as Hd.
  destruct (data this w) as [d w1|w1|];
    [|exact (data_throw_kept _ _ _ _ Hr Hd)|exact Hd].
  destruct Hd as (sh1 & -> & Hs1 & Hr1 & Hu1 & He1 & Hc1 & Hi1 & _).
  pose proof Hr1 as (Ho1 & Hok1 & Hb1).
  pose proof (ok_cap _ Hok1) as Hcap.
  rewrite He1, He, len_app in Hcap. change (len [x]) with 1 in Hcap.
  pose proof (len_nonneg ys) as Hys.
  rewrite (size_eq _ _ _ Ho1 Hok1), He1, He, len_app. change (len [x]) with 1.
  unfold ptr_add. mred. rewrite Z.add_0_l.
  replace (len ys + 1 - 1) with (len ys) by lia.
  rewrite u64_small by lia.
  pose proof (block_array_reps _ _ _ Hr1) as Hba. rewrite He1, He in Hba.
  rewrite (destroy_eq _ _ _ x _ Hba Hys);
    [|unfold len; rewrite Nat2Z.id; apply arr_lookup_end].
  unfold len at 1. rewrite Nat2Z.id, arr_pop by (fold (len ys); lia).
  rewrite (upd_block this (len (elems sh1)) sh1 ys _ _ w1 Ho1 Hb1). mred.
  erewrite get_size_eq by apply objs_put_shape. mred.
  rewrite size_field_obj_n, is_inline_with_elems, He1, He, len_app.
  change (len [x]) with 1.
  replace ((if is_inline sh1 then 0 else STATE_BIT) + (len ys + 1) - 1)
    with ((if is_inline sh1 then 0 else STATE_BIT) + len ys) by lia.
  rewrite u64_small by (apply tag_bound; lia).
  rewrite set_size_put_shape_with.
  exists (with_elems sh1 ys). split; [|split; [|split; [|split]]].
  - eapply step_trans; [exact Hs1|].
    eapply step_in_place; [exact Hu1|reflexivity|reflexivity|lia].
  - rewrite <- (elems_with_elems sh1 ys) at 1. apply reps_put_shape.
    apply ok_with_elems; [exact Hok1|lia].
  - apply elems_with_elems.
  - rewrite cap_of_with_elems. exact Hc1.
  - rewrite is_inline_with_elems. exact Hi1.
Qed.

(** ** The destructor body *)

Lemma release_owned_large_data_eq this p cap rc xs w :
  reps w this (Shared p cap rc xs) ->
  release_owned_large_data this w =
  Ok tt (World (objs w) (heap (released (Shared p cap rc xs) w)) (copies w)
               (trace w ++ if rc =? 1 then Destroy <$> reverse xs else [])).
Proof.
  intros (Ho & Hok & Hb). simpl in Hok, Hb.
  unfold release_owned_large_data. mred.
  rewrite (get_large_data_eq _ _ _ _ Ho). mred.
  rewrite (size_eq _ _ _ Ho Hok). mred.
  rewrite (release_large_data_eq _ _ _ _ _ Hb) by lia.
  simpl. destruct (rc =? 1); [reflexivity|].
  rewrite app_nil_r. reflexivity.
Qed.

Lemma destructor_eq this sh w :
  reps w this sh ->
  destructor this w =
  Ok tt (World (<[this := obj_n (len (elems sh)) (with_elems sh [])]> (objs w))
               (heap (released sh w)) (copies w)
               (trace w ++ if unique sh then Destroy <$> reverse (elems sh) else [])).
Proof.
  intros Hr. pose proof Hr as (Ho & Hok & Hb).
  unfold destructor. mred. rewrite (is_small_eq _ _ _ Ho Hok).
  destruct sh as [xs|p cap rc xs]; mred.
  - unfold destruct_data. mred.
    rewrite (data_unique _ _ _ Hr eq_refl). mred.
    rewrite (size_eq _ _ _ Ho Hok). mred.
    rewrite (destruct_array_all (small_of this) SMALL_SIZE xs);
      [|exact (block_array_reps _ _ _ Hr)|exact Hok].
    erewrite upd_small by exact Ho. reflexivity.
  - rewrite (release_owned_large_data_eq _ _ _ _ _ _ Hr).
    rewrite (insert_id _ _ _ Ho). reflexivity.
Qed.

Lemma heap_released_insert sh q x o h c t :
  (match sh with Shared p _ _ _ => p <> q | Inline _ => True end) ->
  heap (released sh (World o (<[q := x]> h) c t)) =
  <[q := x]> (heap (released sh (World o h c t))).
Proof.
  destruct sh as [xs|p cap rc xs]; simpl; [reflexivity|].
  intros Hne. destruct (rc =? 1).
  - apply delete_insert_ne. congruence.
  - apply insert_insert_ne. exact Hne.
Qed.

Lemma heap_released_fresh sh w q :
  buffered (heap w) sh -> heap w !! q = None ->
  heap (released sh w) !! q = None.
Proof.
  destruct sh as [xs|p cap rc xs]; simpl; [intros _ H; exact H|].
  intros Hb Hq. assert (p <> q) by congruence.
  destruct (rc =? 1).
  - rewrite lookup_delete_ne by assumption. exact Hq.
  - rewrite lookup_insert_ne by assumption. exact Hq.
Qed.

Lemma buffered_ne sh w q :
  buffered (heap w) sh -> heap w !! q = None ->
  match sh with Shared p _ _ _ => p <> q | Inline _ => True end.
Proof.
  destruct sh as [xs|p cap rc xs]; simpl; [intros; exact I|].
  intros Hb Hq. congruence.
Qed.

(** ** [push_back] *)

Lemma push_back_spec this sh v w :
  reps w this sh ->
  (len (elems sh) = cap_of sh -> 2 * cap_of sh + 1 < 2 ^ 63) ->
  match push_back this v w with
  | Ok _ w' =>
      exists sh',
        step this w sh w' sh' /\ reps w' this sh' /\
        elems sh' = elems sh ++ [v] /\ unique sh' = true /\
        if len (elems sh) =? cap_of sh
        then exists q, sh' = Shared q (2 * cap_of sh + 1) 1 (elems sh ++ [v])
        else cap_of sh' = cap_of sh /\ is_inline sh' = is_inline sh
  | Throw w' => kept this w sh w' /\ failed w
  | Undef => False
  end.
Proof.
  intros Hr Hgrow. pose proof Hr as (Ho & Hok & Hb).
  pose proof (ok_cap _ Hok) as Hcap.
  pose proof (len_nonneg (elems sh)) as Hlen.
  unfold push_back. mred.
  rewrite (size_eq _ _ _ Ho Hok). mred.
  rewrite (capacity_eq _ _ _ Hr). mred.
  destruct (Z.eqb_spec (len (elems sh)) (cap_of sh)) as [Hfull|Hroom].
  - (* growth *)
    specialize (Hgrow Hfull).
    rewrite (data_const_eq _ _ _ Ho Hok). mred.
    rewrite u64_small by lia.
    rewrite (alloc_large_data_eq (block_of this sh) (arr (cap_of sh) (elems sh))
               (elems sh) (2 * cap_of sh + 1) w);
      [|exact (block_array_reps _ _ _ Hr)
       |intros i x Hx; apply arr_lookup_live; exact Hx
       |lia].
    cbv zeta. set (q := fresh (dom (heap w))).
    set (cap' := 2 * cap_of sh + 1).
    assert (Hq : heap w !! q = None) by apply fresh_heap_None.
    destruct (first_fail (copies w) (length (elems sh))) as [j|] eqn:Hf.
    { split; [apply kept_same; [exact Hr|lia]|].
      eapply failed_first_fail; exact Hf. }
    mred. unfold try_catch.
    erewrite (copy_construct_eq (data_of q) _ (arr cap' (elems sh)));
      [|unfold block_array; red_world; rewrite lookup_insert_eq; reflexivity
       |lia
       |rewrite arr_length by lia; unfold len in *; lia].
    red_world.
    destruct (copy_fails (copies w + length (elems sh))) eqn:Hcf.
    { erewrite upd_data by (red_world; apply lookup_insert_eq). red_world.
      erewrite (release_large_data_eq q cap' 1 (elems sh));
        [|red_world; apply lookup_insert_eq|lia|lia].
      change (1 =? 1) with true. cbv iota. red_world.
      rewrite insert_insert_eq, delete_insert_id by exact Hq.
      split; [apply kept_same; [exact Hr|lia]|].
      exists (copies w + length (elems sh))%nat. split; [lia|exact Hcf]. }
    erewrite upd_data by (red_world; apply lookup_insert_eq). red_world.
    rewrite insert_insert_eq.
    unfold len at 1. rewrite Nat2Z.id, arr_push by lia.
    fold (hdr_of cap' 1 (elems sh ++ [v])).
    erewrite (destructor_eq this sh);
      [|split; [exact Ho|split; [exact Hok|]];
        destruct sh; simpl; [exact I|];
        rewrite lookup_insert_ne by (eapply fresh_heap_ne'; exact Hb); exact Hb].
    mred.
    erewrite set_large_data_eq by (red_world; apply lookup_insert_eq). mred.
    unfold set_large_state. mred.
    erewrite get_size_eq by (red_world; apply lookup_insert_eq). mred.
    erewrite set_size_eq by (red_world; apply lookup_insert_eq). mred.
    erewrite get_size_eq by (red_world; apply lookup_insert_eq). mred.
    erewrite set_size_eq by (red_world; apply lookup_insert_eq). mred.
    rewrite !insert_insert_eq.
    rewrite size_field_obj_n, is_inline_with_elems.
    assert (Hlor : Z.lor ((if is_inline sh then 0 else STATE_BIT) + len (elems sh)) STATE_BIT
                   = STATE_BIT + len (elems sh)).
    { destruct (is_inline sh).
      - rewrite Z.add_0_l. apply tag_add_lor. lia.
      - apply lor_tagged. lia. }
    rewrite Hlor, u64_small by (rewrite STATE_BIT_eq; lia).
    rewrite heap_released_insert by (eapply buffered_ne; [exact Hb|exact Hq]).
    exists (Shared q cap' 1 (elems sh ++ [v])).
    assert (Hw : World
      (<[this:={| size_ := STATE_BIT + len (elems sh) + 1; store := large_data q |}]> (objs w))
      (<[q:=hdr_of cap' 1 (elems sh ++ [v])]>
         (heap (released sh (World (objs w) (heap w)
            (S (copies w + length (elems sh)))
            ((trace w ++ (Construct <$> elems sh)) ++ [Construct v])))))
      (S (copies w + length (elems sh)))
      (((trace w ++ (Construct <$> elems sh)) ++ [Construct v]) ++
        (if unique sh then Destroy <$> reverse (elems sh) else []))
      = put_shape this (len (elems sh ++ [v])) (Shared q cap' 1 (elems sh ++ [v]))
          (S (copies w + length (elems sh)))
          (((trace w ++ (Construct <$> elems sh)) ++ [Construct v]) ++
            (if unique sh then Destroy <$> reverse (elems sh) else []))
          (released sh w)).
    { unfold put_shape. rewrite len_app. change (len [v]) with 1.
      f_equal.
      - simpl obj_n. rewrite Z.add_assoc. destruct sh; reflexivity.
      - destruct sh; reflexivity. }
    rewrite Hw. split; [|split; [|split; [|split]]].
    + eapply step_moved; [|reflexivity|lia].
      split; [|reflexivity]. apply heap_released_fresh; assumption.
    + apply (reps_put_shape this (Shared q cap' 1 (elems sh ++ [v]))).
      simpl. rewrite len_app. change (len [v]) with 1. unfold cap'. lia.
    + reflexivity.
    + reflexivity.
    + exists q. reflexivity.
  - (* room left *)
    pose proof (data_spec this sh w Hr) as Hd.
    destruct (data this w) as [d w1|w1|];
      [|exact (data_throw_kept _ _ _ _ Hr Hd)|exact Hd].
    destruct Hd as (sh1 & -> & Hs1 & Hr1 & Hu1 & He1 & Hc1 & Hi1 & _).
    pose proof Hr1 as (Ho1 & Hok1 & Hb1).
    pose proof (block_array_reps _ _ _ Hr1) as Hba.
    rewrite <- ?He1, <- ?Hc1, <- ?Hi1 in Hcap, Hlen, Hroom |- *.
    unfold ptr_add. mred. rewrite Z.add_0_l.
    rewrite (copy_construct_eq _ _ _ v _ Hba Hlen);
      [|rewrite arr_length by lia; unfold len in *; lia].
    destruct (copy_fails (copies w1)) eqn:Hcf.
    { pose proof (step_copies _ _ _ _ _ Hs1) as Hmono.
      rewrite (upd_keep _ _ _ _ _ Hba).
      split.
      - exists sh1. split; [|split; [|split; [|split]]]; try assumption.
        eapply step_trans; [exact Hs1|].
        eapply step_same; [reflexivity|reflexivity|lia].
      - exists (copies w1). split; [exact Hmono|exact Hcf]. }
    unfold len at 1.
    rewrite Nat2Z.id, arr_push by lia.
    rewrite (upd_block this (len (elems sh1)) sh1 _ _ _ w1 Ho1 Hb1). mred.
    erewrite get_size_eq by apply objs_put_shape. mred.
    rewrite size_field_obj_n, is_inline_with_elems.
    rewrite <- Z.add_assoc.
    rewrite u64_small by (apply tag_bound; lia).
    rewrite set_size_put_shape_with.
    exists (with_elems sh1 (elems sh1 ++ [v])).
    assert (Hl : len (elems sh1) + 1 = len (elems sh1 ++ [v])).
    { rewrite len_app. reflexivity. }
    rewrite Hl. split; [|split; [|split; [|split; [|split]]]].
    + eapply step_trans; [exact Hs1|].
      eapply step_in_place; [exact Hu1|reflexivity|reflexivity|lia].
    + apply reps_put_shape_with; [exact Hok1|].
      rewrite <- Hl. lia.
    + rewrite elems_with_elems. congruence.
    + rewrite unique_with_elems. exact Hu1.
    + rewrite cap_of_with_elems. congruence.
    + rewrite is_inline_with_elems. congruence.
Qed.

(** ** [clear] *)

Lemma land_tag_STATE_BIT sh n :
  0 <= n < 2 ^ 63 ->
  Z.land ((if is_inline sh then 0 else STATE_BIT) + n) STATE_BIT =
  (if is_inline sh then 0 else STATE_BIT) + 0.
Proof.
  intros Hn. destruct (is_inline sh).
  - rewrite Z.add_0_l. apply land_small_STATE_BIT. exact Hn.
  - rewrite Z.add_0_r. apply land_tagged_STATE_BIT. exact Hn.
Qed.

Lemma clear_spec this sh w :
  reps w this sh ->
  match clear this w with
  | Ok _ w' =>
      exists sh',
        step this w sh w' sh' /\ reps w' this sh' /\ elems sh' = [] /\
        cap_of sh' = cap_of sh /\ is_inline sh' = is_inline sh /\
        (if unique sh
         then sh' = with_elems sh []
         else exists q, sh' = Shared q (cap_of sh) 1 [] /\ heap w !! q = None /\
                copies w' = copies w /\ trace w' = trace w /\
                heap w' = <[q := hdr_of (cap_of sh) 1 []]> (heap (released sh w)))
  | Throw w' => False
  | Undef => False
  end.
Proof.
  intros Hr. pose proof Hr as (Ho & Hok & Hb).
  pose proof (ok_cap _ Hok) as Hcap.
  pose proof (len_nonneg (elems sh)) as Hlen.
  unfold clear. mred. rewrite (is_unique_eq _ _ _ Hr).
  destruct (unique sh) eqn:Hu; mred.
  - unfold destruct_data. mred.
    rewrite (data_unique _ _ _ Hr Hu). mred.
    rewrite (size_eq _ _ _ Ho Hok). mred.
    rewrite (destruct_array_all _ _ _ _ (block_array_reps _ _ _ Hr)) by lia.
    rewrite (upd_block this (len (elems sh)) sh [] _ _ w Ho Hb). mred.
    erewrite get_size_eq by apply objs_put_shape. mred.
    rewrite size_field_obj_n, is_inline_with_elems.
    rewrite land_tag_STATE_BIT by lia.
    rewrite set_size_put_shape_with.
    exists (with_elems sh []). split; [|split; [|split; [|split; [|split]]]].
    + eapply (step_in_place _ _ _ _ _ []); [exact Hu|reflexivity|reflexivity|lia].
    + apply (reps_put_shape_with this sh []); [exact Hok|].
      change (len []) with 0. lia.
    + apply elems_with_elems.
    + apply cap_of_with_elems.
    + apply is_inline_with_elems.
    + reflexivity.
  - destruct sh as [xs|p cap rc xs]; [discriminate|].
    simpl in Hu, Hok, Hb, Hcap, Hlen. apply Z.eqb_neq in Hu.
    rewrite (release_owned_large_data_eq _ _ _ _ _ _ Hr). mred.
    destruct (Z.eqb_spec rc 1) as [|_]; [contradiction|]. rewrite app_nil_r.
    simpl released. destruct (Z.eqb_spec rc 1) as [|_]; [contradiction|]. mred.
    erewrite (capacity_eq this (Shared p cap (rc - 1) xs));
      [|split; [exact Ho|split; [simpl; lia|simpl; apply lookup_insert_eq]]].
    mred. rewrite alloc_large_data_empty by lia. cbv zeta. mred.
    set (q := fresh (dom (<[p:=hdr_of cap (rc - 1) xs]> (heap w)))).
    assert (Hq' : <[p:=hdr_of cap (rc - 1) xs]> (heap w) !! q = None)
      by apply fresh_heap_None.
    assert (Hpq : p <> q).
    { intros E. rewrite <- E, lookup_insert_eq in Hq'. discriminate. }
    erewrite set_large_data_eq by (red_world; exact Ho). mred.
    erewrite set_size_eq by (red_world; apply lookup_insert_eq). mred.
    rewrite insert_insert_eq.
    exists (Shared q cap 1 []).
    assert (Hrel : heap (released (Shared p cap rc xs) w) =
                   <[p := hdr_of cap (rc - 1) xs]> (heap w)).
    { simpl. destruct (Z.eqb_spec rc 1) as [|_]; [contradiction|]. reflexivity. }
    split; [|split; [|split; [|split; [|split]]]].
    + eapply (step_moved _ _ _ _ _ (copies w) (trace w)); [| |lia].
      * split; [|reflexivity]. rewrite Hrel. exact Hq'.
      * unfold put_shape. rewrite Hrel. simpl. rewrite Z.add_0_r. reflexivity.
    + split; [|split].
      * red_world. rewrite lookup_insert_eq. unfold obj_of. simpl.
        rewrite Z.add_0_r. reflexivity.
      * simpl. change (len []) with 0. lia.
      * simpl. apply lookup_insert_eq.
    + reflexivity.
    + reflexivity.
    + reflexivity.
    + exists q. split; [reflexivity|]. split.
      * rewrite lookup_insert_ne in Hq' by exact Hpq. exact Hq'.
      * split; [reflexivity|]. split; [reflexivity|].
        red_world. try rewrite Hrel. reflexivity.
Qed.

(** ** Pairwise exchanges *)

Lemma set_block_array_upd b a w :
  set_block_array b a w = upd b a (copies w) (trace w) w.
Proof.
  unfold upd.
  pose proof (set_block_array_copies b a w) as Hc.
  pose proof (set_block_array_trace b a w) as Ht.
  destruct (set_block_array b a w). simpl in *. subst. reflexivity.
Qed.

Lemma swap_elems_eq b i j a x y w :
  block_array b w = Some a -> 0 <= i -> 0 <= j ->
  a !! Z.to_nat i = Some (Some x) -> a !! Z.to_nat j = Some (Some y) ->
  swap_elems (Ptr b i) (Ptr b j) w =
  Ok tt (upd b (<[Z.to_nat j := Some x]> (<[Z.to_nat i := Some y]> a))
             (copies w) (trace w) w).
Proof.
  intros Hb Hi Hj Hx Hy. unfold swap_elems.
  rewrite (slot_eq _ _ _ _ Hb Hi), Hx, (slot_eq _ _ _ _ Hb Hj), Hy.
  unfold set_slot at 2. simpl blk. simpl off. rewrite Hb.
  rewrite set_block_array_upd.
  unfold set_slot. simpl blk. simpl off.
  rewrite block_array_upd by (rewrite Hb; eauto).
  rewrite set_block_array_upd, upd_upd. reflexivity.
Qed.

Lemma arr_insert cap xs (i : nat) x :
  (i < length xs)%nat ->
  <[i := Some x]> (arr cap xs) = arr cap (<[i := x]> xs).
Proof.
  intros H. unfold arr.
  rewrite insert_app_l by (rewrite length_fmap; lia).
  rewrite list_fmap_insert, length_insert. reflexivity.
Qed.

Lemma exchange_adjacent (A B : list T) y v :
  <[length A := v]> (<[S (length A) := y]> (A ++ y :: v :: B)) = A ++ v :: y :: B.
Proof.
  rewrite insert_app_r_alt by lia.
  replace (S (length A) - length A)%nat with 1%nat by lia. simpl.
  rewrite insert_app_r_alt by lia. rewrite Nat.sub_diag. reflexivity.
Qed.

Lemma exchange_window (A ms B : list T) m t :
  <[length A := t]> (<[(length A + S (length ms))%nat := m]> (A ++ m :: ms ++ t :: B))
  = A ++ t :: ms ++ m :: B.
Proof.
  rewrite insert_app_r_alt by lia.
  replace (length A + S (length ms) - length A)%nat with (S (length ms)) by lia.
  simpl. rewrite insert_app_r_alt by lia. rewrite Nat.sub_diag. simpl.
  rewrite insert_app_r_alt by lia. rewrite Nat.sub_diag. reflexivity.
Qed.

Lemma rotl_length l : length (rotl l) = length l.
Proof. destruct l; simpl; [reflexivity|]. rewrite length_app. simpl. lia. Qed.

Lemma rot_length k l : length (rot k l) = length l.
Proof.
  unfold rot. induction k as [|k IH]; simpl; [reflexivity|].
  rewrite rotl_length. exact IH.
Qed.

Lemma rot_succ k l : rot (S k) l = rot k (rotl l).
Proof. unfold rot. apply Nat.iter_succ_r. Qed.

Lemma rot_nil k : rot k [] = [].
Proof. unfold rot. induction k as [|k IH]; simpl; [reflexivity|]. rewrite IH. reflexivity. Qed.

(** ** The loop of [insert] *)

Lemma insert_loop_arr b cap l1 l2 v l3 fuel w :
  block_array b w = Some (arr cap (l1 ++ l2 ++ [v] ++ l3)) ->
  (length l2 <= fuel)%nat ->
  insert_loop fuel (Ptr b (len l1 + len l2)) (Ptr b (len l1)) w =
  Ok (Ptr b (len l1))
     (upd b (arr cap (l1 ++ [v] ++ l2 ++ l3)) (copies w) (trace w) w).
Proof.
  revert l3 fuel w. induction l2 as [|y l2 IH] using rev_ind; intros l3 fuel w Hb Hf.
  - change (len []) with 0. rewrite Z.add_0_r.
    destruct fuel; simpl; (destruct (decide _) as [_|Hne]; [|contradiction]);
      mred; simpl in Hb; rewrite (upd_keep _ _ _ _ _ Hb); destruct w; reflexivity.
  - rewrite length_app in Hf. simpl in Hf.
    destruct fuel as [|fuel]; [lia|]. simpl.
    destruct (decide _) as [E|_].
    { injection E as E. rewrite len_app in E. change (len [y]) with 1 in E.
      pose proof (len_nonneg l2). lia. }
    mred. unfold ptr_add. mred.
    rewrite len_app. change (len [y]) with 1.
    pose proof (len_nonneg l1) as H1. pose proof (len_nonneg l2) as H2.
    assert (Hi : Z.to_nat (len l1 + (len l2 + 1)) = S (length (l1 ++ l2))).
    { unfold len. rewrite length_app. lia. }
    assert (Hj : Z.to_nat (len l1 + (len l2 + 1) + -1) = length (l1 ++ l2)).
    { unfold len. rewrite length_app. lia. }
    assert (Hzs : l1 ++ (l2 ++ [y]) ++ [v] ++ l3 = (l1 ++ l2) ++ y :: v :: l3).
    { rewrite <- !app_assoc. reflexivity. }
    rewrite Hzs in Hb.
    rewrite (swap_elems_eq b _ _ _ v y w Hb); [|lia|lia| |].
    2:{ rewrite Hi. apply arr_lookup_live.
        rewrite lookup_app_r by lia.
        replace (S (length (l1 ++ l2)) - length (l1 ++ l2))%nat with 1%nat by lia.
        reflexivity. }
    2:{ rewrite Hj. apply arr_lookup_live.
        rewrite lookup_app_r by lia. rewrite Nat.sub_diag. reflexivity. }
    rewrite Hi, Hj.
    rewrite arr_insert by (rewrite !length_app; simpl; lia).
    rewrite arr_insert by (rewrite length_insert, !length_app; simpl; lia).
    rewrite exchange_adjacent.
    replace (len l1 + (len l2 + 1) + -1) with (len l1 + len l2) by lia.
    rewrite (IH (y :: l3) fuel).
    + rewrite upd_upd. f_equal. f_equal. f_equal.
      rewrite <- !app_assoc. reflexivity.
    + rewrite block_array_upd by (rewrite Hb; eauto).
      f_equal. f_equal. rewrite <- !app_assoc. reflexivity.
    + lia.
Qed.

Lemma rotate_from_app (l1 l2 : list T) v l3 :
  rotate_from (length l1 + length l2) (length l2) (l1 ++ l2 ++ v :: l3) =
  l1 ++ v :: l2 ++ l3.
Proof.
  revert l3. induction l2 as [|y l2 IH] using rev_ind; intros l3.
  - reflexivity.
  - rewrite length_app. simpl length.
    replace (length l2 + 1)%nat with (S (length l2)) by lia.
    cbn [rotate_from].
    replace (length l1 + S (length l2) - 1)%nat with (length (l1 ++ l2))
      by (rewrite length_app; lia).
    assert (Hzs : l1 ++ (l2 ++ [y]) ++ v :: l3 = (l1 ++ l2) ++ y :: v :: l3).
    { rewrite <- !app_assoc. reflexivity. }
    rewrite Hzs. unfold exchange.
    rewrite lookup_app_r by lia. rewrite Nat.sub_diag. cbn [lookup list_lookup].
    rewrite lookup_app_r by lia.
    replace (S (length (l1 ++ l2)) - length (l1 ++ l2))%nat with 1%nat by lia.
    cbn [lookup list_lookup]. rewrite exchange_adjacent.
    rewrite length_app, <- app_assoc.
    rewrite (IH (y :: l3)). rewrite <- !app_assoc. reflexivity.
Qed.

Lemma insert_by_rotation_eq (l1 l2 : list T) v :
  insert_by_rotation (length l1) v (l1 ++ l2) = l1 ++ v :: l2.
Proof.
  unfold insert_by_rotation, rotate_into.
  rewrite !length_app. simpl length.
  replace (length l1 + length l2 + 1 - 1)%nat with (length l1 + length l2)%nat by lia.
  replace (length l1 + length l2 - length l1)%nat with (length l2) by lia.
  rewrite <- app_assoc.
  rewrite (rotate_from_app l1 l2 v []). rewrite app_nil_r. reflexivity.
Qed.

(** ** [insert] *)

Lemma end_unique this sh w :
  reps w this sh -> unique sh = true ->
  end_ this w = Ok (Ptr (block_of this sh) (len (elems sh))) w.
Proof.
  intros Hr Hu. pose proof Hr as (Ho & Hok & Hb).
  unfold end_. mred. rewrite (data_unique _ _ _ Hr Hu). mred.
  rewrite (size_eq _ _ _ Ho Hok). reflexivity.
Qed.

Lemma insert_spec this sh l1 l2 v w :
  reps w this sh -> elems sh = l1 ++ l2 ->
  (len (elems sh) = cap_of sh -> 2 * cap_of sh + 1 < 2 ^ 63) ->
  match insert this (Ptr (block_of this sh) (len l1)) v w with
  | Ok res w' =>
      exists sh',
        step this w sh w' sh' /\ reps w' this sh' /\
        elems sh' = l1 ++ v :: l2 /\ unique sh' = true /\
        res = Ptr (block_of this sh') (len l1) /\
        if len (elems sh) =? cap_of sh
        then exists q, sh' = Shared q (2 * cap_of sh + 1) 1 (l1 ++ v :: l2)
        else cap_of sh' = cap_of sh /\ is_inline sh' = is_inline sh
  | Throw w' => kept this w sh w' /\ failed w
  | Undef => False
  end.
Proof.
  intros Hr He Hgrow. pose proof Hr as (Ho & Hok & Hb).
  unfold insert, begin_const, begin. mred.
  rewrite (data_const_eq _ _ _ Ho Hok). mred.
  unfold ptr_diff. mred.
  destruct (decide (block_of this sh = block_of this sh)) as [_|]; [|contradiction].
  mred.
  pose proof (push_back_spec this sh v w Hr Hgrow) as Hp.
  destruct (push_back this v w) as [[] w1|w1|]; [|exact Hp|exact Hp].
  destruct Hp as (sh1 & Hs1 & Hr1 & He1 & Hu1 & Hcase).
  pose proof Hr1 as (Ho1 & Hok1 & Hb1).
  rewrite (data_unique _ _ _ Hr1 Hu1). mred.
  rewrite (end_unique _ _ _ Hr1 Hu1). mred.
  unfold ptr_add. mred.
  pose proof (len_nonneg l1) as H1. pose proof (len_nonneg l2) as H2.
  assert (Hn : len (elems sh1) = len l1 + len l2 + 1).
  { rewrite He1, He, !len_app. reflexivity. }
  rewrite Hn.
  replace (len l1 + len l2 + 1 + -1) with (len l1 + len l2) by lia.
  replace (0 + (len l1 - 0)) with (len l1) by lia.
  pose proof (block_array_reps _ _ _ Hr1) as Hba.
  assert (Hel : elems sh1 = l1 ++ l2 ++ [v] ++ []).
  { rewrite He1, He, <- app_assoc. reflexivity. }
  rewrite Hel in Hba.
  rewrite (insert_loop_arr _ _ _ _ _ _ _ _ Hba) by (unfold len; lia).
  assert (Hres : l1 ++ [v] ++ l2 ++ [] = l1 ++ v :: l2).
  { rewrite app_nil_r. reflexivity. }
  rewrite Hres.
  rewrite (upd_block this (len (elems sh1)) sh1 _ _ _ w1 Ho1 Hb1).
  assert (Hlen' : len (elems sh1) = len (l1 ++ v :: l2)).
  { rewrite Hn, len_app. unfold len. simpl length. lia. }
  rewrite Hlen'.
  exists (with_elems sh1 (l1 ++ v :: l2)).
  split; [|split; [|split; [|split; [|split]]]].
  - eapply step_trans; [exact Hs1|].
    eapply step_in_place; [exact Hu1|reflexivity| |].
    + destruct w1; reflexivity.
    + lia.
  - apply reps_put_shape_with; [exact Hok1|].
    rewrite <- Hlen'. apply ok_cap. exact Hok1.
  - apply elems_with_elems.
  - rewrite unique_with_elems. exact Hu1.
  - rewrite block_of_with_elems. reflexivity.
  - destruct (len (elems sh) =? cap_of sh).
    + destruct Hcase as (q & ->). exists q. reflexivity.
    + rewrite cap_of_with_elems, is_inline_with_elems. exact Hcase.
Qed.

(** ** [erase] *)

Lemma erase_loop_spec this sh pre win tl fuel res w :
  reps w this sh -> unique sh = true ->
  elems sh = pre ++ win ++ tl ->
  (length tl <= fuel)%nat ->
  erase_loop fuel this (Ptr (block_of this sh) (len pre + len win)) (len win) res w =
  Ok (match tl with
      | [] => res
      | _ :: _ => Ptr (block_of this sh) (len pre + len tl - 1)
      end)
     (put_shape this (len (elems sh))
        (with_elems sh (pre ++ tl ++ rot (length tl) win))
        (copies w) (trace w) w).
Proof.
  revert sh pre win fuel res w.
  induction tl as [|t tl IH]; intros sh pre win fuel res w Hr Hu He Hf.
  - pose proof Hr as (Ho & Hok & Hb).
    assert (Hend : end_ this w = Ok (Ptr (block_of this sh) (len pre + len win)) w).
    { rewrite (end_unique _ _ _ Hr Hu), He, app_nil_r, len_app. reflexivity. }
    assert (Hw : put_shape this (len (elems sh)) (with_elems sh (pre ++ [] ++ rot 0 win))
                   (copies w) (trace w) w = w).
    { simpl. rewrite app_nil_r in He. rewrite <- He.
      rewrite <- (upd_block this (len (elems sh)) sh (elems sh) _ _ w Ho Hb).
      apply upd_id. exact (block_array_reps _ _ _ Hr). }
    simpl length. rewrite Hw.
    destruct fuel; simpl; mred; rewrite Hend; mred;
      (destruct (decide _) as [_|Hne]; [reflexivity|contradiction]).
  - pose proof Hr as (Ho & Hok & Hb).
    pose proof (len_nonneg pre) as H1. pose proof (len_nonneg win) as H2.
    pose proof (len_nonneg tl) as H3.
    simpl in Hf. destruct fuel as [|fuel]; [lia|].
    simpl erase_loop. mred.
    rewrite (end_unique _ _ _ Hr Hu), He.
    mred.
    destruct (decide _) as [E|_].
    { injection E as E. rewrite !len_app in E. unfold len in E. simpl in E. lia. }
    mred. unfold ptr_add. mred.
    pose proof (block_array_reps _ _ _ Hr) as Hba. rewrite He in Hba.
    assert (Hi : Z.to_nat (len pre + len win) = (length pre + length win)%nat).
    { unfold len. lia. }
    assert (Hj : Z.to_nat (len pre + len win + - len win) = length pre).
    { unfold len. lia. }
    set (ys := (pre ++ [t]) ++ rotl win ++ tl).
    assert (Hswap : exists m,
      arr (cap_of sh) (pre ++ win ++ t :: tl) !! Z.to_nat (len pre + len win + - len win)
        = Some (Some m) /\
      <[Z.to_nat (len pre + len win + - len win) := Some t]>
        (<[Z.to_nat (len pre + len win) := Some m]>
           (arr (cap_of sh) (pre ++ win ++ t :: tl))) = arr (cap_of sh) ys).
    { rewrite Hi, Hj. destruct win as [|m ms].
      - exists t. split.
        + apply arr_lookup_live. rewrite lookup_app_r by lia.
          rewrite Nat.sub_diag. reflexivity.
        + simpl length. rewrite Nat.add_0_r.
          rewrite list_insert_insert_eq.
          rewrite arr_insert by (rewrite length_app; simpl; lia).
          f_equal. unfold ys. simpl.
          rewrite insert_app_r_alt by lia. rewrite Nat.sub_diag.
          rewrite <- app_assoc. reflexivity.
      - exists m. split.
        + apply arr_lookup_live. rewrite lookup_app_r by lia.
          rewrite Nat.sub_diag. reflexivity.
        + rewrite arr_insert
            by (rewrite ?length_insert, ?length_app; simpl;
                rewrite ?length_app; simpl; lia).
          rewrite arr_insert
            by (rewrite ?length_insert, ?length_app; simpl;
                rewrite ?length_app; simpl; lia).
          f_equal. simpl length.
          change (pre ++ (m :: ms) ++ t :: tl) with (pre ++ m :: ms ++ t :: tl).
          rewrite exchange_window. unfold ys. simpl.
          rewrite <- !app_assoc. reflexivity. }
    destruct Hswap as (m & Hm & Hsw).
    rewrite (swap_elems_eq _ _ _ _ t m w Hba); [|lia|lia| |exact Hm].
    2:{ rewrite Hi. apply arr_lookup_live.
        rewrite lookup_app_r by lia.
        rewrite lookup_app_r by lia.
        replace (length pre + length win - length pre - length win)%nat with 0%nat by lia.
        reflexivity. }
    rewrite Hsw.
    rewrite (upd_block this (len (elems sh)) sh ys _ _ w Ho Hb).
    assert (Hlen : len ys = len (elems sh)).
    { rewrite He. unfold ys, len.
      repeat (rewrite length_app || rewrite rotl_length || simpl length). lia. }
    rewrite <- Hlen.
    set (w1 := put_shape this (len ys) (with_elems sh ys) (copies w) (trace w) w).
    assert (Hr1 : reps w1 this (with_elems sh ys)).
    { apply reps_put_shape_with; [exact Hok|].
      rewrite Hlen. apply ok_cap. exact Hok. }
    replace (len pre + len win + 1) with (len (pre ++ [t]) + len (rotl win))
      by (rewrite len_app; unfold len; rewrite rotl_length; simpl; lia).
    replace (len win) with (len (rotl win))
      by (unfold len; rewrite rotl_length; reflexivity).
    rewrite <- (block_of_with_elems this sh ys).
    rewrite (IH (with_elems sh ys) (pre ++ [t]) (rotl win) fuel _ w1 Hr1).
    + f_equal.
      * rewrite ?block_of_with_elems. destruct tl as [|t' tl'].
        -- f_equal. rewrite ?len_app. unfold len. simpl. lia.
        -- f_equal. rewrite ?len_app. unfold len. simpl. lia.
      * rewrite with_elems_with_elems, elems_with_elems.
        unfold w1. rewrite put_shape_twice by (rewrite !block_of_with_elems; reflexivity).
        rewrite Hlen. f_equal; [rewrite He; reflexivity|].
        f_equal. simpl length. rewrite rot_succ, <- !app_assoc. reflexivity.
    + rewrite unique_with_elems. exact Hu.
    + rewrite elems_with_elems. reflexivity.
    + lia.
Qed.

Lemma erase_spec this sh l1 mid l3 w :
  reps w this sh -> elems sh = l1 ++ mid ++ l3 ->
  match erase this (Ptr (block_of this sh) (len l1))
              (Ptr (block_of this sh) (len l1 + len mid)) w with
  | Ok res w' =>
      exists sh',
        step this w sh w' sh' /\ reps w' this sh' /\
        elems sh' = l1 ++ l3 /\ unique sh' = true /\
        cap_of sh' = cap_of sh /\ is_inline sh' = is_inline sh /\
        res = Ptr (block_of this sh')
                  (match l3 with
                   | [] => len (elems sh)
                   | _ :: _ => len (l1 ++ l3) - 1
                   end) /\
        exists w1, end_ this w = Ok (Ptr (block_of this sh') (len (elems sh))) w1
  | Throw w' => kept this w sh w' /\ failed w
  | Undef => False
  end.
Proof.
  intros Hr He. pose proof Hr as (Ho & Hok & Hb).
  pose proof (len_nonneg l1) as H1. pose proof (len_nonneg mid) as H2.
  pose proof (len_nonneg l3) as H3.
  pose proof (ok_cap _ Hok) as Hcap.
  assert (Hn : len (elems sh) = len l1 + len mid + len l3).
  { rewrite He, !len_app. lia. }
  unfold erase, begin_const, begin. mred.
  rewrite (data_const_eq _ _ _ Ho Hok). mred.
  unfold ptr_diff. mred.
  destruct (decide (block_of this sh = block_of this sh)) as [_|]; [|contradiction].
  mred.
  pose proof (data_spec this sh w Hr) as Hd.
  destruct (data this w) as [d w1|w1|] eqn:Hdata;
    [|exact (data_throw_kept _ _ _ _ Hr Hd)|exact Hd].
  destruct Hd as (sh1 & -> & Hs1 & Hr1 & Hu1 & He1 & Hc1 & Hi1 & _).
  pose proof Hr1 as (Ho1 & Hok1 & Hb1).
  rewrite (end_unique _ _ _ Hr1 Hu1). mred.
  unfold ptr_add. mred.
  rewrite He1, Hn.
  replace (0 + (len l1 - 0) + (len l1 + len mid - len l1)) with (len l1 + len mid) by lia.
  replace (len l1 + len mid - len l1) with (len mid) by lia.
  rewrite He in He1.
  rewrite (erase_loop_spec this sh1 l1 mid l3 _ _ w1 Hr1 Hu1 He1) by (unfold len; lia).
  set (gs := rot (length l3) mid).
  assert (Hgs : len gs = len mid).
  { unfold gs, len. rewrite rot_length. reflexivity. }
  rewrite He1.
  assert (Hn' : len (l1 ++ mid ++ l3) = len (l1 ++ l3 ++ gs)).
  { rewrite !len_app. lia. }
  rewrite Hn'.
  set (sh2 := with_elems sh1 (l1 ++ l3 ++ gs)).
  set (w2 := put_shape this (len (l1 ++ l3 ++ gs)) sh2 (copies w1) (trace w1) w1).
  assert (Hok2 : ok sh2).
  { apply ok_with_elems; [exact Hok1|]. rewrite <- Hn', <- He, Hc1. lia. }
  assert (Hr2 : reps w2 this sh2).
  { apply reps_put_shape_with; [exact Hok1|]. rewrite <- Hn', <- He, Hc1. lia. }
  assert (Hu2 : unique sh2 = true).
  { unfold sh2. rewrite unique_with_elems. exact Hu1. }
  pose proof Hr2 as (Ho2 & _ & Hb2).
  mred. rewrite (data_unique _ _ _ Hr2 Hu2). mred.
  rewrite (size_eq _ _ _ Ho2 Hok2). mred.
  unfold ptr_add. mred.
  unfold sh2 at 2. rewrite elems_with_elems, <- Hn', <- He, Hn.
  rewrite u64_small by lia. rewrite u64_small by lia.
  replace (0 + (len l1 + len mid + len l3 - len mid)) with (len (l1 ++ l3))
    by (rewrite len_app; lia).
  rewrite <- Hgs.
  pose proof (block_array_reps _ _ _ Hr2) as Hba2.
  unfold sh2 in Hba2 at 3. rewrite elems_with_elems, app_assoc in Hba2.
  rewrite (destruct_array_arr _ _ _ _ _ Hba2)
    by (rewrite <- app_assoc, <- Hn', <- He; unfold sh2;
        rewrite cap_of_with_elems, Hc1; lia).
  rewrite (upd_block this (len (elems sh2)) sh2 _ _ _ w2 Ho2 Hb2). mred.
  erewrite get_size_eq by apply objs_put_shape. mred.
  rewrite size_field_obj_n, is_inline_with_elems.
  unfold sh2 at 2. rewrite elems_with_elems, <- Hn', <- He, Hn.
  replace ((if is_inline sh2 then 0 else STATE_BIT) + (len l1 + len mid + len l3) - len gs)
    with ((if is_inline sh2 then 0 else STATE_BIT) + len (l1 ++ l3))
    by (rewrite len_app; lia).
  rewrite u64_small by (apply tag_bound; rewrite len_app; lia).
  rewrite set_size_put_shape_with. mred.
  unfold w2, sh2.
  rewrite with_elems_with_elems.
  rewrite put_shape_twice by (rewrite !block_of_with_elems; reflexivity).
  exists (with_elems sh1 (l1 ++ l3)).
  split; [|split; [|split; [|split; [|split; [|split; [|split]]]]]].
  - eapply step_trans; [exact Hs1|].
    eapply step_in_place;
      [exact Hu1|reflexivity|reflexivity|unfold put_shape; simpl; lia].
  - apply reps_put_shape_with; [exact Hok1|]. rewrite len_app, Hc1. lia.
  - apply elems_with_elems.
  - rewrite unique_with_elems. exact Hu1.
  - rewrite cap_of_with_elems. exact Hc1.
  - rewrite is_inline_with_elems. exact Hi1.
  - rewrite block_of_with_elems. destruct l3 as [|t l3'].
    + f_equal.
    + f_equal. rewrite len_app. lia.
  - exists w1. unfold end_. mred. rewrite Hdata. mred.
    rewrite (size_eq _ _ _ Ho1 Hok1). rewrite block_of_with_elems.
    f_equal. f_equal. rewrite He1, ?len_app. lia.
Qed.

(** ** Back to inline storage: [copy_to_small_data] *)

Lemma u64_bump rc : 0 <= rc < 2 ^ 64 -> u64 (u64 (rc + 1) - 1) = rc.
Proof.
  intros H. unfold u64. rewrite Zminus_mod_idemp_l.
  replace (rc + 1 - 1) with rc by lia. apply Z.mod_small. lia.
Qed.

Lemma size_tagged this n st w :
  objs w !! this = Some (Vec (STATE_BIT + n) st) -> 0 <= n < 2 ^ 63 ->
  size this w = Ok n w.
Proof.
  intros H Hn. unfold size. mred. rewrite (get_size_eq _ _ _ H). mred.
  rewrite land_mask_tagged by lia. reflexivity.
Qed.

Lemma is_small_count this n st w :
  objs w !! this = Some (Vec n st) -> 0 <= n < 2 ^ 63 ->
  is_small this w = Ok true w.
Proof.
  intros H Hn. unfold is_small. mred. rewrite (get_size_eq _ _ _ H). mred.
  rewrite land_small_STATE_BIT by lia. reflexivity.
Qed.

Lemma is_small_tagged this n st w :
  objs w !! this = Some (Vec (STATE_BIT + n) st) -> 0 <= n < 2 ^ 63 ->
  is_small this w = Ok false w.
Proof.
  intros H Hn. unfold is_small. mred. rewrite (get_size_eq _ _ _ H). mred.
  rewrite land_tagged_STATE_BIT by lia. reflexivity.
Qed.

Lemma block_array_objs_insert b this c w :
  b <> small_of this ->
  block_array b (World (<[this := c]> (objs w)) (heap w) (copies w) (trace w)) =
  block_array b w.
Proof.
  intros Hne. destruct b as [|v|p]; simpl; try reflexivity.
  rewrite lookup_insert_ne by congruence. reflexivity.
Qed.

Lemma world_eta w : World (objs w) (heap w) (copies w) (trace w) = w.
Proof. destruct w; reflexivity. Qed.

Lemma bump_release this p cap rc xs w :
  reps w this (Shared p cap rc xs) ->
  (make_new_ref p ≫= fun old_data =>
   release_owned_large_data this ≫= fun _ => mret old_data) w = Ok p w.
Proof.
  intros (Ho & Hok & Hb). simpl in Hok, Hb. mred.
  unfold make_new_ref. mred. rewrite (get_hdr_eq _ _ _ Hb). mred.
  unfold put_hdr at 1. unfold hdr_of. mred.
  unfold release_owned_large_data. mred.
  erewrite get_large_data_eq by (red_world; exact Ho). mred.
  pose proof (len_nonneg xs) as Hx.
  erewrite (size_tagged this (len xs)) by first [lia | red_world; exact Ho]. mred.
  unfold release_large_data. mred.
  erewrite get_hdr_eq by (red_world; apply lookup_insert_eq). mred.
  rewrite u64_bump by lia. unfold put_hdr. mred.
  destruct (Z.eqb_spec rc 0); [lia|].
  rewrite insert_insert_eq. fold (hdr_of cap rc xs).
  rewrite (insert_id _ _ _ Hb), world_eta. reflexivity.
Qed.

Lemma copy_to_small_data_eq this p cap rc xs bs src_a ys w :
  reps w this (Shared p cap rc xs) ->
  bs <> small_of this ->
  block_array bs w = Some src_a ->
  (forall (i : nat) x, ys !! i = Some x -> src_a !! i = Some (Some x)) ->
  len ys <= SMALL_SIZE ->
  copy_to_small_data this (Ptr bs 0) (len ys) w =
  match first_fail (copies w) (length ys) with
  | None =>
      Ok tt (World
        (<[this := Vec (STATE_BIT + len xs) (small_data (arr SMALL_SIZE ys))]> (objs w))
        (heap (released (Shared p cap rc xs) w))
        (copies w + length ys)%nat
        ((trace w ++ (Construct <$> ys)) ++
         if rc =? 1 then Destroy <$> reverse xs else []))
  | Some j =>
      Throw (World (objs w) (heap w) (copies w + j + 1)%nat
                   (trace w ++ (Construct <$> take j ys) ++
                    (Destroy <$> reverse (take j ys))))
  end.
Proof.
  intros Hr Hne Hs Hsrc Hle. pose proof Hr as (Ho & Hok & Hb).
  simpl in Hok, Hb. pose proof (len_nonneg xs) as Hx.
  pose proof (bump_release _ _ _ _ _ _ Hr) as Hbr. revert Hbr.
  unfold copy_to_small_data. mred.
  rewrite (is_small_eq _ _ _ Ho (proj1 (proj2 Hr))). mred.
  unfold assert. mred.
  rewrite (get_large_data_eq _ _ _ _ Ho). mred.
  destruct (make_new_ref p w) as [old w1|w1|]; [|discriminate|discriminate].
  destruct (release_owned_large_data this w1) as [[] w2|w2|];
    [|discriminate|discriminate].
  intros [= -> ->]. unfold try_catch. mred.
  unfold use_small_data. mred. rewrite (get_obj_eq _ _ _ Ho).
  unfold obj_of. cbn [obj_n elems]. mred. unfold put_obj. mred.
  set (w3 := World (<[this := Vec (STATE_BIT + len xs) (small_data (raw SMALL_SIZE))]> (objs w))
                   (heap w) (copies w) (trace w)).
  assert (Hs3 : block_array bs w3 = Some src_a).
  { unfold w3. rewrite block_array_objs_insert by exact Hne. exact Hs. }
  assert (Ho3 : objs w3 !! this =
                Some (Vec (STATE_BIT + len xs) (small_data (arr SMALL_SIZE [])))).
  { unfold w3. red_world. rewrite lookup_insert_eq, arr_nil. reflexivity. }
  assert (Hd3 : block_array (small_of this) w3 = Some (arr SMALL_SIZE [])).
  { unfold block_array. rewrite Ho3. reflexivity. }
  rewrite (safe_init_array_raw bs (small_of this) src_a SMALL_SIZE ys w3 Hne Hs3 Hsrc Hd3 Hle).
  change (copies w3) with (copies w). change (trace w3) with (trace w).
  destruct (first_fail (copies w) (length ys)) as [j|].
  - rewrite (upd_small _ _ _ _ _ _ _ Ho3).
    erewrite set_large_data_eq by (red_world; apply lookup_insert_eq).
    unfold w3. mred. rewrite !insert_insert_eq.
    rewrite (insert_id _ _ _ Ho). reflexivity.
  - rewrite (upd_small _ _ _ _ _ _ _ Ho3). mred.
    erewrite (size_tagged this (len xs))
      by first [lia | red_world; apply lookup_insert_eq].
    mred.
    erewrite (release_large_data_eq p cap rc xs);
      [|unfold w3; red_world; exact Hb|lia|lia].
    unfold w3. red_world. rewrite insert_insert_eq. simpl released.
    destruct (rc =? 1); [reflexivity|]. rewrite app_nil_r. reflexivity.
Qed.

(** ** [resize], [reserve], [shrink_to_fit] *)

Lemma resize_small this p cap rc xs n w :
  reps w this (Shared p cap rc xs) ->
  n <= SMALL_SIZE -> len xs <= SMALL_SIZE ->
  resize this n w =
  match first_fail (copies w) (length xs) with
  | None =>
      Ok tt (put_shape this (len xs) (Inline xs) (copies w + length xs)%nat
               ((trace w ++ (Construct <$> xs)) ++
                if rc =? 1 then Destroy <$> reverse xs else [])
               (released (Shared p cap rc xs) w))
  | Some j =>
      Throw (World (objs w) (heap w) (copies w + j + 1)%nat
                   (trace w ++ (Construct <$> take j xs) ++
                    (Destroy <$> reverse (take j xs))))
  end.
Proof.
  intros Hr Hn Hle. pose proof Hr as (Ho & Hok & Hb).
  pose proof (len_nonneg xs) as Hx. simpl in Hok.
  unfold resize. destruct (Z.leb_spec n SMALL_SIZE); [|lia]. mred.
  rewrite (is_small_eq _ _ _ Ho (proj1 (proj2 Hr))). mred.
  unfold assert. mred.
  rewrite (get_large_data_eq _ _ _ _ Ho). mred.
  rewrite (size_eq _ _ _ Ho (proj1 (proj2 Hr))). mred.
  rewrite (copy_to_small_data_eq this p cap rc xs (data_of p) (arr cap xs) xs w Hr);
    [|discriminate
     |exact (block_array_reps _ _ _ Hr)
     |intros i x Hi; apply arr_lookup_live; exact Hi
     |exact Hle].
  destruct (first_fail (copies w) (length xs)) as [j|]; [reflexivity|].
  unfold switch_size_state. mred.
  erewrite get_size_eq by (red_world; apply lookup_insert_eq). mred.
  erewrite set_size_eq by (red_world; apply lookup_insert_eq). mred.
  rewrite lxor_tagged by lia. rewrite insert_insert_eq.
  unfold put_shape. simpl. reflexivity.
Qed.

Lemma resize_large this sh n w :
  reps w this sh -> SMALL_SIZE < n -> len (elems sh) <= n < 2 ^ 63 ->
  match resize this n w with
  | Ok _ w' =>
      exists q, let sh' := Shared q n 1 (elems sh) in
        step this w sh w' sh' /\ reps w' this sh'
  | Throw w' => kept this w sh w' /\ failed w
  | Undef => False
  end.
Proof.
  intros Hr Hn Hle. unfold resize. destruct (Z.leb_spec n SMALL_SIZE); [lia|]. mred.
  pose proof (data_spec this sh w Hr) as Hd.
  destruct (data this w) as [d w1|w1|];
    [|exact (data_throw_kept _ _ _ _ Hr Hd)|exact Hd].
  destruct Hd as (sh1 & -> & Hs1 & Hr1 & Hu1 & He1 & Hc1 & Hi1 & _).
  pose proof Hr1 as (Ho1 & Hok1 & Hb1). rewrite <- He1 in Hle |- *.
  pose proof (len_nonneg (elems sh1)) as Hx.
  rewrite (size_eq _ _ _ Ho1 Hok1). mred.
  rewrite (alloc_large_data_eq (block_of this sh1) (arr (cap_of sh1) (elems sh1))
             (elems sh1) n w1);
    [|exact (block_array_reps _ _ _ Hr1)
     |intros i x Hx'; apply arr_lookup_live; exact Hx'
     |lia].
  cbv zeta. set (q := fresh (dom (heap w1))).
  assert (Hq : heap w1 !! q = None) by apply fresh_heap_None.
  pose proof (step_copies _ _ _ _ _ Hs1) as Hmono.
  destruct (first_fail (copies w1) (length (elems sh1))) as [j|] eqn:Hf.
  { split.
    - exists sh1. split; [|split; [|split; [|split]]]; try assumption.
      eapply step_trans; [exact Hs1|].
      eapply step_same; [reflexivity|reflexivity|lia].
    - eapply failed_mono; [exact Hmono|]. eapply failed_first_fail; exact Hf. }
  mred.
  erewrite (destructor_eq this sh1);
    [|split; [exact Ho1|split; [exact Hok1|]];
      destruct sh1; simpl; [exact I|];
      rewrite lookup_insert_ne by (eapply fresh_heap_ne'; exact Hb1); exact Hb1].
  mred.
  erewrite set_large_data_eq by (red_world; apply lookup_insert_eq). mred.
  rewrite insert_insert_eq, size_field_obj_n, is_inline_with_elems.
  rewrite heap_released_insert by (eapply buffered_ne; [exact Hb1|exact Hq]).
  set (c' := (copies w1 + length (elems sh1))%nat).
  set (t' := (trace w1 ++ (Construct <$> elems sh1)) ++
             (if unique sh1 then Destroy <$> reverse (elems sh1) else [])).
  assert (Hfinal : forall wx,
    wx = World
      (<[this := Vec (STATE_BIT + len (elems sh1)) (large_data q)]> (objs w1))
      (<[q:=hdr_of n 1 (elems sh1)]>
         (heap (released sh1 (World (objs w1) (heap w1) c' (trace w1 ++ (Construct <$> elems sh1))))))
      c' t' ->
    exists q0, let sh' := Shared q0 n 1 (elems sh1) in
      step this w sh wx sh' /\ reps wx this sh').
  { intros wx ->. exists q. cbv zeta.
    assert (Hw : World
      (<[this := Vec (STATE_BIT + len (elems sh1)) (large_data q)]> (objs w1))
      (<[q:=hdr_of n 1 (elems sh1)]>
         (heap (released sh1 (World (objs w1) (heap w1) c' (trace w1 ++ (Construct <$> elems sh1))))))
      c' t' = put_shape this (len (elems sh1)) (Shared q n 1 (elems sh1)) c' t'
                (released sh1 w1)).
    { unfold put_shape. f_equal.
      - destruct sh1; reflexivity.
      - destruct sh1; reflexivity. }
    rewrite Hw. split.
    - eapply step_trans; [exact Hs1|].
      eapply step_moved; [|reflexivity|unfold c'; lia].
      split; [|reflexivity]. apply heap_released_fresh; assumption.
    - apply (reps_put_shape this (Shared q n 1 (elems sh1))). simpl. lia. }
  destruct (is_inline sh1) eqn:Hin.
  - rewrite Z.add_0_l.
    erewrite (is_small_count this (len (elems sh1)))
      by first [lia | red_world; apply lookup_insert_eq].
    mred. unfold switch_size_state. mred.
    erewrite get_size_eq by (red_world; apply lookup_insert_eq). mred.
    erewrite set_size_eq by (red_world; apply lookup_insert_eq). mred.
    rewrite lxor_small, insert_insert_eq by lia.
    apply Hfinal. reflexivity.
  - erewrite (is_small_tagged this (len (elems sh1)))
      by first [lia | red_world; apply lookup_insert_eq].
    mred. apply Hfinal. reflexivity.
Qed.

Lemma resize_small_spec this p cap rc xs n w :
  reps w this (Shared p cap rc xs) ->
  n <= SMALL_SIZE -> len xs <= SMALL_SIZE ->
  match resize this n w with
  | Ok _ w' =>
      step this w (Shared p cap rc xs) w' (Inline xs) /\ reps w' this (Inline xs)
  | Throw w' => kept this w (Shared p cap rc xs) w' /\ failed w
  | Undef => False
  end.
Proof.
  intros Hr Hn Hle. rewrite (resize_small _ _ _ _ _ _ _ Hr Hn Hle).
  destruct (first_fail (copies w) (length xs)) as [j|] eqn:Hf.
  - split; [apply kept_same; [exact Hr|lia]|].
    eapply failed_first_fail; exact Hf.
  - split.
    + eapply step_moved; [exact I|reflexivity|lia].
    + apply (reps_put_shape this (Inline xs)). exact Hle.
Qed.

Lemma reserve_spec this sh n w :
  reps w this sh -> 0 <= n < 2 ^ 63 ->
  match reserve this n w with
  | Ok _ w' =>
      exists sh',
        step this w sh w' sh' /\ reps w' this sh' /\
        elems sh' = elems sh /\ n <= cap_of sh' /\
        if (negb (unique sh) && (len (elems sh) <? n)) || (cap_of sh <? n)
        then if n <=? SMALL_SIZE then sh' = Inline (elems sh)
             else exists q, sh' = Shared q n 1 (elems sh)
        else w' = w /\ sh' = sh
  | Throw w' => kept this w sh w' /\ failed w
  | Undef => False
  end.
Proof.
  intros Hr Hn. pose proof Hr as (Ho & Hok & Hb).
  pose proof (ok_cap _ Hok) as Hcap.
  unfold reserve. mred.
  rewrite (is_unique_eq _ _ _ Hr). mred.
  rewrite (size_eq _ _ _ Ho Hok). mred.
  rewrite (capacity_eq _ _ _ Hr). mred.
  destruct ((negb (unique sh) && (len (elems sh) <? n)) || (cap_of sh <? n)) eqn:Hcond.
  - destruct (Z.leb_spec n SMALL_SIZE) as [Hsmall|Hlarge].
    + (* back to inline storage *)
      destruct sh as [xs|p cap rc xs].
      { simpl in Hcond. apply Z.ltb_lt in Hcond. lia. }
      simpl in Hcond, Hcap.
      assert (Hle : len xs <= SMALL_SIZE).
      { apply orb_true_iff in Hcond as [Hc|Hc].
        - apply andb_true_iff in Hc as [_ Hc]. apply Z.ltb_lt in Hc. lia.
        - apply Z.ltb_lt in Hc. lia. }
      pose proof (resize_small_spec _ _ _ _ _ _ _ Hr Hsmall Hle) as Hrs.
      destruct (resize this n w) as [[] w'|w'|]; [|exact Hrs|exact Hrs].
      destruct Hrs as [Hs Hr']. exists (Inline xs).
      split; [exact Hs|]. split; [exact Hr'|]. split; [reflexivity|].
      split; [exact Hsmall|reflexivity].
    + assert (Hle : len (elems sh) <= n < 2 ^ 63).
      { split; [|lia]. apply orb_true_iff in Hcond as [Hc|Hc].
        - apply andb_true_iff in Hc as [_ Hc]. apply Z.ltb_lt in Hc. lia.
        - apply Z.ltb_lt in Hc. lia. }
      pose proof (resize_large _ _ _ _ Hr Hlarge Hle) as Hrl.
      destruct (resize this n w) as [[] w'|w'|]; [|exact Hrl|exact Hrl].
      destruct Hrl as (q & Hs & Hr'). exists (Shared q n 1 (elems sh)).
      split; [exact Hs|]. split; [exact Hr'|]. split; [reflexivity|].
      split; [simpl; lia|]. exists q. reflexivity.
  - exists sh. split; [|split; [exact Hr|split; [reflexivity|split]]].
    + destruct (kept_refl this sh w Hr) as (sh' & Hs & _).
      destruct w. eapply step_same; [reflexivity|reflexivity|simpl; lia].
    + apply orb_false_iff in Hcond as [_ Hc]. apply Z.ltb_ge in Hc. exact Hc.
    + split; reflexivity.
Qed.

Lemma shrink_to_fit_spec this sh w :
  reps w this sh ->
  match shrink_to_fit this w with
  | Ok _ w' =>
      exists sh',
        step this w sh w' sh' /\ reps w' this sh' /\
        elems sh' = elems sh /\
        if is_inline sh || (len (elems sh) =? cap_of sh)
        then w' = w /\ sh' = sh
        else if len (elems sh) <=? SMALL_SIZE then sh' = Inline (elems sh)
             else exists q, sh' = Shared q (len (elems sh)) 1 (elems sh)
  | Throw w' => kept this w sh w' /\ failed w
  | Undef => False
  end.
Proof.
  intros Hr. pose proof Hr as (Ho & Hok & Hb).
  pose proof (ok_cap _ Hok) as Hcap.
  assert (Hnoop : exists sh',
    step this w sh w sh' /\ reps w this sh' /\ elems sh' = elems sh /\
    (w = w /\ sh' = sh)).
  { exists sh. split; [|split; [exact Hr|split; [reflexivity|split; reflexivity]]].
    destruct w. eapply step_same; [reflexivity|reflexivity|simpl; lia]. }
  unfold shrink_to_fit. mred.
  rewrite (is_small_eq _ _ _ Ho Hok).
  destruct sh as [xs|p cap rc xs]; mred; [exact Hnoop|].
  rewrite (size_eq _ _ _ Ho Hok). mred.
  rewrite (get_large_data_eq _ _ _ _ Ho). mred.
  simpl in Hb. rewrite (get_hdr_eq _ _ _ Hb). unfold hdr_of. mred.
  simpl in Hcap. simpl orb.
  destruct (Z.eqb_spec (len xs) cap) as [Heq|Hneq]; mred; [exact Hnoop|].
  destruct (Z.leb_spec (len xs) SMALL_SIZE) as [Hsmall|Hlarge].
  - pose proof (resize_small_spec _ _ _ _ _ _ _ Hr Hsmall Hsmall) as Hrs.
    destruct (resize this (len xs) w) as [[] w'|w'|]; [|exact Hrs|exact Hrs].
    destruct Hrs as [Hs Hr']. exists (Inline xs).
    split; [exact Hs|]. split; [exact Hr'|]. split; reflexivity.
  - assert (Hle : len (elems (Shared p cap rc xs)) <= len xs < 2 ^ 63)
      by (simpl; lia).
    pose proof (resize_large _ _ _ _ Hr Hlarge Hle) as Hrl.
    destruct (resize this (len xs) w) as [[] w'|w'|]; [|exact Hrl|exact Hrl].
    destruct Hrl as (q & Hs & Hr'). exists (Shared q (len xs) 1 xs).
    split; [exact Hs|]. split; [exact Hr'|]. split; [reflexivity|].
    exists q. reflexivity.
Qed.

(** ** Two blocks at once *)

Lemma upd_comm b1 b2 a1 a2 c t c' t' w :
  b1 <> b2 ->
  upd b1 a1 c t (upd b2 a2 c' t' w) = upd b2 a2 c t (upd b1 a1 c t w).
Proof.
  intros Hne. unfold upd.
  destruct b1 as [|v1|p1], b2 as [|v2|p2]; try contradiction;
    try reflexivity.
  - simpl. destruct (objs w !! v2); reflexivity.
  - simpl. destruct (heap w !! p2); reflexivity.
  - simpl. destruct (objs w !! v1); reflexivity.
  - assert (v1 <> v2) by congruence. simpl.
    destruct (objs w !! v1) eqn:E1, (objs w !! v2) eqn:E2; simpl;
      rewrite ?lookup_insert_ne by congruence; rewrite ?E1, ?E2; simpl;
      try reflexivity.
    rewrite insert_insert_ne by congruence. reflexivity.
  - simpl.
    destruct (objs w !! v1) eqn:E1, (heap w !! p2) eqn:E2; simpl;
      rewrite ?E1, ?E2; reflexivity.
  - simpl. destruct (heap w !! p1); reflexivity.
  - simpl.
    destruct (heap w !! p1) eqn:E1, (objs w !! v2) eqn:E2; simpl;
      rewrite ?E1, ?E2; reflexivity.
  - assert (p1 <> p2) by congruence. simpl.
    destruct (heap w !! p1) eqn:E1, (heap w !! p2) eqn:E2; simpl;
      rewrite ?lookup_insert_ne by congruence; rewrite ?E1, ?E2; simpl;
      try reflexivity.
    rewrite insert_insert_ne by congruence. reflexivity.
Qed.

Lemma garr_nil_gap cap C ds : garr cap C 0 ds = arr cap (C ++ ds).
Proof.
  unfold garr, arr. simpl. rewrite fmap_app, <- app_assoc, length_app.
  do 3 f_equal. lia.
Qed.

Lemma garr_no_tail cap C gap :
  (length C + gap <= Z.to_nat cap)%nat -> garr cap C gap [] = arr cap C.
Proof.
  intros H. unfold garr, arr. simpl. f_equal.
  rewrite <- replicate_add. f_equal. lia.
Qed.

Lemma garr_length cap C gap ds :
  (length C + gap + length ds <= Z.to_nat cap)%nat ->
  length (garr cap C gap ds) = Z.to_nat cap.
Proof.
  intros H. unfold garr.
  rewrite !length_app, !length_fmap, !length_replicate. lia.
Qed.

Lemma garr_fill cap C gap ds z :
  <[(length C + gap)%nat := Some z]> (garr cap C (S gap) ds) =
  garr cap C gap (z :: ds).
Proof.
  unfold garr.
  rewrite insert_app_r_alt by (rewrite length_fmap; lia).
  rewrite length_fmap.
  replace (length C + gap - length C)%nat with gap by lia.
  f_equal. rewrite replicate_S_end, <- app_assoc.
  assert (Hl : length (replicate gap (@None T)) = gap) by apply length_replicate.
  rewrite (insert_app_r_alt (replicate gap None)) by (rewrite Hl; apply Nat.le_refl).
  rewrite Hl, Nat.sub_diag.
  replace (Z.to_nat cap - length C - gap - length (z :: ds))%nat
    with (Z.to_nat cap - length C - S gap - length ds)%nat by (simpl; lia).
  reflexivity.
Qed.

Lemma swap_elems_two b1 b2 i j a1 a2 x y w :
  b1 <> b2 ->
  block_array b1 w = Some a1 -> block_array b2 w = Some a2 ->
  0 <= i -> 0 <= j ->
  a1 !! Z.to_nat i = Some (Some x) -> a2 !! Z.to_nat j = Some (Some y) ->
  swap_elems (Ptr b1 i) (Ptr b2 j) w =
  Ok tt (upd b2 (<[Z.to_nat j := Some x]> a2) (copies w) (trace w)
          (upd b1 (<[Z.to_nat i := Some y]> a1) (copies w) (trace w) w)).
Proof.
  intros Hne H1 H2 Hi Hj Hx Hy. unfold swap_elems.
  rewrite (slot_eq _ _ _ _ H1 Hi), Hx, (slot_eq _ _ _ _ H2 Hj), Hy.
  unfold set_slot at 2. simpl blk. simpl off. rewrite H1.
  rewrite set_block_array_upd.
  unfold set_slot. simpl blk. simpl off.
  rewrite block_array_upd_ne by exact Hne. rewrite H2.
  rewrite set_block_array_upd. reflexivity.
Qed.

(** ** The loops of the inline/inline [swap] *)

Lemma swap_prefix_spec this other cap A B xs1 ys1 xr yr w :
  this <> other ->
  block_array (small_of this) w = Some (arr cap (A ++ xs1 ++ xr)) ->
  block_array (small_of other) w = Some (arr cap (B ++ ys1 ++ yr)) ->
  length A = length B -> length xs1 = length ys1 ->
  swap_prefix this other (length xs1) (len A) w =
  Ok tt (upd (small_of other) (arr cap (B ++ xs1 ++ yr)) (copies w) (trace w)
          (upd (small_of this) (arr cap (A ++ ys1 ++ xr)) (copies w) (trace w) w)).
Proof.
  intros Hne. revert ys1 A B w.
  induction xs1 as [|x xs1 IH]; intros ys1 A B w H1 H2 HAB Hlen.
  - destruct ys1; [|discriminate]. simpl.
    rewrite (upd_keep _ _ _ _ _ H1).
    erewrite upd_keep by (simpl in *; exact H2).
    destruct w; reflexivity.
  - destruct ys1 as [|y ys1]; [discriminate|]. injection Hlen as Hlen.
    simpl swap_prefix. mred.
    assert (Hb : small_of this <> small_of other) by congruence.
    assert (HiA : Z.to_nat (len A) = length A) by (unfold len; lia).
    rewrite (swap_elems_two _ _ _ _ _ _ x y w Hb H1 H2 (len_nonneg A) (len_nonneg A)).
    2:{ rewrite HiA. apply arr_lookup_live. rewrite lookup_app_r by lia.
        rewrite Nat.sub_diag. reflexivity. }
    2:{ rewrite HiA, HAB. apply arr_lookup_live. rewrite lookup_app_r by lia.
        rewrite Nat.sub_diag. reflexivity. }
    rewrite HiA.
    rewrite arr_insert by (rewrite length_app; simpl; lia).
    rewrite arr_insert by (rewrite length_app; simpl; lia).
    rewrite (insert_app_r_alt A), (insert_app_r_alt B) by lia.
    rewrite <- ?HAB, !Nat.sub_diag. simpl.
    replace (len A + 1) with (len (A ++ [y])) by (rewrite len_app; reflexivity).
    rewrite (IH ys1 (A ++ [y]) (B ++ [x])).
    + rewrite !upd_copies, !upd_trace.
      rewrite (upd_comm (small_of this) (small_of other)) by exact Hb.
      rewrite !upd_upd. rewrite <- !app_assoc. reflexivity.
    + rewrite block_array_upd_ne by congruence.
      rewrite block_array_upd by (rewrite H1; eauto).
      rewrite <- app_assoc. reflexivity.
    + rewrite block_array_upd
        by (rewrite block_array_upd_ne by exact Hb; rewrite H2; eauto).
      rewrite <- app_assoc. reflexivity.
    + rewrite !length_app. simpl. lia.
    + exact Hlen.
Qed.

Lemma move_suffix_spec bd bs cap C C' zs ds w :
  bd <> bs ->
  block_array bs w = Some (arr cap (C ++ zs)) ->
  block_array bd w = Some (garr cap C' (length zs) ds) ->
  length C' = length C ->
  (length C + length zs + length ds <= Z.to_nat cap)%nat ->
  match move_suffix (Ptr bd 0) (Ptr bs 0) (length zs) (len (C ++ zs)) w with
  | Ok _ w' =>
      exists c t, (copies w <= c)%nat /\
        w' = upd bs (arr cap C) c t (upd bd (arr cap (C' ++ zs ++ ds)) c t w)
  | Throw _ => failed w
  | Undef => False
  end.
Proof.
  intros Hne. revert ds w.
  induction zs as [|z zs IH] using rev_ind; intros ds w Hs Hd HC Hcap.
  - simpl. exists (copies w), (trace w). split; [lia|].
    rewrite app_nil_r in Hs. simpl in Hd. rewrite garr_nil_gap in Hd.
    rewrite (upd_keep _ _ _ _ _ Hd).
    erewrite upd_keep by exact Hs. destruct w; reflexivity.
  - rewrite length_app in *. simpl length in *.
    replace (length zs + 1)%nat with (S (length zs)) in * by lia.
    simpl move_suffix. mred. unfold ptr_add. mred. rewrite !Z.add_0_l.
    assert (Hidx : len (C ++ zs ++ [z]) - 1 = len (C ++ zs)).
    { rewrite !len_app. change (len [z]) with 1. lia. }
    rewrite Hidx.
    assert (Hi : Z.to_nat (len (C ++ zs)) = length (C ++ zs))
      by (unfold len; lia).
    rewrite app_assoc in Hs.
    rewrite (load_eq bs _ _ z w Hs (len_nonneg _))
      by (rewrite Hi; apply arr_lookup_end).
    rewrite (copy_construct_eq bd _ _ z w Hd (len_nonneg _))
      by (rewrite Hi, garr_length, length_app by lia; lia).
    destruct (copy_fails (copies w)) eqn:Hcf.
    { exists (copies w). split; [lia|exact Hcf]. }
    rewrite Hi.
    replace (length (C ++ zs)) with (length C' + length zs)%nat
      by (rewrite length_app; lia).
    rewrite garr_fill.
    set (w1 := upd bd (garr cap C' (length zs) (z :: ds)) (S (copies w))
                   (trace w ++ [Construct z]) w).
    assert (Hs1 : block_array bs w1 = Some (arr cap ((C ++ zs) ++ [z]))).
    { unfold w1. rewrite block_array_upd_ne by exact Hne. exact Hs. }
    rewrite (destroy_eq bs _ _ z w1 Hs1 (len_nonneg _))
      by (rewrite Hi; apply arr_lookup_end).
    rewrite Hi, arr_pop
      by (unfold len; rewrite length_app; lia).
    set (w2 := upd bs (arr cap (C ++ zs)) (copies w1) (trace w1 ++ [Destroy z]) w1).
    assert (Hs2 : block_array bs w2 = Some (arr cap (C ++ zs))).
    { unfold w2. apply block_array_upd. rewrite Hs1. eauto. }
    assert (Hd2 : block_array bd w2 = Some (garr cap C' (length zs) (z :: ds))).
    { unfold w2. rewrite block_array_upd_ne by congruence.
      unfold w1. apply block_array_upd. rewrite Hd. eauto. }
    specialize (IH (z :: ds) w2 Hs2 Hd2 HC).
    destruct (move_suffix (Ptr bd 0) (Ptr bs 0) (length zs) (len (C ++ zs)) w2)
      as [[] w3|w3|].
    + destruct IH as (c & t & Hc & ->); [simpl; lia|].
      exists c, t. split; [unfold w2, w1 in Hc; simpl in Hc; lia|].
      unfold w2, w1.
      rewrite (upd_comm bd bs) by exact Hne.
      rewrite !upd_upd.
      rewrite <- !app_assoc. reflexivity.
    + eapply failed_mono; [|apply IH; simpl; lia].
      unfold w2, w1. simpl. lia.
    + apply IH. simpl. lia.
Qed.

(** ** Construction *)

Lemma size_count this n st w :
  objs w !! this = Some (Vec n st) -> 0 <= n < 2 ^ 63 ->
  size this w = Ok n w.
Proof.
  intros H Hn. unfold size. mred. rewrite (get_size_eq _ _ _ H). mred.
  rewrite land_mask_small by lia. reflexivity.
Qed.


Lemma copy_constructor_eq this other sh w :
  reps w other sh -> this <> other ->
  match sh with Shared _ _ rc _ => rc + 1 < 2 ^ 64 | Inline _ => True end ->
  copy_constructor this other w =
  match sh with
  | Inline xs =>
      match first_fail (copies w) (length xs) with
      | None =>
          Ok tt (World (<[this := obj_of (Inline xs)]> (objs w)) (heap w)
                       (copies w + length xs)%nat
                       (trace w ++ (Construct <$> xs)))
      | Some j =>
          Throw (World (delete this (objs w)) (heap w) (copies w + j + 1)%nat
                       (trace w ++ (Construct <$> take j xs) ++
                        (Destroy <$> reverse (take j xs))))
      end
  | Shared p cap rc xs =>
      Ok tt (World (<[this := obj_of (Shared p cap (rc + 1) xs)]> (objs w))
                   (<[p := hdr_of cap (rc + 1) xs]> (heap w))
                   (copies w) (trace w))
  end.
Proof.
  intros Hr Hne Hrc. pose proof Hr as (Ho & Hok & Hb).
  pose proof (ok_len _ Hok) as Hl.
  unfold copy_constructor. mred.
  rewrite (get_size_eq _ _ _ Ho). mred. unfold put_obj at 1. mred.
  unfold try_catch.
  erewrite (is_small_eq other sh);
    [|red_world; rewrite lookup_insert_ne by exact Hne; exact Ho|exact Hok].
  destruct sh as [xs|p cap rc xs]; mred.
  - simpl in Hl, Hok. unfold obj_of. cbn [obj_n elems size_].
    erewrite (size_count this (len xs))
      by first [lia | red_world; apply lookup_insert_eq].
    mred.
    set (w1 := World (<[this := Vec (len xs) (small_data (raw SMALL_SIZE))]> (objs w))
                     (heap w) (copies w) (trace w)).
    assert (Ho1 : objs w1 !! this = Some (Vec (len xs) (small_data (arr SMALL_SIZE [])))).
    { unfold w1. red_world. rewrite lookup_insert_eq, arr_nil. reflexivity. }
    rewrite (safe_init_array_raw (small_of other) (small_of this)
               (arr SMALL_SIZE xs) SMALL_SIZE xs w1);
      [|congruence
       |unfold w1; simpl; rewrite lookup_insert_ne by exact Hne; rewrite Ho; reflexivity
       |intros i x Hi; apply arr_lookup_live; exact Hi
       |unfold block_array; rewrite Ho1; reflexivity
       |exact Hok].
    change (copies w1) with (copies w). change (trace w1) with (trace w).
    destruct (first_fail (copies w) (length xs)) as [j|].
    + rewrite (upd_small _ _ _ _ _ _ _ Ho1). unfold delete_obj. mred.
      unfold w1. red_world. rewrite insert_insert_eq, delete_insert_eq.
      reflexivity.
    + rewrite (upd_small _ _ _ _ _ _ _ Ho1). unfold w1. red_world.
      rewrite insert_insert_eq. reflexivity.
  - simpl in Hl, Hok, Hb.
    erewrite get_large_data_eq
      by (red_world; rewrite lookup_insert_ne by exact Hne; exact Ho).
    mred.
    erewrite (make_new_ref_eq p cap rc xs); [|red_world; exact Hb|lia|lia].
    mred.
    erewrite set_large_data_eq by (red_world; apply lookup_insert_eq).
    mred. rewrite insert_insert_eq. unfold obj_of. cbn [obj_n elems size_].
    reflexivity.
Qed.

(** ** Worlds that differ only in inline elements *)

Lemma same_rep_refl c : same_rep c c.
Proof. split; [reflexivity|]. destruct (store c); [exact I|reflexivity]. Qed.

Lemma same_rep_trans c1 c2 c3 : same_rep c1 c2 -> same_rep c2 c3 -> same_rep c1 c3.
Proof.
  intros [H1 H2] [H3 H4]. split; [congruence|].
  destruct (store c1), (store c2), (store c3); try contradiction;
    try exact I; congruence.
Qed.

Lemma same_layout_refl w c t :
  same_layout w (World (objs w) (heap w) c t).
Proof.
  split; [reflexivity|]. intros v. red_world.
  destruct (objs w !! v); [apply same_rep_refl|exact I].
Qed.

Lemma same_layout_trans w1 w2 w3 :
  same_layout w1 w2 -> same_layout w2 w3 -> same_layout w1 w3.
Proof.
  intros [H1 H2] [H3 H4]. split; [congruence|]. intros v.
  specialize (H2 v). specialize (H4 v).
  destruct (objs w1 !! v), (objs w2 !! v), (objs w3 !! v);
    try contradiction; try exact I.
  eapply same_rep_trans; eassumption.
Qed.

Lemma same_layout_counters w w' c t :
  same_layout w w' -> same_layout w (World (objs w') (heap w') c t).
Proof. intros H. exact H. Qed.

Lemma invariant_same_layout v w w' :
  same_layout w w' -> invariant v w -> invariant v w'.
Proof.
  intros [Hh Ho] (c & Hc & Hi). specialize (Ho v). rewrite Hc in Ho.
  destruct (objs w' !! v) as [c'|] eqn:Hc'; [|contradiction].
  destruct Ho as [Hs Hst]. exists c'. split; [exact Hc'|].
  destruct (store c), (store c'); try contradiction.
  - rewrite Hs. exact Hi.
  - subst. rewrite Hs, Hh. exact Hi.
Qed.

Lemma same_layout_set_slot v z s w :
  same_layout w (set_slot (Ptr (small_of v) z) s w).
Proof.
  unfold set_slot. cbn [blk off block_array].
  destruct (objs w !! v) as [[sz [a|p]]|] eqn:Hv;
    try (destruct w; apply same_layout_refl).
  unfold set_block_array. rewrite Hv. split; [reflexivity|].
  intros u. red_world. destruct (decide (u = v)) as [->|Hu].
  - rewrite lookup_insert_eq, Hv. split; [reflexivity|exact I].
  - rewrite lookup_insert_ne by congruence.
    destruct (objs w !! u); [apply same_rep_refl|exact I].
Qed.

Lemma same_layout_copy_construct v z x w :
  match copy_construct (Ptr (small_of v) z) x w with
  | Ok _ w' | Throw w' => same_layout w w'
  | Undef => True
  end.
Proof.
  unfold copy_construct. destruct (slot _ w); [|exact I].
  destruct (copy_fails (copies w)).
  - apply same_layout_refl.
  - apply same_layout_counters, same_layout_set_slot.
Qed.

Lemma same_layout_destroy v z w :
  match destroy (Ptr (small_of v) z) w with
  | Ok _ w' | Throw w' => same_layout w w'
  | Undef => True
  end.
Proof.
  unfold destroy. destruct (slot _ w) as [[x|]|]; try exact I.
  apply same_layout_counters, same_layout_set_slot.
Qed.

Lemma same_layout_swap_elems u v y z w :
  match swap_elems (Ptr (small_of u) y) (Ptr (small_of v) z) w with
  | Ok _ w' | Throw w' => same_layout w w'
  | Undef => True
  end.
Proof.
  unfold swap_elems. destruct (slot _ w) as [[a|]|]; try exact I.
  destruct (slot _ w) as [[b|]|]; try exact I.
  eapply same_layout_trans; apply same_layout_set_slot.
Qed.

Lemma same_layout_load p w :
  match load p w with
  | Ok _ w' | Throw w' => w' = w
  | Undef => True
  end.
Proof. unfold load. destruct (slot p w) as [[x|]|]; try exact I. reflexivity. Qed.

Lemma same_layout_swap_prefix this other n : forall i w,
  match swap_prefix this other n i w with
  | Ok _ w' | Throw w' => same_layout w w'
  | Undef => True
  end.
Proof.
  induction n as [|n IH]; intros i w; simpl swap_prefix.
  - destruct w. apply same_layout_refl.
  - mred. pose proof (same_layout_swap_elems this other i i w) as H.
    destruct (swap_elems _ _ w) as [[] w1|w1|]; [|exact H|exact I].
    specialize (IH (i + 1) w1).
    destruct (swap_prefix this other n (i + 1) w1) as [[] w2|w2|];
      [| |exact I]; eapply same_layout_trans; eassumption.
Qed.

Lemma same_layout_move_suffix d s n : forall i w,
  match move_suffix (Ptr (small_of d) 0) (Ptr (small_of s) 0) n i w with
  | Ok _ w' | Throw w' => same_layout w w'
  | Undef => True
  end.
Proof.
  induction n as [|n IH]; intros i w; simpl move_suffix.
  - destruct w. apply same_layout_refl.
  - mred. unfold ptr_add. cbn [blk off].
    pose proof (same_layout_load (Ptr (small_of s) (0 + (i - 1))) w) as Hl.
    destruct (load _ w) as [x w0|w0|]; [subst w0| |exact I].
    2:{ subst w0. destruct w. apply same_layout_refl. }
    pose proof (same_layout_copy_construct d (0 + (i - 1)) x w) as H1.
    destruct (copy_construct _ x w) as [[] w1|w1|]; [|exact H1|exact I].
    pose proof (same_layout_destroy s (0 + (i - 1)) w1) as H2.
    destruct (destroy _ w1) as [[] w2|w2|]; [| |exact I].
    2:{ eapply same_layout_trans; eassumption. }
    specialize (IH (i - 1) w2).
    destruct (move_suffix _ _ n (i - 1) w2) as [[] w3|w3|]; [| |exact I];
      (eapply same_layout_trans; [|exact IH]);
      eapply same_layout_trans; eassumption.
Qed.

Lemma swap_size_no_throw this other w :
  match swap_size_ this other w with
  | Throw _ => False
  | _ => True
  end.
Proof.
  unfold swap_size_, get_size_, set_size_, get_obj, put_obj. mred.
  destruct (objs w !! this); [|exact I]. mred.
  destruct (objs w !! other); [|exact I]. mred.
  destruct (objs w !! this); [|exact I]. mred. red_world.
  destruct (_ !! other); exact I.
Qed.

Lemma swap_fuel_inline_inline_throw n this other xs ys w :
  reps w this (Inline xs) -> reps w other (Inline ys) -> this <> other ->
  match swap_fuel (S n) this other w with
  | Throw w' => same_layout w w'
  | _ => True
  end.
Proof.
  intros Hr1 Hr2 Hne. pose proof Hr1 as (Ho1 & Hok1 & _).
  pose proof Hr2 as (Ho2 & Hok2 & _).
  simpl swap_fuel. destruct (decide (this = other)) as [|_]; [contradiction|].
  mred. rewrite (is_small_eq _ _ _ Ho1 Hok1). mred.
  rewrite (is_small_eq _ _ _ Ho2 Hok2). mred.
  rewrite (size_eq _ _ _ Ho1 Hok1). mred.
  rewrite (size_eq _ _ _ Ho2 Hok2). mred.
  cbn [elems].
  pose proof (same_layout_swap_prefix this other
                (Z.to_nat (Z.min (len xs) (len ys))) 0 w) as H1.
  destruct (swap_prefix this other _ 0 w) as [[] w1|w1|]; [|exact H1|exact I].
  assert (Hmove : forall d s k i,
    match (move_suffix (Ptr (small_of d) 0) (Ptr (small_of s) 0) k i ≫=
           fun _ => swap_size_ this other) w1 with
    | Throw w' => same_layout w w'
    | _ => True
    end).
  { intros d s k i. mred.
    pose proof (same_layout_move_suffix d s k i w1) as H2.
    destruct (move_suffix _ _ k i w1) as [[] w2|w2|]; [| |exact I].
    - pose proof (swap_size_no_throw this other w2) as H3.
      destruct (swap_size_ this other w2); [exact I|contradiction|exact I].
    - eapply same_layout_trans; eassumption. }
  destruct (len ys <? len xs); apply Hmove.
Qed.

(** ** [swap] *)

Ltac solve_map :=
  apply map_eq; intros ?;
  repeat (rewrite lookup_insert || rewrite lookup_delete);
  repeat case_decide; subst; try congruence; try reflexivity.

Lemma swap_same this w : swap this this w = Ok tt w.
Proof.
  unfold swap. simpl.
  destruct (decide (this = this)) as [_|]; [reflexivity|contradiction].
Qed.

Lemma swap_size_eq this other c1 c2 w :
  this <> other ->
  objs w !! this = Some c1 -> objs w !! other = Some c2 ->
  swap_size_ this other w =
  Ok tt (World (<[other := Vec (size_ c1) (store c2)]>
                  (<[this := Vec (size_ c2) (store c1)]> (objs w)))
               (heap w) (copies w) (trace w)).
Proof.
  intros Hne H1 H2. unfold swap_size_. mred.
  rewrite (get_size_eq _ _ _ H1). mred.
  rewrite (get_size_eq _ _ _ H2). mred.
  rewrite (set_size_eq _ _ _ _ H1). mred.
  erewrite set_size_eq
    by (red_world; rewrite lookup_insert_ne by exact Hne; exact H2).
  reflexivity.
Qed.

Lemma swap_fuel_shared_shared n this other p1 cap1 rc1 xs p2 cap2 rc2 ys w :
  reps w this (Shared p1 cap1 rc1 xs) -> reps w other (Shared p2 cap2 rc2 ys) ->
  this <> other ->
  swap_fuel (S n) this other w =
  Ok tt (World (<[other := obj_of (Shared p1 cap1 rc1 xs)]>
                  (<[this := obj_of (Shared p2 cap2 rc2 ys)]> (objs w)))
               (heap w) (copies w) (trace w)).
Proof.
  intros Hr1 Hr2 Hne. pose proof Hr1 as (Ho1 & Hok1 & Hb1).
  pose proof Hr2 as (Ho2 & Hok2 & Hb2).
  simpl swap_fuel. destruct (decide (this = other)) as [|_]; [contradiction|].
  mred. rewrite (is_small_eq _ _ _ Ho1 Hok1). mred.
  rewrite (is_small_eq _ _ _ Ho2 Hok2). mred.
  rewrite (get_large_data_eq _ _ _ _ Ho1). mred.
  rewrite (get_large_data_eq _ _ _ _ Ho2). mred.
  rewrite (set_large_data_eq _ _ _ _ Ho1). mred.
  erewrite set_large_data_eq
    by (red_world; rewrite lookup_insert_ne by exact Hne; exact Ho2).
  mred.
  erewrite (swap_size_eq this other) by
    first [exact Hne
          | red_world; rewrite lookup_insert_ne by congruence; apply lookup_insert_eq
          | red_world; apply lookup_insert_eq].
  red_world. f_equal. f_equal. unfold obj_of. cbn [obj_n elems size_ store].
  solve_map.
Qed.

Lemma inline_pair_world this other xs ys n1 n2 c t w :
  this <> other ->
  objs w !! this = Some (obj_of (Inline xs)) ->
  objs w !! other = Some (obj_of (Inline ys)) ->
  upd (small_of other) (arr SMALL_SIZE n2) c t
      (upd (small_of this) (arr SMALL_SIZE n1) c t w) =
  World (<[other := Vec (len ys) (small_data (arr SMALL_SIZE n2))]>
           (<[this := Vec (len xs) (small_data (arr SMALL_SIZE n1))]> (objs w)))
        (heap w) c t.
Proof.
  intros Hne H1 H2.
  rewrite (upd_small this _ _ _ _ _ w H1).
  erewrite upd_small
    by (red_world; rewrite lookup_insert_ne by exact Hne; exact H2).
  reflexivity.
Qed.

Lemma swap_fuel_inline_inline n this other xs ys w :
  reps w this (Inline xs) -> reps w other (Inline ys) -> this <> other ->
  match swap_fuel (S n) this other w with
  | Ok _ w' =>
      exists c t, (copies w <= c)%nat /\
        w' = World (<[other := obj_of (Inline xs)]>
                      (<[this := obj_of (Inline ys)]> (objs w)))
                   (heap w) c t
  | Throw _ => failed w
  | Undef => False
  end.
Proof.
  intros Hr1 Hr2 Hne. pose proof Hr1 as (Ho1 & Hok1 & _).
  pose proof Hr2 as (Ho2 & Hok2 & _). simpl in Hok1, Hok2.
  pose proof (len_nonneg xs) as Hx. pose proof (len_nonneg ys) as Hy.
  assert (Hb : small_of this <> small_of other) by congruence.
  simpl swap_fuel. destruct (decide (this = other)) as [|_]; [contradiction|].
  mred. rewrite (is_small_eq _ _ _ Ho1 Hok1). mred.
  rewrite (is_small_eq _ _ _ Ho2 Hok2). mred.
  rewrite (size_eq _ _ _ Ho1 Hok1). mred.
  rewrite (size_eq _ _ _ Ho2 Hok2). mred.
  pose proof (block_array_reps _ _ _ Hr1) as Ha1.
  pose proof (block_array_reps _ _ _ Hr2) as Ha2.
  cbn [block_of cap_of elems] in Ha1, Ha2.
  assert (Hfin : forall c t wx,
    (copies w <= c)%nat ->
    wx = upd (small_of other) (arr SMALL_SIZE xs) c t
           (upd (small_of this) (arr SMALL_SIZE ys) c t w) ->
    match swap_size_ this other wx with
    | Ok _ w' =>
        exists c t, (copies w <= c)%nat /\
          w' = World (<[other := obj_of (Inline xs)]>
                        (<[this := obj_of (Inline ys)]> (objs w)))
                     (heap w) c t
    | Throw _ => failed w
    | Undef => False
    end).
  { intros c t wx Hc ->.
    rewrite (inline_pair_world this other xs ys ys xs c t w Hne Ho1 Ho2).
    erewrite (swap_size_eq this other) by
      first [exact Hne
            | red_world; rewrite lookup_insert_ne by congruence; apply lookup_insert_eq
            | red_world; apply lookup_insert_eq].
    red_world. exists c, t. split; [exact Hc|].
    f_equal. unfold obj_of. cbn [obj_n elems size_ store]. solve_map. }
  destruct (Z.ltb_spec (len ys) (len xs)) as [Hlt|Hge].
  - (* this is the longer one *)
    rewrite Z.min_r, Z.max_l by lia.
    set (xs1 := take (length ys) xs). set (xr := drop (length ys) xs).
    assert (Hxs : xs = xs1 ++ xr) by (symmetry; apply take_drop).
    assert (Hl1 : length xs1 = length ys).
    { unfold xs1. rewrite length_take. unfold len in Hlt. lia. }
    assert (Hlr : Z.to_nat (len xs - len ys) = length xr).
    { unfold xr. rewrite length_drop. unfold len. lia. }
    replace (Z.to_nat (len ys)) with (length xs1) by (unfold len; lia).
    change 0 with (len []).
    rewrite (swap_prefix_spec this other SMALL_SIZE [] [] xs1 ys xr [] w Hne);
      [|cbn [app]; rewrite <- Hxs; exact Ha1
       |cbn [app]; rewrite app_nil_r; exact Ha2
       |reflexivity|exact Hl1].
    cbn [app]. rewrite app_nil_r. mred.
    set (w1 := upd (small_of other) (arr SMALL_SIZE xs1) (copies w) (trace w)
                 (upd (small_of this) (arr SMALL_SIZE (ys ++ xr)) (copies w) (trace w) w)).
    rewrite Hlr.
    replace (len xs) with (len (ys ++ xr))
      by (rewrite Hxs, !len_app; unfold len; lia).
    pose proof (move_suffix_spec (small_of other) (small_of this) SMALL_SIZE
                  ys xs1 xr [] w1) as Hm.
    destruct (move_suffix _ _ _ _ w1) as [[] w2|w2|].
    + destruct Hm as (c & t & Hc & ->).
      * congruence.
      * unfold w1. rewrite block_array_upd_ne by congruence.
        apply block_array_upd. rewrite Ha1. eauto.
      * unfold w1. rewrite block_array_upd
          by (rewrite block_array_upd_ne by exact Hb; rewrite Ha2; eauto).
        rewrite garr_no_tail; [reflexivity|].
        rewrite Hxs, len_app in Hok1. unfold len in Hok1. lia.
      * exact Hl1.
      * rewrite Hxs, len_app in Hok1. unfold len in Hok1. simpl. lia.
      * apply (Hfin c t); [unfold w1 in Hc; simpl in Hc; lia|].
        unfold w1. rewrite app_nil_r, <- Hxs.
        rewrite !upd_upd.
        rewrite (upd_comm (small_of this) (small_of other)) by exact Hb.
        rewrite !upd_upd. reflexivity.
    + eapply failed_mono; [|apply Hm].
      * unfold w1. simpl. lia.
      * congruence.
      * unfold w1. rewrite block_array_upd_ne by congruence.
        apply block_array_upd. rewrite Ha1. eauto.
      * unfold w1. rewrite block_array_upd
          by (rewrite block_array_upd_ne by exact Hb; rewrite Ha2; eauto).
        rewrite garr_no_tail; [reflexivity|].
        rewrite Hxs, len_app in Hok1. unfold len in Hok1. lia.
      * exact Hl1.
      * rewrite Hxs, len_app in Hok1. unfold len in Hok1. simpl. lia.
    + apply Hm.
      * congruence.
      * unfold w1. rewrite block_array_upd_ne by congruence.
        apply block_array_upd. rewrite Ha1. eauto.
      * unfold w1. rewrite block_array_upd
          by (rewrite block_array_upd_ne by exact Hb; rewrite Ha2; eauto).
        rewrite garr_no_tail; [reflexivity|].
        rewrite Hxs, len_app in Hok1. unfold len in Hok1. lia.
      * exact Hl1.
      * rewrite Hxs, len_app in Hok1. unfold len in Hok1. simpl. lia.
  - (* other is at least as long *)
    rewrite Z.min_l, Z.max_r by lia.
    set (ys1 := take (length xs) ys). set (yr := drop (length xs) ys).
    assert (Hys : ys = ys1 ++ yr) by (symmetry; apply take_drop).
    assert (Hl1 : length xs = length ys1).
    { unfold ys1. rewrite length_take. unfold len in Hge. lia. }
    assert (Hlr : Z.to_nat (len ys - len xs) = length yr).
    { unfold yr. rewrite length_drop. unfold len. lia. }
    replace (Z.to_nat (len xs)) with (length xs) by (unfold len; lia).
    change 0 with (len []).
    rewrite (swap_prefix_spec this other SMALL_SIZE [] [] xs ys1 [] yr w Hne);
      [|cbn [app]; rewrite app_nil_r; exact Ha1
       |cbn [app]; rewrite <- Hys; exact Ha2
       |reflexivity|exact Hl1].
    cbn [app]. rewrite app_nil_r. mred.
    set (w1 := upd (small_of other) (arr SMALL_SIZE (xs ++ yr)) (copies w) (trace w)
                 (upd (small_of this) (arr SMALL_SIZE ys1) (copies w) (trace w) w)).
    rewrite Hlr.
    replace (len ys) with (len (xs ++ yr))
      by (rewrite Hys, !len_app; unfold len; lia).
    pose proof (move_suffix_spec (small_of this) (small_of other) SMALL_SIZE
                  xs ys1 yr [] w1) as Hm.
    assert (Hpre :
      small_of this <> small_of other /\
      block_array (small_of other) w1 = Some (arr SMALL_SIZE (xs ++ yr)) /\
      block_array (small_of this) w1 = Some (garr SMALL_SIZE ys1 (length yr) []) /\
      length ys1 = length xs /\
      (length xs + length yr + length (@nil T) <= Z.to_nat SMALL_SIZE)%nat).
    { split; [exact Hb|]. split; [|split; [|split]].
      - unfold w1. apply block_array_upd.
        rewrite block_array_upd_ne by exact Hb. rewrite Ha2. eauto.
      - unfold w1. rewrite block_array_upd_ne by congruence.
        rewrite block_array_upd by (rewrite Ha1; eauto).
        rewrite garr_no_tail; [reflexivity|].
        rewrite Hys, len_app in Hok2. unfold len in Hok2. lia.
      - lia.
      - rewrite Hys, len_app in Hok2. unfold len in Hok2. simpl. lia. }
    destruct Hpre as (P1 & P2 & P3 & P4 & P5).
    specialize (Hm P1 P2 P3 P4 P5).
    destruct (move_suffix _ _ _ _ w1) as [[] w2|w2|].
    + destruct Hm as (c & t & Hc & ->).
      apply (Hfin c t); [unfold w1 in Hc; simpl in Hc; lia|].
      unfold w1. rewrite app_nil_r, <- Hys.
      rewrite (upd_comm (small_of this) (small_of other)) by exact Hb.
      rewrite !upd_upd. reflexivity.
    + eapply failed_mono; [|exact Hm]. unfold w1. simpl. lia.
    + exact Hm.
Qed.

Lemma fresh_objs_None (o : gmap nat socow_vector) : o !! fresh (dom o) = None.
Proof. apply not_elem_of_dom, is_fresh. Qed.

Lemma swap_fuel_inline_shared_exact n this other xs p cap rc ys w :
  reps w this (Inline xs) -> reps w other (Shared p cap rc ys) ->
  this <> other -> rc + 1 < 2 ^ 64 ->
  match first_fail (copies w) (length xs), swap_fuel (S n) this other w with
  | None, Ok _ w' =>
      exists c t, (copies w <= c)%nat /\
        w' = World (<[other := obj_of (Inline xs)]>
                      (<[this := obj_of (Shared p cap rc ys)]> (objs w)))
                   (heap w) c t
  | Some _, Throw w' => exists c t, w' = World (objs w) (heap w) c t
  | _, _ => False
  end.
Proof.
  intros Hr1 Hr2 Hne Hrc. pose proof Hr1 as (Ho1 & Hok1 & _).
  pose proof Hr2 as (Ho2 & Hok2 & Hb2). simpl in Hok1, Hok2, Hb2.
  pose proof (len_nonneg xs) as Hx. pose proof (len_nonneg ys) as Hy.
  simpl swap_fuel. destruct (decide (this = other)) as [|_]; [contradiction|].
  mred. rewrite (is_small_eq _ _ _ Ho1 (proj1 (proj2 Hr1))). mred.
  rewrite (is_small_eq _ _ _ Ho2 (proj1 (proj2 Hr2))). mred.
  unfold with_local_copy. cbv zeta.
  set (copy := fresh (dom (objs w))).
  assert (Hcopy : objs w !! copy = None) by apply fresh_objs_None.
  assert (Hc1 : copy <> this) by (intros E; rewrite E in Hcopy; congruence).
  assert (Hc2 : copy <> other) by (intros E; rewrite E in Hcopy; congruence).
  mred.
  rewrite (copy_constructor_eq copy other _ w Hr2 Hc2 Hrc). mred.
  set (sh2 := Shared p cap (rc + 1) ys).
  set (w1 := World (<[copy := obj_of sh2]> (objs w))
                   (<[p := hdr_of cap (rc + 1) ys]> (heap w)) (copies w) (trace w)).
  assert (Hr11 : reps w1 this (Inline xs)).
  { split; [|split; [exact Hok1|exact I]].
    unfold w1. red_world. rewrite lookup_insert_ne by exact Hc1. exact Ho1. }
  assert (Hr12 : reps w1 other sh2).
  { split; [|split; [simpl; lia|simpl; apply lookup_insert_eq]].
    unfold w1. red_world. rewrite lookup_insert_ne by exact Hc2. exact Ho2. }
  assert (Hr1c : reps w1 copy sh2).
  { split; [|split; [simpl; lia|simpl; apply lookup_insert_eq]].
    unfold w1. red_world. apply lookup_insert_eq. }
  unfold try_catch.
  rewrite (size_eq _ _ _ (proj1 Hr11) (proj1 (proj2 Hr11))). mred.
  rewrite (copy_to_small_data_eq other p cap (rc + 1) ys (small_of this)
             (arr SMALL_SIZE xs) xs w1 Hr12);
    [|congruence
     |exact (block_array_reps _ _ _ Hr11)
     |intros i x Hi; apply arr_lookup_live; exact Hi
     |exact Hok1].
  change (copies w1) with (copies w).
  destruct (first_fail (copies w) (length xs)) as [j|] eqn:Hf.
  { erewrite (destructor_eq copy sh2)
      by (split; [exact (proj1 Hr1c)|split; [simpl; lia|exact (proj2 (proj2 Hr1c))]]).
    mred. unfold delete_obj. red_world.
    simpl released. destruct (Z.eqb_spec (rc + 1) 1) as [|_]; [lia|].
    replace (rc + 1 - 1) with rc by lia. red_world.
    do 2 eexists. f_equal.
    - unfold w1. red_world. rewrite insert_insert_eq, delete_insert_eq.
      apply delete_id. exact Hcopy.
    - unfold w1. red_world. rewrite insert_insert_eq. apply insert_id. exact Hb2. }
  simpl released. destruct (Z.eqb_spec (rc + 1) 1) as [|_]; [lia|].
  replace (rc + 1 - 1) with rc by lia. rewrite app_nil_r. mred.
  unfold w1. red_world. rewrite insert_insert_eq.
  rewrite (insert_id _ _ _ Hb2).
  set (c2 := (copies w + length xs)%nat).
  set (t2 := trace w ++ (Construct <$> xs)).
  set (o2 := <[other := Vec (STATE_BIT + len ys) (small_data (arr SMALL_SIZE xs))]>
               (<[copy := obj_of sh2]> (objs w))).
  assert (Hr21 : reps (World o2 (heap w) c2 t2) this (Inline xs)).
  { split; [|split; [exact Hok1|exact I]].
    unfold o2. red_world. rewrite !lookup_insert_ne by congruence. exact Ho1. }
  unfold destruct_data. mred.
  rewrite (data_unique _ _ _ Hr21 eq_refl). mred.
  rewrite (size_eq _ _ _ (proj1 Hr21) (proj1 (proj2 Hr21))). mred.
  rewrite (destruct_array_all (small_of this) SMALL_SIZE xs _
             (block_array_reps _ _ _ Hr21) Hok1).
  erewrite upd_small by (exact (proj1 Hr21)). mred.
  erewrite (get_large_data_eq copy)
    by (red_world; unfold o2; rewrite !lookup_insert_ne by congruence;
        apply lookup_insert_eq).
  mred.
  erewrite (make_new_ref_eq p cap rc ys); [|red_world; exact Hb2|lia|lia].
  mred.
  erewrite set_large_data_eq by (red_world; apply lookup_insert_eq). mred.
  rewrite insert_insert_eq.
  set (o3 := <[this := Vec (len xs) (large_data p)]> o2).
  set (t3 := t2 ++ (Destroy <$> reverse xs)).
  erewrite (destructor_eq copy sh2);
    [|split; [|split; [simpl; lia|simpl; apply lookup_insert_eq]];
      red_world; unfold o3, o2; rewrite !lookup_insert_ne by congruence;
      apply lookup_insert_eq].
  mred. unfold delete_obj. mred.
  simpl released. destruct (Z.eqb_spec (rc + 1) 1) as [|_]; [lia|].
  replace (rc + 1 - 1) with rc by lia. red_world.
  rewrite insert_insert_eq, (insert_id _ _ _ Hb2).
  erewrite (swap_size_eq this other (Vec (len xs) (large_data p))
              (Vec (STATE_BIT + len ys) (small_data (arr SMALL_SIZE xs))));
    [|exact Hne
     |red_world; unfold o3; rewrite lookup_delete_ne, lookup_insert_ne by congruence;
      apply lookup_insert_eq
     |red_world; unfold o3, o2; rewrite lookup_delete_ne, !lookup_insert_ne by congruence;
      apply lookup_insert_eq].
  red_world. exists c2. eexists. split; [unfold c2; lia|].
  f_equal. unfold o3, o2, obj_of, sh2. cbn [obj_n elems size_ store].
  solve_map.
Qed.

Lemma swap_fuel_inline_shared n this other xs p cap rc ys w :
  reps w this (Inline xs) -> reps w other (Shared p cap rc ys) ->
  this <> other -> rc + 1 < 2 ^ 64 ->
  match swap_fuel (S n) this other w with
  | Ok _ w' =>
      exists c t, (copies w <= c)%nat /\
        w' = World (<[other := obj_of (Inline xs)]>
                      (<[this := obj_of (Shared p cap rc ys)]> (objs w)))
                   (heap w) c t
  | Throw w' => failed w /\ exists c t, w' = World (objs w) (heap w) c t
  | Undef => False
  end.
Proof.
  intros Hr1 Hr2 Hne Hrc.
  pose proof (swap_fuel_inline_shared_exact n this other xs p cap rc ys w
                Hr1 Hr2 Hne Hrc) as H.
  destruct (first_fail (copies w) (length xs)) as [j|] eqn:Hf;
    destruct (swap_fuel (S n) this other w) as [[] w'|w'|];
    try contradiction; [|exact H].
  split; [eapply failed_first_fail; exact Hf|exact H].
Qed.

Lemma swap_spec this other sht sho w :
  reps w this sht -> reps w other sho -> this <> other ->
  not_saturated sht -> not_saturated sho ->
  match swap this other w with
  | Ok _ w' =>
      exists c t, (copies w <= c)%nat /\
        w' = World (<[other := obj_of sht]> (<[this := obj_of sho]> (objs w)))
                   (heap w) c t
  | Throw w' =>
      failed w /\ (is_inline sht || is_inline sho) = true /\
      same_layout w w' /\
      (is_inline sht && is_inline sho = false ->
       exists c t, w' = World (objs w) (heap w) c t)
  | Undef => False
  end.
Proof.
  intros Hr1 Hr2 Hne Hs1 Hs2. unfold swap.
  destruct sht as [xs|p1 cap1 rc1 xs], sho as [ys|p2 cap2 rc2 ys].
  - pose proof (swap_fuel_inline_inline 1 this other xs ys w Hr1 Hr2 Hne) as H.
    pose proof (swap_fuel_inline_inline_throw 1 this other xs ys w Hr1 Hr2 Hne)
      as HT.
    destruct (swap_fuel 2 this other w) as [[] w'|w'|]; [exact H| |exact H].
    split; [exact H|split; [reflexivity|split; [exact HT|discriminate]]].
  - pose proof (swap_fuel_inline_shared 1 this other xs p2 cap2 rc2 ys w
                  Hr1 Hr2 Hne Hs2) as H.
    destruct (swap_fuel 2 this other w) as [[] w'|w'|]; [exact H| |exact H].
    destruct H as (Hf & c & t & ->).
    split; [exact Hf|split; [reflexivity|split; [apply same_layout_refl|]]].
    intros _. exists c, t. reflexivity.
  - pose proof Hr1 as (Ho1 & Hok1 & _). pose proof Hr2 as (Ho2 & Hok2 & _).
    assert (Hne' : other <> this) by congruence.
    pose proof (swap_fuel_inline_shared 0 other this ys p1 cap1 rc1 xs w
                  Hr2 Hr1 Hne' Hs1) as H.
    remember 1%nat as k eqn:Hk. simpl swap_fuel.
    destruct (decide (this = other)) as [|_]; [contradiction|].
    mred. rewrite (is_small_eq _ _ _ Ho1 Hok1). mred.
    rewrite (is_small_eq _ _ _ Ho2 Hok2). mred.
    destruct (swap_fuel k other this w) as [[] w'|w'|]; [| |exact H].
    + destruct H as (c & t & Hc & ->). exists c, t. split; [exact Hc|].
      f_equal. apply insert_insert_ne. exact Hne.
    + destruct H as (Hf & c & t & ->).
      split; [exact Hf|split; [reflexivity|split; [apply same_layout_refl|]]].
      intros _. exists c, t. reflexivity.
  - rewrite (swap_fuel_shared_shared 1 _ _ _ _ _ _ _ _ _ _ _ Hr1 Hr2 Hne).
    exists (copies w), (trace w). split; [lia|reflexivity].
Qed.

Lemma reps_heap_eq w w' this sh :
  objs w' !! this = Some (obj_of sh) -> heap w' = heap w ->
  ok sh -> buffered (heap w) sh -> reps w' this sh.
Proof.
  intros Ho Hh Hok Hb. split; [exact Ho|split; [exact Hok|]].
  rewrite Hh. exact Hb.
Qed.

Lemma swap_exchanges this other sht sho w :
  reps w this sht -> reps w other sho -> this <> other ->
  not_saturated sht -> not_saturated sho ->
  match swap this other w with
  | Ok _ w' =>
      reps w' this sho /\ reps w' other sht /\ heap w' = heap w /\
      (forall v, v <> this -> v <> other -> objs w' !! v = objs w !! v)
  | Throw w' =>
      failed w /\ (is_inline sht || is_inline sho) = true /\
      same_layout w w' /\
      (is_inline sht && is_inline sho = false ->
       exists c t, w' = World (objs w) (heap w) c t)
  | Undef => False
  end.
Proof.
  intros Hr1 Hr2 Hne Hs1 Hs2.
  pose proof (swap_spec _ _ _ _ _ Hr1 Hr2 Hne Hs1 Hs2) as H.
  destruct (swap this other w) as [[] w'|w'|]; [|exact H|exact H].
  destruct H as (c & t & Hc & ->).
  destruct Hr1 as (Ho1 & Hok1 & Hb1), Hr2 as (Ho2 & Hok2 & Hb2).
  split; [|split; [|split]].
  - apply (reps_heap_eq w); [|reflexivity|exact Hok2|exact Hb2].
    red_world. rewrite lookup_insert_ne by congruence. apply lookup_insert_eq.
  - apply (reps_heap_eq w); [|reflexivity|exact Hok1|exact Hb1].
    red_world. apply lookup_insert_eq.
  - reflexivity.
  - intros v Hv1 Hv2. red_world. rewrite !lookup_insert_ne by congruence.
    reflexivity.
Qed.

(** ** Element access *)

Lemma assign_eq b z a x y w :
  block_array b w = Some a -> 0 <= z ->
  a !! Z.to_nat z = Some (Some y) ->
  assign (Ptr b z) x w =
  if copy_fails (copies w)
  then Throw (World (objs w) (heap w) (S (copies w)) (trace w))
  else Ok tt (upd b (<[Z.to_nat z := Some x]> a) (S (copies w)) (trace w) w).
Proof.
  intros Hb Hz Hy. unfold assign. rewrite (slot_eq _ _ _ _ Hb Hz), Hy.
  destruct (copy_fails (copies w)); [reflexivity|].
  unfold set_slot, upd. simpl. rewrite Hb. reflexivity.
Qed.

Lemma store_at_spec this sh (i : nat) x w :
  reps w this sh -> (i < length (elems sh))%nat ->
  match store_at this (Z.of_nat i) x w with
  | Ok _ w' =>
      exists sh',
        step this w sh w' sh' /\ reps w' this sh' /\
        elems sh' = <[i := x]> (elems sh) /\
        cap_of sh' = cap_of sh /\ is_inline sh' = is_inline sh
  | Throw w' => kept this w sh w' /\ failed w
  | Undef => False
  end.
Proof.
  intros Hr Hi. unfold store_at, index, begin. mred.
  pose proof (data_spec this sh w Hr) as Hd.
  destruct (data this w) as [d w1|w1|];
    [|exact (data_throw_kept _ _ _ _ Hr Hd)|exact Hd].
  destruct Hd as (sh1 & -> & Hs1 & Hr1 & Hu1 & He1 & Hc1 & Hi1 & _).
  pose proof Hr1 as (Ho1 & Hok1 & Hb1).
  pose proof (block_array_reps _ _ _ Hr1) as Hba.
  rewrite <- He1 in Hi |- *.
  destruct (lookup_lt_is_Some_2 (elems sh1) i Hi) as [y Hy].
  unfold ptr_add. mred. rewrite Z.add_0_l.
  rewrite (assign_eq _ _ _ x y _ Hba) by
    first [lia | rewrite Nat2Z.id; apply arr_lookup_live; exact Hy].
  pose proof (step_copies _ _ _ _ _ Hs1) as Hmono.
  destruct (copy_fails (copies w1)) eqn:Hcf.
  { split.
    - exists sh1. split; [|split; [|split; [|split]]]; try assumption.
      eapply step_trans; [exact Hs1|].
      eapply step_same; [reflexivity|reflexivity|lia].
    - exists (copies w1). split; [exact Hmono|exact Hcf]. }
  rewrite Nat2Z.id, arr_insert by exact Hi.
  rewrite (upd_block this (len (elems sh1)) sh1 _ _ _ w1 Ho1 Hb1).
  assert (Hl : len (elems sh1) = len (<[i := x]> (elems sh1))).
  { unfold len. rewrite length_insert. reflexivity. }
  rewrite Hl.
  exists (with_elems sh1 (<[i := x]> (elems sh1))).
  split; [|split; [|split; [|split]]].
  - eapply step_trans; [exact Hs1|].
    eapply step_in_place; [exact Hu1|reflexivity|reflexivity|lia].
  - apply reps_put_shape_with; [exact Hok1|].
    rewrite <- Hl. apply ok_cap. exact Hok1.
  - apply elems_with_elems.
  - rewrite cap_of_with_elems. exact Hc1.
  - rewrite is_inline_with_elems. exact Hi1.
Qed.

Lemma at_const_reps this sh (i : nat) x w :
  reps w this sh -> elems sh !! i = Some x ->
  at_const this (Z.of_nat i) w = Ok x w.
Proof.
  intros Hr Hx. pose proof Hr as (Ho & Hok & Hb).
  unfold at_const, index_const, begin_const. mred.
  rewrite (data_const_eq _ _ _ Ho Hok). mred. unfold ptr_add. mred.
  rewrite Z.add_0_l.
  apply (load_eq _ _ _ _ _ (block_array_reps _ _ _ Hr)); [lia|].
  rewrite Nat2Z.id. apply arr_lookup_live. exact Hx.
Qed.

Lemma mapM_seq_lookup (f : nat -> option T) (xs : list T) s :
  (forall (i : nat) x, xs !! i = Some x -> f (s + i)%nat = Some x) ->
  mapM f (seq s (length xs)) = Some xs.
Proof.
  revert s. induction xs as [|x xs IH]; intros s H; [reflexivity|].
  simpl. pose proof (H 0%nat x eq_refl) as H0. rewrite Nat.add_0_r in H0.
  rewrite H0. simpl. rewrite (IH (S s)); [reflexivity|].
  intros i y Hy. replace (S s + i)%nat with (s + S i)%nat by lia.
  apply H. exact Hy.
Qed.

Lemma contents_reps this sh w :
  reps w this sh -> contents this w = Some (elems sh).
Proof.
  intros Hr. pose proof Hr as (Ho & Hok & Hb).
  unfold contents, value_of. rewrite (size_eq _ _ _ Ho Hok). simpl.
  unfold len. rewrite Nat2Z.id. apply mapM_seq_lookup.
  intros i x Hx. simpl. rewrite (at_const_reps _ _ _ _ _ Hr Hx). reflexivity.
Qed.

Lemma reps_invariant this sh w : reps w this sh -> invariant this w.
Proof.
  intros (Ho & Hok & Hb). exists (obj_of sh). split; [exact Ho|].
  pose proof (ok_len _ Hok) as Hl.
  destruct sh as [xs|p cap rc xs]; unfold obj_of; simpl in *.
  - rewrite land_small_STATE_BIT, land_mask_small by lia. split; [reflexivity|lia].
  - rewrite land_tagged_STATE_BIT, land_mask_tagged by lia.
    split; [rewrite STATE_BIT_eq; lia|].
    exists (hdr_of cap rc xs). split; [exact Hb|]. simpl. lia.
Qed.

(** ** Every mutation against the reference dynamic array *)

Lemma run_mutation_spec this sh m w :
  reps w this sh -> valid_mutation (elems sh) m ->
  match run_mutation this m w with
  | Ok _ w' =>
      exists sh',
        step this w sh w' sh' /\ reps w' this sh' /\
        elems sh' = effect m (elems sh)
  | Throw w' => kept this w sh w' /\ failed w
  | Undef => False
  end.
Proof.
  intros Hr Hv. pose proof Hr as (Ho & Hok & Hb).
  destruct m as [v| |i v|i j| |i v| |n|]; simpl run_mutation; simpl in Hv.
  - pose proof (push_back_spec this sh v w Hr) as H.
    destruct (push_back this v w) as [[] w'|w'|].
    + destruct H as (sh' & Hs & Hr' & He & _).
      { intros E. pose proof (ok_cap _ Hok). lia. }
      exists sh'. split; [exact Hs|split; [exact Hr'|exact He]].
    + apply H. intros E. pose proof (ok_cap _ Hok). lia.
    + apply H. intros E. pose proof (ok_cap _ Hok). lia.
  - destruct (exists_last Hv) as (ys & x & Hxs).
    pose proof (pop_back_spec this sh _ _ w Hr Hxs) as H.
    destruct (pop_back this w) as [[] w'|w'|]; [|exact H|exact H].
    destruct H as (sh' & Hs & Hr' & He & _).
    exists sh'. split; [exact Hs|split; [exact Hr'|]].
    simpl. rewrite Hxs, removelast_last. exact He.
  - destruct Hv as [Hi Hg]. unfold begin_const. mred.
    rewrite (data_const_eq _ _ _ Ho Hok). mred. unfold ptr_add. mred.
    rewrite Z.add_0_l.
    assert (Hsplit : elems sh = take i (elems sh) ++ drop i (elems sh))
      by (symmetry; apply take_drop).
    assert (Hl1 : Z.of_nat i = len (take i (elems sh))).
    { unfold len. rewrite length_take. lia. }
    rewrite Hl1.
    pose proof (insert_spec this sh _ _ v w Hr Hsplit) as H.
    destruct (insert this _ v w) as [res w'|w'|].
    + destruct H as (sh' & Hs & Hr' & He & _).
      { intros E. pose proof (ok_cap _ Hok). lia. }
      mred. exists sh'. split; [exact Hs|split; [exact Hr'|exact He]].
    + apply H. intros E. pose proof (ok_cap _ Hok). lia.
    + apply H. intros E. pose proof (ok_cap _ Hok). lia.
  - unfold begin_const. mred.
    rewrite (data_const_eq _ _ _ Ho Hok). mred. unfold ptr_add. mred.
    rewrite !Z.add_0_l.
    set (l1 := take i (elems sh)).
    set (mid := take (j - i) (drop i (elems sh))).
    set (l3 := drop j (elems sh)).
    assert (Hsplit : elems sh = l1 ++ mid ++ l3).
    { unfold l1, mid, l3.
      rewrite <- (take_drop i (elems sh)) at 1. f_equal.
      rewrite <- (take_drop (j - i) (drop i (elems sh))) at 1. f_equal.
      rewrite drop_drop. f_equal. lia. }
    assert (Hl1 : Z.of_nat i = len l1).
    { unfold len, l1. rewrite length_take. lia. }
    assert (Hl2 : Z.of_nat j = len l1 + len mid).
    { unfold len, l1, mid. rewrite !length_take, length_drop. lia. }
    rewrite Hl1, Hl2.
    pose proof (erase_spec this sh l1 mid l3 w Hr Hsplit) as H.
    destruct (erase this _ _ w) as [res w'|w'|]; [|exact H|exact H].
    destruct H as (sh' & Hs & Hr' & He & _).
    mred. exists sh'. split; [exact Hs|split; [exact Hr'|exact He]].
  - pose proof (clear_spec this sh w Hr) as H.
    destruct (clear this w) as [[] w'|w'|]; [|contradiction|exact H].
    destruct H as (sh' & Hs & Hr' & He & _).
    exists sh'. split; [exact Hs|split; [exact Hr'|exact He]].
  - pose proof (store_at_spec this sh i v w Hr Hv) as H.
    destruct (store_at this (Z.of_nat i) v w) as [[] w'|w'|]; [|exact H|exact H].
    destruct H as (sh' & Hs & Hr' & He & _).
    exists sh'. split; [exact Hs|split; [exact Hr'|exact He]].
  - mred. pose proof (data_spec this sh w Hr) as Hd.
    destruct (data this w) as [d w1|w1|];
      [|exact (data_throw_kept _ _ _ _ Hr Hd)|exact Hd].
    destruct Hd as (sh1 & _ & Hs1 & Hr1 & _ & He1 & _).
    exists sh1. split; [exact Hs1|split; [exact Hr1|exact He1]].
  - pose proof (reserve_spec this sh n w Hr Hv) as H.
    destruct (reserve this n w) as [[] w'|w'|]; [|exact H|exact H].
    destruct H as (sh' & Hs & Hr' & He & _).
    exists sh'. split; [exact Hs|split; [exact Hr'|exact He]].
  - pose proof (shrink_to_fit_spec this sh w Hr) as H.
    destruct (shrink_to_fit this w) as [[] w'|w'|]; [|exact H|exact H].
    destruct H as (sh' & Hs & Hr' & He & _).
    exists sh'. split; [exact Hs|split; [exact Hr'|exact He]].
Qed.

(** ** Mutating one container leaves another one alone *)

Lemma kept_frame this w sh w' v shv :
  reps w this sh -> kept this w sh w' -> v <> this ->
  reps w v shv -> compat sh shv ->
  exists shv',
    reps w' v shv' /\ elems shv' = elems shv /\ cap_of shv' = cap_of shv /\
    is_inline shv' = is_inline shv.
Proof.
  intros Hr (sh' & Hs & _) Hne Hrv Hc.
  destruct (step_frame _ _ _ _ _ _ _ Hr Hs Hne Hrv Hc)
    as (shv' & H1 & H2 & H3 & H4 & _).
  exists shv'. split; [exact H1|]. split; [exact H2|]. split; assumption.
Qed.

Lemma run_all_frame c v ms : forall shc shv w,
  reps w c shc -> reps w v shv -> v <> c -> compat shc shv ->
  valid_all (elems shc) ms ->
  match run_all c ms w with
  | Ok _ w' =>
      (exists shc', reps w' c shc' /\ elems shc' = effects ms (elems shc)) /\
      (exists shv', reps w' v shv' /\ elems shv' = elems shv /\
                    cap_of shv' = cap_of shv /\ is_inline shv' = is_inline shv)
  | Throw w' =>
      (exists shv', reps w' v shv' /\ elems shv' = elems shv /\
                    cap_of shv' = cap_of shv /\ is_inline shv' = is_inline shv) /\
      failed w
  | Undef => False
  end.
Proof.
  induction ms as [|m ms IH]; intros shc shv w Hrc Hrv Hne Hc Hv.
  - simpl. split.
    + exists shc. split; [exact Hrc|reflexivity].
    + exists shv. split; [exact Hrv|]. repeat split.
  - destruct Hv as [Hv1 Hv2]. simpl run_all. mred.
    pose proof (run_mutation_spec c shc m w Hrc Hv1) as Hm.
    destruct (run_mutation c m w) as [[] w1|w1|]; [| |exact Hm].
    + destruct Hm as (shc1 & Hs1 & Hrc1 & He1).
      destruct (step_frame _ _ _ _ _ _ _ Hrc Hs1 Hne Hrv Hc)
        as (shv1 & Hrv1 & Hev & Hcv & Hiv & Hc1).
      rewrite <- He1 in Hv2.
      specialize (IH shc1 shv1 w1 Hrc1 Hrv1 Hne Hc1 Hv2).
      destruct (run_all c ms w1) as [[] w2|w2|]; [| |exact IH].
      * destruct IH as [(shc2 & Hrc2 & He2) (shv2 & Hrv2 & He & Hcp & Hin)].
        split.
        -- exists shc2. split; [exact Hrc2|]. simpl. rewrite <- He1. exact He2.
        -- exists shv2. split; [exact Hrv2|]. repeat split; congruence.
      * destruct IH as [(shv2 & Hrv2 & He & Hcp & Hin) Hf].
        split.
        -- exists shv2. split; [exact Hrv2|]. repeat split; congruence.
        -- eapply failed_mono; [|exact Hf]. eapply step_copies; exact Hs1.
    + destruct Hm as [Hk Hf]. split; [|exact Hf].
      exact (kept_frame _ _ _ _ _ _ Hrc Hk Hne Hrv Hc).
Qed.

Lemma observe_reps v sh w :
  reps w v sh ->
  contents v w = Some (elems sh) /\
  value_of (size v) w = Some (len (elems sh)) /\
  value_of (capacity v) w = Some (cap_of sh).
Proof.
  intros Hr. pose proof Hr as (Ho & Hok & _).
  split; [exact (contents_reps _ _ _ Hr)|].
  unfold value_of. rewrite (size_eq _ _ _ Ho Hok), (capacity_eq _ _ _ Hr).
  split; reflexivity.
Qed.

(** C1. Copy-on-write value semantics: after copy-constructing [c] from
    [v], no sequence of mutating calls on [c] (push_back, pop_back, insert,
    erase, clear, writes through the mutable operator[], and the capacity
    requests), whether it returns or throws, changes what [v] shows: its
    size(), its capacity() and the value of every element. *)
Theorem copy_then_mutate_keeps_original v c sh ms w :
  reps w v sh -> objs w !! c = None -> not_saturated sh ->
  valid_all (elems sh) ms ->
  contents v w = Some (elems sh) /\
  match (copy_constructor c v ≫= fun _ => run_all c ms) w with
  | Ok _ w' | Throw w' =>
      contents v w' = contents v w /\
      value_of (size v) w' = value_of (size v) w /\
      value_of (capacity v) w' = value_of (capacity v) w
  | Undef => False
  end.
Proof.
  intros Hr Hc Hsat Hv. pose proof Hr as (Ho & Hok & Hb).
  destruct (observe_reps _ _ _ Hr) as (Hcont & Hsize & Hcap).
  split; [exact Hcont|].
  assert (Hne : c <> v) by (intros E; rewrite E in Hc; congruence).
  assert (Hsame : forall w' shv',
    reps w' v shv' -> elems shv' = elems sh -> cap_of shv' = cap_of sh ->
    contents v w' = contents v w /\
    value_of (size v) w' = value_of (size v) w /\
    value_of (capacity v) w' = value_of (capacity v) w).
  { intros w' shv' Hr' He' Hc'.
    destruct (observe_reps _ _ _ Hr') as (H1 & H2 & H3).
    rewrite H1, H2, H3, Hcont, Hsize, Hcap, He', Hc'. repeat split. }
  mred. rewrite (copy_constructor_eq c v sh w Hr Hne Hsat).
  destruct sh as [xs|p cap rc xs].
  - destruct (first_fail (copies w) (length xs)) as [j|].
    + apply (Hsame _ (Inline xs)); [|reflexivity|reflexivity].
      split; [|split; [exact Hok|exact I]].
      red_world. rewrite lookup_delete_ne by exact Hne. exact Ho.
    + set (w1 := World _ _ _ _).
      assert (Hrc1 : reps w1 c (Inline xs)).
      { split; [|split; [exact Hok|exact I]]. apply lookup_insert_eq. }
      assert (Hrv1 : reps w1 v (Inline xs)).
      { split; [|split; [exact Hok|exact I]].
        unfold w1. red_world. rewrite lookup_insert_ne by exact Hne. exact Ho. }
      assert (Hne' : v <> c) by congruence.
      pose proof (run_all_frame c v ms (Inline xs) (Inline xs) w1
                    Hrc1 Hrv1 Hne' I Hv) as H.
      destruct (run_all c ms w1) as [[] w2|w2|]; [| |exact H].
      * destruct H as [_ (shv' & Hr' & He' & Hc' & _)].
        exact (Hsame _ _ Hr' He' Hc').
      * destruct H as [(shv' & Hr' & He' & Hc' & _) _].
        exact (Hsame _ _ Hr' He' Hc').
  - simpl in Hok, Hb, Hsat.
    set (w1 := World _ _ _ _).
    set (sh1 := Shared p cap (rc + 1) xs).
    assert (Hrc1 : reps w1 c sh1).
    { split; [apply lookup_insert_eq|]. split; [simpl; lia|].
      simpl. apply lookup_insert_eq. }
    assert (Hrv1 : reps w1 v sh1).
    { split; [|split; [simpl; lia|simpl; apply lookup_insert_eq]].
      unfold w1. red_world. rewrite lookup_insert_ne by exact Hne. exact Ho. }
    assert (Hne' : v <> c) by congruence.
    assert (Hcompat : compat sh1 sh1) by (simpl; intros _; lia).
    pose proof (run_all_frame c v ms sh1 sh1 w1 Hrc1 Hrv1 Hne' Hcompat Hv) as H.
    destruct (run_all c ms w1) as [[] w2|w2|]; [| |exact H].
    + destruct H as [_ (shv' & Hr' & He' & Hc' & _)].
      exact (Hsame _ _ Hr' He' Hc').
    + destruct H as [(shv' & Hr' & He' & Hc' & _) _].
      exact (Hsame _ _ Hr' He' Hc').
Qed.

(** ** Failure of an element copy in the middle of a bulk copy *)

Lemma push_back_growth_bulk_throw this sh v j w :
  reps w this sh -> len (elems sh) = cap_of sh -> 2 * cap_of sh + 1 < 2 ^ 63 ->
  first_fail (copies w) (length (elems sh)) = Some j ->
  push_back this v w = Throw (rolled_back w j (elems sh)).
Proof.
  intros Hr Hfull Hgrow Hf. pose proof Hr as (Ho & Hok & Hb).
  pose proof (ok_cap _ Hok) as Hcap.
  pose proof (len_nonneg (elems sh)) as Hlen.
  unfold push_back. mred.
  rewrite (size_eq _ _ _ Ho Hok). mred.
  rewrite (capacity_eq _ _ _ Hr). mred.
  destruct (Z.eqb_spec (len (elems sh)) (cap_of sh)) as [_|]; [|contradiction].
  rewrite (data_const_eq _ _ _ Ho Hok). mred.
  rewrite u64_small by lia.
  rewrite (alloc_large_data_eq (block_of this sh) (arr (cap_of sh) (elems sh))
             (elems sh) (2 * cap_of sh + 1) w);
    [|exact (block_array_reps _ _ _ Hr)
     |intros i x Hx; apply arr_lookup_live; exact Hx
     |lia].
  cbv zeta. rewrite Hf. reflexivity.
Qed.

Lemma push_back_growth_value_throw this sh v w :
  reps w this sh -> len (elems sh) = cap_of sh -> 2 * cap_of sh + 1 < 2 ^ 63 ->
  first_fail (copies w) (length (elems sh)) = None ->
  copy_fails (copies w + length (elems sh)) = true ->
  push_back this v w = Throw (rolled_back w (length (elems sh)) (elems sh)).
Proof.
  intros Hr Hfull Hgrow Hf Hcf. pose proof Hr as (Ho & Hok & Hb).
  pose proof (ok_cap _ Hok) as Hcap.
  pose proof (len_nonneg (elems sh)) as Hlen.
  unfold push_back. mred.
  rewrite (size_eq _ _ _ Ho Hok). mred.
  rewrite (capacity_eq _ _ _ Hr). mred.
  destruct (Z.eqb_spec (len (elems sh)) (cap_of sh)) as [_|]; [|contradiction].
  rewrite (data_const_eq _ _ _ Ho Hok). mred.
  rewrite u64_small by lia.
  rewrite (alloc_large_data_eq (block_of this sh) (arr (cap_of sh) (elems sh))
             (elems sh) (2 * cap_of sh + 1) w);
    [|exact (block_array_reps _ _ _ Hr)
     |intros i x Hx; apply arr_lookup_live; exact Hx
     |lia].
  cbv zeta. set (q := fresh (dom (heap w))).
  set (cap' := 2 * cap_of sh + 1).
  assert (Hq : heap w !! q = None) by apply fresh_heap_None.
  rewrite Hf. mred. unfold try_catch.
  erewrite (copy_construct_eq (data_of q) _ (arr cap' (elems sh)));
    [|unfold block_array; red_world; rewrite lookup_insert_eq; reflexivity
     |lia
     |rewrite arr_length by lia; unfold len in *; lia].
  red_world. rewrite Hcf.
  erewrite upd_data by (red_world; apply lookup_insert_eq). red_world.
  erewrite (release_large_data_eq q cap' 1 (elems sh));
    [|red_world; apply lookup_insert_eq|lia|lia].
  change (1 =? 1) with true. cbv iota. red_world.
  rewrite insert_insert_eq, delete_insert_id by exact Hq.
  unfold rolled_back. rewrite firstn_all.
  f_equal. f_equal; [lia|]. rewrite <- app_assoc. reflexivity.
Qed.

Lemma reps_rolled_back this sh w j xs :
  reps w this sh -> reps (rolled_back w j xs) this sh.
Proof. intros H. exact H. Qed.

(** C2. Strong exception guarantee when an element copy fails during a
    bulk copy.  If the copy of element [j] of the source fails, then
    copy-construction from an Inline container, privatisation of a shared
    buffer through the mutable data(), and growth in push_back all throw,
    and the world they leave is [rolled_back]: the [j] elements already
    copied have been destroyed, last one first, the heap is the one before
    the call (the new buffer is gone), and every container still shows its
    size, capacity and elements. *)
Theorem bulk_copy_failure_rolls_back this c sh v j w :
  reps w this sh -> objs w !! c = None ->
  first_fail (copies w) (length (elems sh)) = Some j ->
  ((j < length (elems sh))%nat /\ copy_fails (copies w + j) = true) /\
  (is_inline sh = true ->
   copy_constructor c this w = Throw (rolled_back w j (elems sh))) /\
  (unique sh = false ->
   data this w = Throw (rolled_back w j (elems sh))) /\
  (len (elems sh) = cap_of sh -> 2 * cap_of sh + 1 < 2 ^ 63 ->
   push_back this v w = Throw (rolled_back w j (elems sh))) /\
  (forall u shu, reps w u shu ->
     reps (rolled_back w j (elems sh)) u shu /\
     contents u (rolled_back w j (elems sh)) = contents u w /\
     value_of (size u) (rolled_back w j (elems sh)) = value_of (size u) w /\
     value_of (capacity u) (rolled_back w j (elems sh))
       = value_of (capacity u) w) /\
  heap (rolled_back w j (elems sh)) = heap w /\
  objs (rolled_back w j (elems sh)) = objs w /\
  trace (rolled_back w j (elems sh)) =
    trace w ++ (Construct <$> take j (elems sh)) ++
    (Destroy <$> reverse (take j (elems sh))).
Proof.
  intros Hr Hc Hf.
  assert (Hne : c <> this).
  { intros E. destruct Hr as (Ho & _). rewrite E in Hc. congruence. }
  split; [split; [exact (first_fail_bound _ _ _ Hf)
                 |exact (first_fail_fails _ _ _ Hf)]|].
  split; [|split; [|split; [|split]]].
  - intros Hi. destruct sh as [xs|p cap rc xs]; [|discriminate].
    rewrite (copy_constructor_eq c this (Inline xs) w Hr Hne I).
    simpl in Hf. rewrite Hf. unfold rolled_back.
    rewrite delete_id by exact Hc. reflexivity.
  - intros Hu. destruct sh as [xs|p cap rc xs]; [discriminate|].
    simpl in Hu. apply Z.eqb_neq in Hu.
    rewrite (data_shared _ _ _ _ _ _ Hr Hu). cbv zeta.
    simpl in Hf. rewrite Hf. reflexivity.
  - intros Hfull Hgrow.
    exact (push_back_growth_bulk_throw _ _ _ _ _ Hr Hfull Hgrow Hf).
  - intros u shu Hu.
    pose proof (reps_rolled_back u shu w j (elems sh) Hu) as Hu'.
    split; [exact Hu'|].
    destruct (observe_reps _ _ _ Hu) as (H1 & H2 & H3).
    destruct (observe_reps _ _ _ Hu') as (H1' & H2' & H3').
    rewrite H1, H2, H3, H1', H2', H3'. repeat split.
  - repeat split.
Qed.

(** ** What a client observes after each operation *)

Lemma observe_mode v sh w :
  reps w v sh ->
  value_of (is_small v) w = Some (is_inline sh) /\
  value_of (begin_const v) w = Some (Ptr (block_of v sh) 0).
Proof.
  intros (Ho & Hok & _). unfold value_of, begin_const.
  rewrite (is_small_eq _ _ _ Ho Hok), (data_const_eq _ _ _ Ho Hok).
  split; reflexivity.
Qed.

(** C3, as the code has it.  After shrink_to_fit() returns, size() and
    the elements are unchanged.  A Shared container whose size() equals its
    capacity(), or whose size() exceeds SMALL_SIZE, ends Shared with
    capacity() == size().  Every other container (one that was Inline, or
    a Shared one with size() <= SMALL_SIZE and size() != capacity()) ends
    Inline, with capacity() == SMALL_SIZE whatever its size(). *)
Theorem shrink_to_fit_capacity this sh w :
  reps w this sh ->
  match shrink_to_fit this w with
  | Ok _ w' =>
      contents this w' = Some (elems sh) /\
      value_of (size this) w' = Some (len (elems sh)) /\
      let stays_shared :=
        negb (is_inline sh) &&
        ((len (elems sh) =? cap_of sh) || negb (len (elems sh) <=? SMALL_SIZE)) in
      value_of (is_small this) w' = Some (negb stays_shared) /\
      value_of (capacity this) w' =
        Some (if stays_shared then len (elems sh) else SMALL_SIZE)
  | Throw w' => kept this w sh w' /\ failed w
  | Undef => False
  end.
Proof.
  intros Hr. pose proof (shrink_to_fit_spec this sh w Hr) as H.
  destruct (shrink_to_fit this w) as [[] w'|w'|]; [|exact H|exact H].
  destruct H as (sh' & _ & Hr' & He & Hcase).
  destruct (observe_reps _ _ _ Hr') as (H1 & H2 & H3).
  destruct (observe_mode _ _ _ Hr') as (H4 & _).
  rewrite H1, H2, H3, H4, He. split; [reflexivity|]. split; [reflexivity|].
  cbv zeta.
  destruct sh as [xs|p cap rc xs]; cbn [is_inline elems cap_of negb orb andb] in *.
  - destruct Hcase as [_ ->]. split; reflexivity.
  - destruct (Z.eqb_spec (len xs) cap) as [E|E]; cbn [orb] in *.
    + destruct Hcase as [_ ->]. cbn [is_inline cap_of negb]. rewrite E.
      split; reflexivity.
    + destruct (Z.leb_spec (len xs) SMALL_SIZE); cbn [negb].
      * rewrite Hcase. split; reflexivity.
      * destruct Hcase as [q ->]. split; reflexivity.
Qed.

(** C5. push_back(v) on a full container (size() == capacity()) moves it
    to a heap buffer of capacity exactly 2*capacity() + 1; otherwise
    capacity and mode stay.  Whenever push_back returns, size() has grown
    by one and the content is the old content followed by [v]. *)
Theorem push_back_grows_and_appends this sh v w :
  reps w this sh ->
  (len (elems sh) = cap_of sh -> 2 * cap_of sh + 1 < 2 ^ 63) ->
  match push_back this v w with
  | Ok _ w' =>
      contents this w' = Some (elems sh ++ [v]) /\
      value_of (size this) w' = Some (len (elems sh) + 1) /\
      value_of (capacity this) w' =
        Some (if len (elems sh) =? cap_of sh then 2 * cap_of sh + 1
              else cap_of sh) /\
      value_of (is_small this) w' =
        Some (if len (elems sh) =? cap_of sh then false else is_inline sh)
  | Throw w' => kept this w sh w' /\ failed w
  | Undef => False
  end.
Proof.
  intros Hr Hg. pose proof (push_back_spec this sh v w Hr Hg) as H.
  destruct (push_back this v w) as [[] w'|w'|]; [|exact H|exact H].
  destruct H as (sh' & _ & Hr' & He & _ & Hcase).
  destruct (observe_reps _ _ _ Hr') as (H1 & H2 & H3).
  destruct (observe_mode _ _ _ Hr') as (H4 & _).
  rewrite H1, H2, H3, H4, He, len_app. change (len [v]) with 1.
  split; [reflexivity|]. split; [reflexivity|].
  destruct (len (elems sh) =? cap_of sh).
  - destruct Hcase as [q ->]. split; reflexivity.
  - destruct Hcase as [-> ->]. split; reflexivity.
Qed.

(** C7. clear() always returns; afterwards size() == 0, capacity() and
    the mode are the ones before the call.  A container that shared its
    buffer with another one drops its reference (the other holders keep the
    buffer and its elements) and is rebound to a fresh empty buffer of the
    same capacity, and no element is copied on the way. *)
Theorem clear_keeps_capacity this sh w :
  reps w this sh ->
  match clear this w with
  | Ok _ w' =>
      contents this w' = Some [] /\
      value_of (size this) w' = Some 0 /\
      value_of (capacity this) w' = Some (cap_of sh) /\
      value_of (is_small this) w' = Some (is_inline sh) /\
      (unique sh = true -> reps w' this (with_elems sh [])) /\
      (unique sh = false ->
       exists q, heap w !! q = None /\
         reps w' this (Shared q (cap_of sh) 1 []) /\
         heap w' = <[q := hdr_of (cap_of sh) 1 []]> (heap (released sh w)) /\
         copies w' = copies w /\ trace w' = trace w)
  | Throw _ => False
  | Undef => False
  end.
Proof.
  intros Hr. pose proof (clear_spec this sh w Hr) as H.
  destruct (clear this w) as [[] w'|w'|]; [|exact H|exact H].
  destruct H as (sh' & _ & Hr' & He & Hc & Hi & Hcase).
  destruct (observe_reps _ _ _ Hr') as (H1 & H2 & H3).
  destruct (observe_mode _ _ _ Hr') as (H4 & _).
  rewrite H1, H2, H3, H4, He, Hc, Hi.
  repeat (split; [reflexivity|]).
  destruct (unique sh).
  - split; [|discriminate]. intros _. rewrite <- Hcase. exact Hr'.
  - split; [discriminate|]. intros _.
    destruct Hcase as (q & -> & Hq & Hcp & Ht & Hh).
    exists q. split; [exact Hq|]. split; [exact Hr'|].
    split; [exact Hh|]. split; assumption.
Qed.

(** C8. insert(pos, v) with [pos] at index [i] of a container holding
    [xs]: when it returns, the content is the one push_back(v) gives,
    [xs ++ [v]], with its last element rotated leftward into index [i] by
    pairwise exchanges; that is [xs]'s first [i] elements, then [v], then
    the former elements from [i] on.  The returned iterator is at index
    [i] and refers to [v]. *)
Theorem insert_is_push_back_then_rotate this sh (i : nat) v w :
  reps w this sh -> (i <= length (elems sh))%nat ->
  (len (elems sh) = cap_of sh -> 2 * cap_of sh + 1 < 2 ^ 63) ->
  value_of (begin_const this) w = Some (Ptr (block_of this sh) 0) /\
  match push_back this v w with
  | Ok _ wp => contents this wp = Some (elems sh ++ [v])
  | _ => True
  end /\
  insert_by_rotation i v (elems sh) =
    take i (elems sh) ++ v :: drop i (elems sh) /\
  match insert this (Ptr (block_of this sh) (Z.of_nat i)) v w with
  | Ok res w' =>
      contents this w' = Some (rotate_into i (elems sh ++ [v])) /\
      (exists b, value_of (begin_const this) w' = Some b /\
                 res = ptr_add b (Z.of_nat i)) /\
      value_of (load res) w' = Some v
  | Throw w' => kept this w sh w' /\ failed w
  | Undef => False
  end.
Proof.
  intros Hr Hi Hg.
  split; [exact (proj2 (observe_mode _ _ _ Hr))|].
  split.
  { pose proof (push_back_spec this sh v w Hr Hg) as H.
    destruct (push_back this v w) as [[] wp|wp|]; [|exact I|exact I].
    destruct H as (sh' & _ & Hr' & He & _).
    rewrite (contents_reps _ _ _ Hr'), He. reflexivity. }
  assert (Hsplit : elems sh = take i (elems sh) ++ drop i (elems sh))
    by (symmetry; apply take_drop).
  assert (Hl1 : length (take i (elems sh)) = i)
    by (rewrite length_take; lia).
  assert (Hrot : insert_by_rotation i v (elems sh) =
                 take i (elems sh) ++ v :: drop i (elems sh)).
  { rewrite <- Hl1 at 1. rewrite Hsplit at 2.
    apply insert_by_rotation_eq. }
  split; [exact Hrot|].
  pose proof (insert_spec this sh (take i (elems sh)) (drop i (elems sh)) v w
                Hr Hsplit Hg) as H.
  unfold len in H at 1. rewrite Hl1 in H.
  destruct (insert this (Ptr (block_of this sh) (Z.of_nat i)) v w)
    as [res w'|w'|]; [|exact H|exact H].
  destruct H as (sh' & _ & Hr' & He & _ & Hres & _).
  unfold len in Hres. rewrite Hl1 in Hres.
  fold (insert_by_rotation i v (elems sh)). rewrite Hrot.
  split; [rewrite (contents_reps _ _ _ Hr'), He; reflexivity|].
  split.
  { exists (Ptr (block_of this sh') 0).
    split; [exact (proj2 (observe_mode _ _ _ Hr'))|].
    rewrite Hres. unfold ptr_add. simpl. reflexivity. }
  rewrite Hres. unfold value_of.
  rewrite (load_eq _ _ _ v _ (block_array_reps _ _ _ Hr'));
    [reflexivity|lia|].
  rewrite Nat2Z.id. apply arr_lookup_live. rewrite He.
  rewrite lookup_app_r by lia. rewrite Hl1, Nat.sub_diag. reflexivity.
Qed.

(** C10. The iterator erase(first, last) returns.  With the content split
    as [l1 ++ mid ++ l3] and [mid] the erased range: when elements follow
    the range ([l3] is not empty, [mid] may be), the result is the
    iterator to the last element of the container after the call, which is
    the position after the erased range only if a single element followed
    it; when the range ends at end() ([l3] is empty), the result is the
    pointer end() gave before the call, one erased range past the new
    end(). *)
Theorem erase_returns_last_or_end this sh l1 mid l3 w :
  reps w this sh -> elems sh = l1 ++ mid ++ l3 ->
  match erase this (Ptr (block_of this sh) (len l1))
              (Ptr (block_of this sh) (len l1 + len mid)) w with
  | Ok res w' =>
      contents this w' = Some (l1 ++ l3) /\
      exists b,
        value_of (begin_const this) w' = Some b /\
        match l3 with
        | [] =>
            value_of (end_ this) w = Some res /\
            res = ptr_add b (len (l1 ++ mid))
        | _ :: _ =>
            res = ptr_add b (len (l1 ++ l3) - 1) /\
            ((1 < length l3)%nat -> res <> ptr_add b (len l1))
        end
  | Throw w' => kept this w sh w' /\ failed w
  | Undef => False
  end.
Proof.
  intros Hr He. pose proof (erase_spec this sh l1 mid l3 w Hr He) as H.
  destruct (erase this _ _ w) as [res w'|w'|]; [|exact H|exact H].
  destruct H as (sh' & _ & Hr' & He' & _ & _ & _ & Hres & (w1 & Hend)).
  split; [rewrite (contents_reps _ _ _ Hr'), He'; reflexivity|].
  exists (Ptr (block_of this sh') 0).
  split; [exact (proj2 (observe_mode _ _ _ Hr'))|].
  unfold ptr_add. cbn [blk off]. rewrite !Z.add_0_l.
  destruct l3 as [|y l3].
  - split.
    + unfold value_of. rewrite Hend, Hres. reflexivity.
    + rewrite Hres, He, app_nil_r. reflexivity.
  - split; [exact Hres|].
    intros Hlt E. rewrite Hres in E. injection E as E.
    rewrite len_app in E. unfold len in E. simpl length in *. lia.
Qed.


(** C4, as the code has it.  a.swap(a) does nothing.  For two distinct
    containers, when a.swap(b) returns each holds the other's former
    size, capacity, mode and elements, and no other container changed.
    swap fails only when an element copy throws, which takes an Inline
    container on at least one side: it never fails when both are Shared,
    nor when no element copy throws.  When exactly one of the two is
    Inline, a failed swap leaves both containers as they were. *)
Theorem swap_exchanges_or_copy_fails this other sht sho w :
  reps w this sht -> reps w other sho -> this <> other ->
  not_saturated sht -> not_saturated sho ->
  swap this this w = Ok tt w /\
  match swap this other w with
  | Ok _ w' =>
      reps w' this sho /\ reps w' other sht /\
      contents this w' = contents other w /\
      contents other w' = contents this w /\
      value_of (size this) w' = value_of (size other) w /\
      value_of (size other) w' = value_of (size this) w /\
      value_of (capacity this) w' = value_of (capacity other) w /\
      value_of (capacity other) w' = value_of (capacity this) w /\
      (forall v, v <> this -> v <> other -> objs w' !! v = objs w !! v) /\
      heap w' = heap w
  | Throw w' =>
      failed w /\ ~ (forall k, copy_fails k = false) /\
      (is_inline sht || is_inline sho) = true /\
      (is_inline sht && is_inline sho = false ->
       reps w' this sht /\ reps w' other sho /\
       objs w' = objs w /\ heap w' = heap w /\
       contents this w' = contents this w /\
       contents other w' = contents other w)
  | Undef => False
  end.
Proof.
  intros Hrt Hro Hne Hst Hso.
  split; [apply swap_same|].
  pose proof (swap_exchanges this other sht sho w Hrt Hro Hne Hst Hso) as H.
  destruct (swap this other w) as [[] w'|w'|]; [| |exact H].
  - destruct H as (Hrt' & Hro' & Hh & Hfr).
    destruct (observe_reps _ _ _ Hrt) as (A1 & A2 & A3).
    destruct (observe_reps _ _ _ Hro) as (B1 & B2 & B3).
    destruct (observe_reps _ _ _ Hrt') as (C1 & C2 & C3).
    destruct (observe_reps _ _ _ Hro') as (D1 & D2 & D3).
    rewrite A1, A2, A3, B1, B2, B3, C1, C2, C3, D1, D2, D3.
    split; [exact Hrt'|]. split; [exact Hro'|].
    repeat (split; [reflexivity|]). split; [exact Hfr|exact Hh].
  - destruct H as (Hf & Hin & _ & Hmixed). split; [exact Hf|].
    split; [intros Hno; exact (not_failed w Hno Hf)|].
    split; [exact Hin|].
    intros Hm. destruct (Hmixed Hm) as (c & t & ->).
    assert (Hrt' : reps (World (objs w) (heap w) c t) this sht) by exact Hrt.
    assert (Hro' : reps (World (objs w) (heap w) c t) other sho) by exact Hro.
    split; [exact Hrt'|]. split; [exact Hro'|].
    rewrite (contents_reps _ _ _ Hrt'), (contents_reps _ _ _ Hro'),
      (contents_reps _ _ _ Hrt), (contents_reps _ _ _ Hro).
    repeat split.
Qed.

(** ** Copy assignment *)

Lemma same_layout_destruct_array_loop v n : forall w,
  match destruct_array_loop (Ptr (small_of v) 0) n w with
  | Ok _ w' | Throw w' => same_layout w w'
  | Undef => True
  end.
Proof.
  induction n as [|n IH]; intros w; simpl destruct_array_loop.
  - destruct w. apply same_layout_refl.
  - mred. unfold ptr_add. cbn [blk off].
    pose proof (same_layout_destroy v (0 + Z.of_nat n) w) as H.
    destruct (destroy _ w) as [[] w1|w1|]; [|exact H|exact I].
    specialize (IH w1).
    destruct (destruct_array_loop _ n w1) as [[] w2|w2|]; [| |exact I];
      eapply same_layout_trans; eassumption.
Qed.

Lemma destructor_inline_layout c n a w :
  objs w !! c = Some (Vec n (small_data a)) -> 0 <= n < 2 ^ 63 ->
  match destructor c w with
  | Ok _ w' | Throw w' => same_layout w w'
  | Undef => True
  end.
Proof.
  intros Hc Hn. unfold destructor. mred.
  rewrite (is_small_count _ _ _ _ Hc Hn). mred.
  unfold destruct_data, data. mred.
  rewrite (is_small_count _ _ _ _ Hc Hn). mred.
  rewrite (size_count _ _ _ _ Hc Hn). mred.
  unfold destruct_array. apply same_layout_destruct_array_loop.
Qed.

Lemma destructor_frame c shc o v shv w k t :
  reps w c shc -> reps w v shv -> v <> c -> compat shc shv ->
  exists shv',
    reps (World (delete c (<[c := o]> (objs w))) (heap (released shc w)) k t)
         v shv' /\
    elems shv' = elems shv /\ cap_of shv' = cap_of shv /\
    is_inline shv' = is_inline shv.
Proof.
  intros Hrc Hrv Hne Hcompat.
  assert (Hs : step c w shc
                 (put_shape c (len (elems (Inline []))) (Inline [])
                            (copies w) t (released shc w))
                 (Inline [])).
  { eapply step_moved; [exact I|reflexivity|lia]. }
  destruct (step_frame _ _ _ _ _ _ _ Hrc Hs Hne Hrv Hcompat)
    as (shv' & (Ho' & Hok' & Hb') & He & Hc & Hi & _).
  exists shv'. split; [|repeat split; assumption].
  unfold put_shape in Ho', Hb'. cbn [objs heap heap_with] in Ho', Hb'.
  rewrite lookup_insert_ne in Ho' by congruence.
  split; [|split; [exact Hok'|exact Hb']].
  red_world. rewrite lookup_delete_ne, lookup_insert_ne by congruence.
  destruct shc; exact Ho'.
Qed.

Lemma reps_bump c o p cap rc xs v shv w k t :
  reps w v shv -> v <> c ->
  heap w !! p = Some (hdr_of cap rc xs) -> len xs <= cap < 2 ^ 63 ->
  1 <= rc -> rc + 2 < 2 ^ 64 -> not_saturated shv ->
  exists shv',
    reps (World (<[c := o]> (objs w)) (<[p := hdr_of cap (rc + 1) xs]> (heap w))
                k t) v shv' /\
    elems shv' = elems shv /\ cap_of shv' = cap_of shv /\
    is_inline shv' = is_inline shv /\
    compat shv' (Shared p cap (rc + 1) xs) /\ not_saturated shv'.
Proof.
  intros (Ho & Hok & Hb) Hne Hp Hcap Hrc Hfree Hsat.
  assert (Hobj : forall sh', obj_of sh' = obj_of shv ->
            (<[c := o]> (objs w)) !! v = Some (obj_of sh')).
  { intros sh' ->. rewrite lookup_insert_ne by congruence. exact Ho. }
  destruct shv as [ys|q capv rcv ys].
  - exists (Inline ys). split; [split; [apply Hobj; reflexivity|]|].
    + split; [exact Hok|exact I].
    + repeat split; exact I.
  - simpl in Hok, Hb, Hsat. destruct (decide (q = p)) as [->|Hq].
    + rewrite Hp in Hb. injection Hb as <- <- Harr.
      apply arr_inj in Harr; [|lia|lia]. subst ys.
      exists (Shared p cap (rc + 1) xs).
      split; [split; [apply Hobj; reflexivity|]|].
      * split; [simpl; lia|simpl; apply lookup_insert_eq].
      * repeat split; simpl; try reflexivity; try lia.
    + exists (Shared q capv rcv ys).
      split; [split; [apply Hobj; reflexivity|]|].
      * split; [exact Hok|simpl; rewrite lookup_insert_ne by congruence; exact Hb].
      * repeat split; simpl; try reflexivity; try lia.
Qed.

Lemma invariant_delete_other c v w k t :
  v <> c -> invariant v w ->
  invariant v (World (delete c (objs w)) (heap w) k t).
Proof.
  intros Hne (cv & Hcv & Hi). exists cv. split; [|exact Hi].
  red_world. rewrite lookup_delete_ne by congruence. exact Hcv.
Qed.

Lemma invariant_release c shc o v w k t :
  reps w c shc -> v <> c -> invariant v w ->
  (forall cv, objs w !! v = Some cv ->
     match store cv, shc with
     | large_data p, Shared pc _ rc _ => p = pc -> 2 <= rc
     | _, _ => True
     end) ->
  invariant v (World (delete c (<[c := o]> (objs w))) (heap (released shc w)) k t).
Proof.
  intros (Hoc & Hokc & Hbc) Hne (cv & Hcv & Hi) Hkeep.
  specialize (Hkeep cv Hcv). exists cv. split.
  { red_world. rewrite lookup_delete_ne, lookup_insert_ne by congruence.
    exact Hcv. }
  destruct (store cv) as [a|p]; [exact Hi|].
  destruct Hi as (Htag & h & Hh & Hle). split; [exact Htag|].
  destruct shc as [xs|pc cap rc xs]; [exists h; split; assumption|].
  simpl in Hbc. simpl released. red_world.
  destruct (decide (p = pc)) as [->|Hp].
  - specialize (Hkeep eq_refl). destruct (Z.eqb_spec rc 1); [lia|].
    rewrite Hbc in Hh. injection Hh as <-.
    exists (hdr_of cap (rc - 1) xs). split; [apply lookup_insert_eq|exact Hle].
  - exists h. split; [|exact Hle].
    destruct (rc =? 1).
    + rewrite lookup_delete_ne by congruence. exact Hh.
    + rewrite lookup_insert_ne by congruence. exact Hh.
Qed.

Lemma same_layout_reps_shared v p cap rc xs w w' :
  same_layout w w' -> reps w v (Shared p cap rc xs) ->
  reps w' v (Shared p cap rc xs).
Proof.
  intros [Hh Ho] (Hv & Hok & Hb). specialize (Ho v). rewrite Hv in Ho.
  destruct (objs w' !! v) as [[s' st']|] eqn:Hc'; [|contradiction].
  destruct Ho as [Hs Hst]. unfold obj_of in *.
  cbn [obj_n size_ store elems] in *. subst s'.
  destruct st' as [|p']; [contradiction|]. subst p'.
  split; [exact Hc'|split; [exact Hok|]]. rewrite Hh. exact Hb.
Qed.

Lemma same_layout_inline v xs w w' :
  same_layout w w' -> reps w v (Inline xs) ->
  exists a, objs w' !! v = Some (Vec (len xs) (small_data a)).
Proof.
  intros [Hh Ho] (Hv & Hok & Hb). specialize (Ho v). rewrite Hv in Ho.
  destruct (objs w' !! v) as [[s' st']|] eqn:Hc'; [|contradiction].
  destruct Ho as [Hs Hst]. unfold obj_of in *.
  cbn [obj_n size_ store elems] in *. subst s'.
  destruct st' as [a|]; [|contradiction]. exists a. reflexivity.
Qed.

(** The part of [operator=] that follows the construction of the local
    copy: exchange with it, then destroy it, also when [swap] throws. *)
Lemma assign_tail this other copy sht shc sho w :
  reps w this sht -> reps w copy shc -> reps w other sho ->
  this <> copy -> other <> copy -> this <> other ->
  not_saturated sht -> not_saturated shc ->
  compat sht shc -> compat sht sho -> compat shc sho ->
  match (a ← try_catch (swap this copy) (destructor copy;; delete_obj copy);
         destructor copy;; delete_obj copy;; mret a) w with
  | Ok _ w' =>
      (exists sh', reps w' this sh' /\ elems sh' = elems shc /\
                   cap_of sh' = cap_of shc /\ is_inline sh' = is_inline shc) /\
      (exists sh', reps w' other sh' /\ elems sh' = elems sho /\
                   cap_of sh' = cap_of sho /\ is_inline sh' = is_inline sho)
  | Throw w' => failed w /\ invariant this w' /\ invariant other w'
  | Undef => failed w
  end.
Proof.
  intros Hrt Hrc Hro Htc Hoc Hto Hst Hsc Hc1 Hc2 Hc3.
  unfold try_catch. mred.
  pose proof (swap_exchanges this copy sht shc w Hrt Hrc Htc Hst Hsc) as H.
  destruct (swap this copy w) as [[] w2|w2|]; [| |contradiction].
  - destruct H as (Hrt2 & Hrc2 & Hh2 & Hfr2).
    assert (Hro2 : reps w2 other sho).
    { destruct Hro as (Ho & Hok & Hb).
      apply (reps_heap_eq w); try assumption.
      rewrite Hfr2 by congruence. exact Ho. }
    rewrite (destructor_eq copy sht w2 Hrc2). mred. unfold delete_obj. mred.
    split; eapply destructor_frame; eauto.
  - destruct H as (Hf & Hin & Hl & _).
    pose proof (invariant_same_layout this _ _ Hl (reps_invariant _ _ _ Hrt))
      as Hit2.
    pose proof (invariant_same_layout other _ _ Hl (reps_invariant _ _ _ Hro))
      as Hio2.
    destruct shc as [ys|p cap rc ys].
    + destruct (same_layout_inline _ _ _ _ Hl Hrc) as (a & Ha).
      pose proof (ok_len _ (proj1 (proj2 Hrc))) as Hlen. cbn [elems] in Hlen.
      pose proof (destructor_inline_layout copy _ _ w2 Ha Hlen) as Hd.
      destruct (destructor copy w2) as [[] w3|w3|]; [| |exact Hf].
      * unfold delete_obj. mred. split; [exact Hf|].
        split; apply invariant_delete_other; try congruence;
          eapply invariant_same_layout; eassumption.
      * split; [exact Hf|].
        split; eapply invariant_same_layout; eassumption.
    + pose proof (same_layout_reps_shared _ _ _ _ _ _ _ Hl Hrc) as Hrc2.
      rewrite (destructor_eq copy _ w2 Hrc2). mred. unfold delete_obj. mred.
      split; [exact Hf|].
      destruct sht as [xs|]; [|discriminate].
      split.
      * apply (invariant_release copy (Shared p cap rc ys)); try assumption.
        intros cv Hcv.
        destruct (same_layout_inline _ _ _ _ Hl Hrt) as (a & Ha).
        rewrite Ha in Hcv. injection Hcv as <-. exact I.
      * apply (invariant_release copy (Shared p cap rc ys)); try assumption.
        intros cv Hcv. destruct sho as [zs|q capo rco zs].
        -- destruct (same_layout_inline _ _ _ _ Hl Hro) as (a & Ha).
           rewrite Ha in Hcv. injection Hcv as <-. exact I.
        -- pose proof (same_layout_reps_shared _ _ _ _ _ _ _ Hl Hro) as (Ho2 & _).
           rewrite Ho2 in Hcv. injection Hcv as <-.
           unfold obj_of. cbn [obj_n store]. intros <-. exact (Hc3 eq_refl).
Qed.

Lemma operator_assign_self this w : operator_assign this this w = Ok tt w.
Proof.
  unfold operator_assign. destruct (decide (this = this)); [reflexivity|].
  contradiction.
Qed.

Lemma operator_assign_spec this other sht sho w :
  reps w this sht -> reps w other sho -> this <> other ->
  not_saturated sht -> two_refs_free sho ->
  match operator_assign this other w with
  | Ok _ w' =>
      (exists sh', reps w' this sh' /\ elems sh' = elems sho /\
                   cap_of sh' = cap_of sho /\ is_inline sh' = is_inline sho) /\
      (exists sh', reps w' other sh' /\ elems sh' = elems sho /\
                   cap_of sh' = cap_of sho /\ is_inline sh' = is_inline sho)
  | Throw w' => failed w /\ invariant this w' /\ invariant other w'
  | Undef => failed w
  end.
Proof.
  intros Hrt Hro Hne Hst Hfree.
  unfold operator_assign. destruct (decide (this = other)) as [|_]; [contradiction|].
  unfold with_local_copy. cbv zeta.
  set (copy := fresh (dom (objs w))).
  assert (Hcopy : objs w !! copy = None) by apply fresh_objs_None.
  assert (Hc1 : this <> copy).
  { intros E. destruct Hrt as (Ho & _). rewrite E in Ho. congruence. }
  assert (Hc2 : other <> copy).
  { intros E. destruct Hro as (Ho & _). rewrite E in Ho. congruence. }
  assert (Hc2' : copy <> other) by congruence.
  assert (Hsat : match sho with
                 | Shared _ _ rc _ => rc + 1 < 2 ^ 64
                 | Inline _ => True
                 end).
  { destruct sho; simpl in *; [exact I|lia]. }
  match goal with
  | |- match (_ ≫= ?k) w with _ => _ end =>
      change (match (match copy_constructor copy other w with
                     | Ok a w1 => k a w1
                     | Throw w1 => Throw w1
                     | Undef => Undef
                     end) with
              | Ok _ w' =>
                  (exists sh', reps w' this sh' /\ elems sh' = elems sho /\
                     cap_of sh' = cap_of sho /\ is_inline sh' = is_inline sho) /\
                  (exists sh', reps w' other sh' /\ elems sh' = elems sho /\
                     cap_of sh' = cap_of sho /\ is_inline sh' = is_inline sho)
              | Throw w' => failed w /\ invariant this w' /\ invariant other w'
              | Undef => failed w
              end)
  end.
  rewrite (copy_constructor_eq copy other sho w Hro Hc2' Hsat).
  pose proof Hrt as (Hot & Hokt & Hbt). pose proof Hro as (Hoo & Hoko & Hbo).
  assert (Htail : forall w1 sht1 shc,
    (copies w <= copies w1)%nat ->
    reps w1 this sht1 -> reps w1 copy shc -> reps w1 other shc ->
    not_saturated sht1 -> not_saturated shc ->
    compat sht1 shc -> compat shc shc ->
    elems shc = elems sho -> cap_of shc = cap_of sho ->
    is_inline shc = is_inline sho ->
    match (a ← try_catch (swap this copy) (destructor copy;; delete_obj copy);
           destructor copy;; delete_obj copy;; mret a) w1 with
    | Ok _ w' =>
        (exists sh', reps w' this sh' /\ elems sh' = elems sho /\
           cap_of sh' = cap_of sho /\ is_inline sh' = is_inline sho) /\
        (exists sh', reps w' other sh' /\ elems sh' = elems sho /\
           cap_of sh' = cap_of sho /\ is_inline sh' = is_inline sho)
    | Throw w' => failed w /\ invariant this w' /\ invariant other w'
    | Undef => failed w
    end).
  { intros w1 sht1 shc Hle H1 H2 H3 H4 H5 H6 H7 He Hc Hi.
    pose proof (assign_tail this other copy sht1 shc shc w1
                  H1 H2 H3 Hc1 Hc2 Hne H4 H5 H6 H6 H7) as H.
    destruct ((a ← try_catch (swap this copy) (destructor copy;; delete_obj copy);
               destructor copy;; delete_obj copy;; mret a) w1)
      as [[] w'|w'|].
    - rewrite <- He, <- Hc, <- Hi. exact H.
    - destruct H as (Hf & Hinv). split; [|exact Hinv].
      eapply failed_mono; eassumption.
    - eapply failed_mono; eassumption. }
  destruct sho as [ys|p cap rc ys].
  - destruct (first_fail (copies w) (length ys)) as [j|] eqn:Hf.
    + split; [eapply failed_first_fail; exact Hf|].
      split; apply invariant_delete_other; try assumption;
        eapply reps_invariant; eassumption.
    + apply (Htail _ sht (Inline ys)); try assumption; try exact I;
        try reflexivity.
      * red_world. lia.
      * split; [|split; assumption].
        red_world. rewrite lookup_insert_ne by congruence. exact Hot.
      * split; [apply lookup_insert_eq|split; assumption].
      * split; [|split; assumption].
        red_world. rewrite lookup_insert_ne by congruence. exact Hoo.
      * destruct sht; exact I.
  - simpl in Hoko, Hbo, Hfree.
    destruct (reps_bump copy (obj_of (Shared p cap (rc + 1) ys)) p cap rc ys
                this sht w (copies w) (trace w) Hrt Hc1 Hbo)
      as (sht1 & Hrt1 & _ & _ & _ & Hcompat & Hsat1); try lia; try assumption.
    set (sh2 := Shared p cap (rc + 1) ys) in *.
    set (w1 := World _ _ _ _) in *.
    assert (Hle : (copies w <= copies w1)%nat) by (unfold w1; red_world; lia).
    assert (Hrc1 : reps w1 copy sh2).
    { split; [apply lookup_insert_eq|].
      split; [simpl; lia|simpl; apply lookup_insert_eq]. }
    assert (Hro1 : reps w1 other sh2).
    { split; [|split; [simpl; lia|simpl; apply lookup_insert_eq]].
      unfold w1. red_world. rewrite lookup_insert_ne by congruence. exact Hoo. }
    assert (Hs2 : not_saturated sh2) by (simpl; lia).
    assert (Hcc : compat sh2 sh2) by (simpl; intros _; lia).
    exact (Htail w1 sht1 sh2 Hle Hrt1 Hrc1 Hro1 Hsat1 Hs2 Hcompat Hcc
             eq_refl eq_refl eq_refl).
Qed.

(** ** The representation invariant *)

Lemma const_accessors_pure this sh w :
  reps w this sh ->
  size this w = Ok (len (elems sh)) w /\
  capacity this w = Ok (cap_of sh) w /\
  empty this w = Ok (len (elems sh) =? 0) w /\
  data_const this w = Ok (Ptr (block_of this sh) 0) w /\
  begin_const this w = Ok (Ptr (block_of this sh) 0) w /\
  end_const this w = Ok (Ptr (block_of this sh) (len (elems sh))) w /\
  front_const this w = Ok (Ptr (block_of this sh) 0) w /\
  back_const this w = Ok (Ptr (block_of this sh) (len (elems sh) - 1)) w /\
  forall i, index_const this i w = Ok (Ptr (block_of this sh) i) w.
Proof.
  intros Hr. pose proof Hr as (Ho & Hok & Hb).
  pose proof (size_eq _ _ _ Ho Hok) as Hs.
  pose proof (data_const_eq _ _ _ Ho Hok) as Hd.
  split; [exact Hs|]. split; [exact (capacity_eq _ _ _ Hr)|].
  unfold empty, begin_const, end_const, front_const, back_const, index_const,
    begin_const, ptr_add.
  mred. rewrite Hs, Hd. mred. rewrite Hs. rewrite !Z.add_0_l.
  repeat split; reflexivity.
Qed.



(** * Further properties of the member functions *)

(** ** [pop_back] *)

Lemma size_field_no_throw this (f : Z -> Z) w :
  match (s ← get_size_ this; set_size_ this (f s)) w with
  | Throw _ => False
  | _ => True
  end.
Proof.
  unfold get_size_, set_size_, get_obj, put_obj. mred.
  destruct (objs w !! this); [|exact I]. mred.
  destruct (objs w !! this); exact I.
Qed.

Lemma pop_back_unique_no_throw this sh w :
  reps w this sh -> unique sh = true ->
  match pop_back this w with
  | Throw _ => False
  | _ => True
  end.
Proof.
  intros Hr Hu. pose proof Hr as (Ho & Hok & _).
  unfold pop_back. mred. rewrite (data_unique _ _ _ Hr Hu). mred.
  rewrite (size_eq _ _ _ Ho Hok). mred.
  unfold destroy at 1.
  destruct (slot _ w) as [[x|]|]; try exact I.
  match goal with
  | |- context [get_size_ this ?W] =>
      exact (size_field_no_throw this (fun s => u64 (s - 1)) W)
  end.
Qed.

(** X1. pop_back() on a non-empty container removes the last element and
    nothing else: the other elements, the capacity and the mode stay.  It
    can throw only while it privatises a buffer shared with another
    container, and then the container still shows what it showed. *)
Theorem pop_back_removes_last this sh ys x w :
  reps w this sh -> elems sh = ys ++ [x] ->
  match pop_back this w with
  | Ok _ w' =>
      contents this w' = Some ys /\
      value_of (size this) w' = Some (len (elems sh) - 1) /\
      value_of (capacity this) w' = Some (cap_of sh) /\
      value_of (is_small this) w' = Some (is_inline sh)
  | Throw w' =>
      unique sh = false /\ failed w /\
      contents this w' = Some (elems sh) /\
      value_of (capacity this) w' = Some (cap_of sh)
  | Undef => False
  end.
Proof.
  intros Hr He. pose proof (pop_back_spec this sh ys x w Hr He) as H.
  pose proof (pop_back_unique_no_throw this sh w Hr) as Hu.
  destruct (pop_back this w) as [[] w'|w'|]; [| |exact H].
  - destruct H as (sh' & _ & Hr' & He' & Hc & Hi).
    destruct (observe_reps _ _ _ Hr') as (H1 & H2 & H3).
    destruct (observe_mode _ _ _ Hr') as (H4 & _).
    rewrite H1, H2, H3, H4, He', Hc, Hi, He, len_app.
    change (len [x]) with 1. repeat split. f_equal. lia.
  - destruct H as [(sh' & _ & Hr' & He' & Hc & _) Hf].
    destruct (unique sh); [destruct (Hu eq_refl)|].
    destruct (observe_reps _ _ _ Hr') as (H1 & _ & H3).
    rewrite H1, H3, He', Hc. repeat split. exact Hf.
Qed.

(** X2. pop_back() on an empty container is undefined behaviour: it
    destroys the element at index size() - 1, which wraps around to
    2^64 - 1, beyond every buffer. *)
Theorem pop_back_empty_undefined this sh w :
  reps w this sh -> elems sh = [] -> pop_back this w = Undef.
Proof.
  intros Hr He. unfold pop_back. mred.
  pose proof (data_spec this sh w Hr) as Hd.
  destruct (data this w) as [d w1|w1|]; [| |contradiction].
  - destruct Hd as (sh1 & -> & _ & Hr1 & _ & He1 & _).
    pose proof Hr1 as (Ho1 & Hok1 & _).
    rewrite (size_eq _ _ _ Ho1 Hok1), He1, He. mred.
    unfold ptr_add. cbn [blk off].
    change (u64 (len [] - 1)) with (2 ^ 64 - 1).
    unfold destroy.
    rewrite (slot_eq _ _ _ _ (block_array_reps _ _ _ Hr1)) by lia.
    pose proof (ok_cap _ Hok1) as Hcap.
    rewrite lookup_ge_None_2; [reflexivity|].
    rewrite arr_length by lia. lia.
  - destruct Hd as (_ & _ & j & Hj & _). rewrite He in Hj. discriminate.
Qed.

(** X3. push_back(v) followed by pop_back() gives back the content the
    container had: the capacity may have grown, the elements have not
    changed.  The pair can throw only inside push_back, before anything
    changed. *)
Theorem push_back_pop_back_round_trip this sh v w :
  reps w this sh ->
  (len (elems sh) = cap_of sh -> 2 * cap_of sh + 1 < 2 ^ 63) ->
  match (push_back this v;; pop_back this) w with
  | Ok _ w' =>
      contents this w' = Some (elems sh) /\
      value_of (size this) w' = Some (len (elems sh)) /\
      exists c, value_of (capacity this) w' = Some c /\ cap_of sh <= c
  | Throw w' =>
      failed w /\ contents this w' = Some (elems sh) /\
      value_of (capacity this) w' = Some (cap_of sh)
  | Undef => False
  end.
Proof.
  intros Hr Hg. mred.
  pose proof (push_back_spec this sh v w Hr Hg) as H.
  destruct (push_back this v w) as [[] w1|w1|]; [| |exact H].
  - destruct H as (sh1 & _ & Hr1 & He1 & Hu1 & Hcase).
    pose proof (pop_back_spec this sh1 (elems sh) v w1 Hr1 He1) as H2.
    pose proof (pop_back_unique_no_throw this sh1 w1 Hr1 Hu1) as Hnt.
    destruct (pop_back this w1) as [[] w2|w2|];
      [|contradiction|exact H2].
    destruct H2 as (sh2 & _ & Hr2 & He2 & Hc2 & _).
    destruct (observe_reps _ _ _ Hr2) as (H1 & H2 & H3).
    rewrite H1, H2, H3, He2. repeat split.
    exists (cap_of sh2). split; [reflexivity|]. rewrite Hc2.
    destruct (len (elems sh) =? cap_of sh).
    + destruct Hcase as [q ->]. simpl. pose proof (ok_cap _ (proj1 (proj2 Hr))).
      pose proof (len_nonneg (elems sh)). lia.
    + destruct Hcase as [-> _]. lia.
  - destruct H as [(sh' & _ & Hr' & He' & Hc & _) Hf].
    destruct (observe_reps _ _ _ Hr') as (H1 & _ & H3).
    rewrite H1, H3, He', Hc. repeat split. exact Hf.
Qed.

(** ** Copy construction, copy assignment, destruction *)

(** X4. A copy-constructed container shows the source's elements, size,
    capacity and mode, and so does the source afterwards.  Copying a
    Shared source copies no element, cannot throw, and only raises the
    reference count of the buffer by one; copying an Inline source
    copy-constructs its elements one by one, first to last, and a throw
    leaves the world without the new container. *)
Theorem copy_constructor_copies this other sh w :
  reps w other sh -> objs w !! this = None -> not_saturated sh ->
  match copy_constructor this other w with
  | Ok _ w' =>
      contents this w' = Some (elems sh) /\
      contents other w' = Some (elems sh) /\
      value_of (capacity this) w' = Some (cap_of sh) /\
      value_of (is_small this) w' = Some (is_inline sh) /\
      match sh with
      | Inline xs =>
          heap w' = heap w /\
          copies w' = (copies w + length xs)%nat /\
          trace w' = trace w ++ (Construct <$> xs)
      | Shared p cap rc xs =>
          heap w' = <[p := hdr_of cap (rc + 1) xs]> (heap w) /\
          copies w' = copies w /\ trace w' = trace w /\
          value_of (begin_const this) w' = value_of (begin_const other) w'
      end
  | Throw w' =>
      is_inline sh = true /\ failed w /\
      objs w' = objs w /\ heap w' = heap w
  | Undef => False
  end.
Proof.
  intros Hr Hfresh Hsat. pose proof Hr as (Ho & Hok & Hb).
  assert (Hne : this <> other) by (intros E; rewrite E in Hfresh; congruence).
  rewrite (copy_constructor_eq this other sh w Hr Hne Hsat).
  destruct sh as [xs|p cap rc xs].
  - destruct (first_fail (copies w) (length xs)) as [j|] eqn:Hf.
    + split; [reflexivity|].
      split; [eapply failed_first_fail; exact Hf|].
      split; [apply delete_id; exact Hfresh|reflexivity].
    + set (w1 := World _ _ _ _).
      assert (Hr1 : reps w1 this (Inline xs)).
      { split; [apply lookup_insert_eq|split; assumption]. }
      assert (Hr2 : reps w1 other (Inline xs)).
      { split; [|split; assumption].
        unfold w1. red_world. rewrite lookup_insert_ne by exact Hne. exact Ho. }
      destruct (observe_reps _ _ _ Hr1) as (H1 & _ & H3).
      destruct (observe_mode _ _ _ Hr1) as (H4 & _).
      rewrite H1, H3, H4, (contents_reps _ _ _ Hr2). repeat split.
  - simpl in Hok, Hb, Hsat.
    set (w1 := World _ _ _ _). set (sh1 := Shared p cap (rc + 1) xs).
    assert (Hr1 : reps w1 this sh1).
    { split; [apply lookup_insert_eq|].
      split; [simpl; lia|simpl; apply lookup_insert_eq]. }
    assert (Hr2 : reps w1 other sh1).
    { split; [|split; [simpl; lia|simpl; apply lookup_insert_eq]].
      unfold w1. red_world. rewrite lookup_insert_ne by exact Hne. exact Ho. }
    destruct (observe_reps _ _ _ Hr1) as (H1 & _ & H3).
    destruct (observe_mode _ _ _ Hr1) as (H4 & H5).
    destruct (observe_mode _ _ _ Hr2) as (_ & H6).
    rewrite H1, H3, H4, H5, H6, (contents_reps _ _ _ Hr2). repeat split.
Qed.

(** X5. Copy assignment.  a = a does nothing.  When a = b returns for
    distinct containers, [a] shows b's elements, size, capacity and mode,
    and [b] shows what it showed before.  The assignment can only fail,
    by a throw or by undefined behaviour, after an element copy threw. *)
Theorem operator_assign_copies this other sht sho w :
  reps w this sht -> reps w other sho -> this <> other ->
  not_saturated sht -> two_refs_free sho ->
  operator_assign this this w = Ok tt w /\
  match operator_assign this other w with
  | Ok _ w' =>
      contents this w' = Some (elems sho) /\
      contents other w' = Some (elems sho) /\
      value_of (capacity this) w' = Some (cap_of sho) /\
      value_of (capacity other) w' = Some (cap_of sho) /\
      value_of (is_small this) w' = Some (is_inline sho) /\
      value_of (is_small other) w' = Some (is_inline sho)
  | Throw _ => failed w
  | Undef => failed w
  end /\
  ((forall k, copy_fails k = false) ->
   exists w', operator_assign this other w = Ok tt w').
Proof.
  intros Hrt Hro Hne Hst Hfree.
  split; [apply operator_assign_self|].
  pose proof (operator_assign_spec this other sht sho w Hrt Hro Hne Hst Hfree)
    as H.
  destruct (operator_assign this other w) as [[] w'|w'|].
  - split; [|intros _; exists w'; reflexivity].
    destruct H as [(s1 & Hr1 & He1 & Hc1 & Hi1) (s2 & Hr2 & He2 & Hc2 & Hi2)].
    destruct (observe_reps _ _ _ Hr1) as (A1 & _ & A3).
    destruct (observe_mode _ _ _ Hr1) as (A4 & _).
    destruct (observe_reps _ _ _ Hr2) as (B1 & _ & B3).
    destruct (observe_mode _ _ _ Hr2) as (B4 & _).
    rewrite A1, A3, A4, B1, B3, B4, He1, Hc1, Hi1, He2, Hc2, Hi2.
    repeat split.
  - split; [exact (proj1 H)|].
    intros Hno. destruct (not_failed w Hno (proj1 H)).
  - split; [exact H|]. intros Hno. destruct (not_failed w Hno H).
Qed.

(** X6. The destructor.  An Inline container destroys its elements, last
    one first.  The last container on a heap buffer destroys the
    elements, last one first, and frees the buffer.  A container that
    shares its buffer destroys nothing and lowers the reference count by
    one.  The destructor never throws, and every other container keeps
    its elements, capacity and mode. *)
Theorem destructor_releases this sh other sho w :
  reps w this sh -> reps w other sho -> other <> this -> compat sh sho ->
  exists w',
    (destructor this;; delete_obj this) w = Ok tt w' /\
    objs w' = delete this (objs w) /\
    copies w' = copies w /\
    match sh with
    | Inline xs =>
        heap w' = heap w /\ trace w' = trace w ++ (Destroy <$> reverse xs)
    | Shared p cap rc xs =>
        if rc =? 1
        then heap w' = delete p (heap w) /\
             trace w' = trace w ++ (Destroy <$> reverse xs)
        else heap w' = <[p := hdr_of cap (rc - 1) xs]> (heap w) /\
             trace w' = trace w
    end /\
    contents other w' = Some (elems sho) /\
    value_of (capacity other) w' = Some (cap_of sho) /\
    value_of (is_small other) w' = Some (is_inline sho).
Proof.
  intros Hr Hro Hne Hcompat. mred.
  rewrite (destructor_eq this sh w Hr). mred. unfold delete_obj. mred.
  eexists. split; [reflexivity|]. red_world.
  split; [apply delete_insert_eq|]. split; [reflexivity|].
  split.
  { destruct sh as [xs|p cap rc xs]; simpl.
    - split; reflexivity.
    - destruct (rc =? 1); split; try reflexivity. apply app_nil_r. }
  destruct (destructor_frame this sh
              (obj_n (len (elems sh)) (with_elems sh [])) other sho w
              (copies w)
              (trace w ++ (if unique sh then Destroy <$> reverse (elems sh)
                           else []))
              Hr Hro Hne Hcompat) as (sho' & Hro' & He & Hc & Hi).
  destruct (observe_reps _ _ _ Hro') as (H1 & _ & H3).
  destruct (observe_mode _ _ _ Hro') as (H4 & _).
  rewrite H1, H3, H4, He, Hc, Hi. repeat split.
Qed.

(** ** Element access *)

Lemma arr_lookup_beyond cap (xs : list T) (n : nat) x :
  (length xs <= n)%nat -> arr cap xs !! n <> Some (Some x).
Proof.
  intros Hn. unfold arr.
  rewrite lookup_app_r by (rewrite length_fmap; exact Hn).
  intros H. apply lookup_replicate in H. destruct H as [H _]. discriminate.
Qed.

Lemma load_beyond this sh i w :
  reps w this sh -> len (elems sh) <= i ->
  load (Ptr (block_of this sh) i) w = Undef.
Proof.
  intros Hr Hi. pose proof (len_nonneg (elems sh)) as Hl.
  unfold load. rewrite (slot_eq _ _ _ _ (block_array_reps _ _ _ Hr)) by lia.
  destruct (arr (cap_of sh) (elems sh) !! Z.to_nat i) as [[x|]|] eqn:E;
    try reflexivity.
  exfalso. apply (arr_lookup_beyond (cap_of sh) (elems sh) (Z.to_nat i) x);
    [unfold len in *; lia|exact E].
Qed.

(** X7. Reading through the const accessors.  The const operator[] with
    an index below size() returns that element and changes nothing, not
    even for a shared buffer; with an index from size() on it is undefined
    behaviour.  front() and back() read the first and the last element,
    and are undefined on an empty container.  end() is begin() plus
    size(). *)
Theorem const_access_reads this sh w :
  reps w this sh ->
  (forall (i : nat) x, elems sh !! i = Some x ->
     at_const this (Z.of_nat i) w = Ok x w) /\
  (forall i, len (elems sh) <= i -> at_const this i w = Undef) /\
  (b ← front_const this; load b) w =
    match elems sh with [] => Undef | x :: _ => Ok x w end /\
  (b ← back_const this; load b) w =
    match last (elems sh) with None => Undef | Some x => Ok x w end /\
  end_const this w = (b ← begin_const this; mret (ptr_add b (len (elems sh)))) w.
Proof.
  intros Hr.
  destruct (const_accessors_pure _ _ _ Hr)
    as (_ & _ & _ & _ & Hbegin & Hend & Hfront & Hback & Hindex).
  pose proof (block_array_reps _ _ _ Hr) as Hba.
  split; [intros i x Hx; exact (at_const_reps _ _ _ _ _ Hr Hx)|].
  split.
  { intros i Hi. unfold at_const. mred. rewrite Hindex. mred.
    exact (load_beyond _ _ _ _ Hr Hi). }
  split.
  { mred. rewrite Hfront. mred. destruct (elems sh) as [|x xs] eqn:E.
    - apply (load_beyond _ _ _ _ Hr). rewrite E. reflexivity.
    - apply (load_eq _ _ _ _ _ Hba); [lia|].
      apply arr_lookup_live. first [rewrite E; reflexivity|reflexivity]. }
  split.
  { mred. rewrite Hback. mred. destruct (last (elems sh)) as [x|] eqn:E.
    - apply last_Some in E as [ys E].
      apply (load_eq _ _ _ _ _ Hba).
      + rewrite E, len_app. change (len [x]) with 1.
        pose proof (len_nonneg ys). lia.
      + rewrite E, len_app. change (len [x]) with 1.
        replace (Z.to_nat (len ys + 1 - 1)) with (length ys)
          by (unfold len; lia).
        apply arr_lookup_end.
    - apply last_None in E. rewrite E. unfold load, slot. reflexivity. }
  mred. rewrite Hend, Hbegin. mred. unfold ptr_add. cbn [blk off].
  rewrite Z.add_0_l. reflexivity.
Qed.

(** X8. Writing [c[i] = x] through the mutable operator[] with i below
    size() replaces element [i] and no other; size, capacity and mode
    stay.  If the privatisation of a shared buffer or the assignment
    throws, the container shows what it showed before. *)
Theorem store_at_writes this sh (i : nat) x w :
  reps w this sh -> (i < length (elems sh))%nat ->
  match store_at this (Z.of_nat i) x w with
  | Ok _ w' =>
      contents this w' = Some (<[i := x]> (elems sh)) /\
      value_of (at_const this (Z.of_nat i)) w' = Some x /\
      value_of (size this) w' = Some (len (elems sh)) /\
      value_of (capacity this) w' = Some (cap_of sh) /\
      value_of (is_small this) w' = Some (is_inline sh)
  | Throw w' =>
      failed w /\ contents this w' = Some (elems sh) /\
      value_of (capacity this) w' = Some (cap_of sh)
  | Undef => False
  end.
Proof.
  intros Hr Hi. pose proof (store_at_spec this sh i x w Hr Hi) as H.
  destruct (store_at this (Z.of_nat i) x w) as [[] w'|w'|]; [| |exact H].
  - destruct H as (sh' & _ & Hr' & He & Hc & Hin).
    destruct (observe_reps _ _ _ Hr') as (H1 & H2 & H3).
    destruct (observe_mode _ _ _ Hr') as (H4 & _).
    assert (Hx : elems sh' !! i = Some x).
    { rewrite He. apply list_lookup_insert_eq. exact Hi. }
    unfold value_of at 1. rewrite (at_const_reps _ _ _ _ _ Hr' Hx).
    rewrite H1, H2, H3, H4, He, Hc, Hin. unfold len.
    rewrite length_insert. repeat split.
  - destruct H as [(sh' & _ & Hr' & He' & Hc & _) Hf].
    destruct (observe_reps _ _ _ Hr') as (H1 & _ & H3).
    rewrite H1, H3, He', Hc. repeat split. exact Hf.
Qed.

(** X9. The mutable data() privatises once.  When it returns, the
    container is the only holder of its buffer, shows the same elements
    and capacity, and a second call returns the same pointer and changes
    nothing.  On a container that already was the only holder the first
    call changes nothing either.  It throws only for a shared buffer, and
    then objects and heap are as before. *)
Theorem data_privatises_once this sh w :
  reps w this sh ->
  match data this w with
  | Ok d w1 =>
      data this w1 = Ok d w1 /\
      value_of (is_unique this) w1 = Some true /\
      value_of (begin_const this) w1 = Some d /\
      contents this w1 = Some (elems sh) /\
      value_of (capacity this) w1 = Some (cap_of sh) /\
      (unique sh = true -> w1 = w)
  | Throw w1 =>
      unique sh = false /\ failed w /\ objs w1 = objs w /\ heap w1 = heap w
  | Undef => False
  end.
Proof.
  intros Hr. pose proof (data_spec this sh w Hr) as H.
  destruct (data this w) as [d w1|w1|]; [| |exact H].
  - destruct H as (sh1 & -> & _ & Hr1 & Hu1 & He1 & Hc1 & _ & Hsame).
    destruct (observe_reps _ _ _ Hr1) as (H1 & _ & H3).
    destruct (observe_mode _ _ _ Hr1) as (_ & H5).
    split; [exact (data_unique _ _ _ Hr1 Hu1)|].
    unfold value_of at 1. rewrite (is_unique_eq _ _ _ Hr1), Hu1.
    rewrite H1, H3, H5, He1, Hc1. repeat split.
    intros Hu. exact (proj1 (Hsame Hu)).
  - destruct H as (Hf & Hu & j & _ & ->). repeat split; assumption.
Qed.

(** ** [swap] twice, [erase(pos)], [push_back] in place *)

(** X10. Swapping twice gives both containers back what they held: when
    a.swap(b); a.swap(b) returns, [a] and [b] have the representation,
    and so the elements, size and capacity, they started with. *)
Theorem swap_twice_restores this other sht sho w :
  reps w this sht -> reps w other sho -> this <> other ->
  not_saturated sht -> not_saturated sho ->
  match (swap this other;; swap this other) w with
  | Ok _ w' =>
      reps w' this sht /\ reps w' other sho /\
      contents this w' = contents this w /\
      contents other w' = contents other w /\
      value_of (capacity this) w' = value_of (capacity this) w /\
      value_of (capacity other) w' = value_of (capacity other) w /\
      heap w' = heap w
  | Throw _ => failed w
  | Undef => False
  end.
Proof.
  intros Hrt Hro Hne Hst Hso. mred.
  pose proof (swap_spec this other sht sho w Hrt Hro Hne Hst Hso) as Hsp.
  pose proof (swap_exchanges this other sht sho w Hrt Hro Hne Hst Hso) as H1.
  destruct (swap this other w) as [[] w1|w1|]; [|exact (proj1 H1)|exact H1].
  destruct H1 as (Hrt1 & Hro1 & Hh1 & _).
  destruct Hsp as (c & t & Hc & Hw1).
  pose proof (swap_exchanges this other sho sht w1 Hrt1 Hro1 Hne Hso Hst) as H2.
  destruct (swap this other w1) as [[] w2|w2|]; [| |exact H2].
  - destruct H2 as (Hrt2 & Hro2 & Hh2 & _).
    destruct (observe_reps _ _ _ Hrt) as (A1 & _ & A3).
    destruct (observe_reps _ _ _ Hro) as (B1 & _ & B3).
    destruct (observe_reps _ _ _ Hrt2) as (C1 & _ & C3).
    destruct (observe_reps _ _ _ Hro2) as (D1 & _ & D3).
    rewrite A1, A3, B1, B3, C1, C3, D1, D3.
    split; [exact Hrt2|]. split; [exact Hro2|].
    repeat (split; [reflexivity|]). congruence.
  - eapply failed_mono; [|exact (proj1 H2)]. rewrite Hw1. red_world. exact Hc.
Qed.


(** X12. erase(end()) never returns: its loop starts one past end() and
    cannot meet it.  The call is undefined behaviour, unless the
    privatisation of a shared buffer throws first. *)
Theorem erase_at_end_undefined this sh w :
  reps w this sh ->
  match erase_at this (Ptr (block_of this sh) (len (elems sh))) w with
  | Ok _ _ => False
  | Throw w' =>
      unique sh = false /\ failed w /\ objs w' = objs w /\ heap w' = heap w
  | Undef => True
  end.
Proof.
  intros Hr. pose proof Hr as (Ho & Hok & Hb).
  unfold erase_at, erase, begin_const, begin, ptr_add. cbn [blk off]. mred.
  rewrite (data_const_eq _ _ _ Ho Hok). mred.
  unfold ptr_diff. cbn [blk off]. mred.
  destruct (decide (block_of this sh = block_of this sh)) as [_|]; [|contradiction].
  mred.
  pose proof (data_spec this sh w Hr) as Hd.
  destruct (data this w) as [d w1|w1|] eqn:Hdata; [| |exact I].
  - destruct Hd as (sh1 & -> & _ & Hr1 & Hu1 & He1 & _).
    rewrite (end_unique _ _ _ Hr1 Hu1). mred. cbn [blk off]. rewrite He1.
    replace (Z.to_nat (len (elems sh) -
               (0 + (len (elems sh) - 0) + (len (elems sh) + 1 - len (elems sh)))))
      with 0%nat by lia.
    simpl erase_loop. mred. rewrite (end_unique _ _ _ Hr1 Hu1). mred.
    rewrite He1.
    destruct (decide _) as [E|_]; [|exact I].
    injection E as E. lia.
  - destruct Hd as (Hf & Hu & j & _ & ->). repeat split; assumption.
Qed.

Lemma push_back_in_place this sh v w :
  reps w this sh -> unique sh = true -> len (elems sh) < cap_of sh ->
  push_back this v w =
  if copy_fails (copies w)
  then Throw (World (objs w) (heap w) (S (copies w)) (trace w))
  else Ok tt (put_shape this (len (elems sh ++ [v]))
                (with_elems sh (elems sh ++ [v]))
                (S (copies w)) (trace w ++ [Construct v]) w).
Proof.
  intros Hr Hu Hroom. pose proof Hr as (Ho & Hok & Hb).
  pose proof (len_nonneg (elems sh)) as Hlen.
  pose proof (ok_cap _ Hok) as Hcap.
  pose proof (block_array_reps _ _ _ Hr) as Hba.
  unfold push_back. mred.
  rewrite (size_eq _ _ _ Ho Hok). mred.
  rewrite (capacity_eq _ _ _ Hr). mred.
  destruct (Z.eqb_spec (len (elems sh)) (cap_of sh)) as [|_]; [lia|].
  rewrite (data_unique _ _ _ Hr Hu). mred.
  unfold ptr_add. mred. rewrite Z.add_0_l.
  rewrite (copy_construct_eq _ _ _ v _ Hba Hlen);
    [|rewrite arr_length by lia; unfold len in *; lia].
  destruct (copy_fails (copies w)).
  { rewrite (upd_keep _ _ _ _ _ Hba). reflexivity. }
  unfold len at 1. rewrite Nat2Z.id, arr_push by lia.
  rewrite (upd_block this (len (elems sh)) sh _ _ _ w Ho Hb). mred.
  erewrite get_size_eq by apply objs_put_shape. mred.
  rewrite size_field_obj_n, is_inline_with_elems.
  rewrite <- Z.add_assoc.
  rewrite u64_small by (apply tag_bound; lia).
  rewrite set_size_put_shape_with.
  rewrite len_app. reflexivity.
Qed.

(** X13. push_back on a container that is the only holder of its
    storage and has room left works in place: exactly one element copy
    is made, begin() and the capacity do not change, and every element
    already there is still read at its index.  If that copy throws,
    objects and heap are untouched. *)
Theorem push_back_keeps_storage this sh v w :
  reps w this sh -> unique sh = true -> len (elems sh) < cap_of sh ->
  match push_back this v w with
  | Ok _ w' =>
      copy_fails (copies w) = false /\
      copies w' = S (copies w) /\
      trace w' = trace w ++ [Construct v] /\
      value_of (begin_const this) w' = value_of (begin_const this) w /\
      value_of (capacity this) w' = value_of (capacity this) w /\
      contents this w' = Some (elems sh ++ [v]) /\
      (forall (i : nat) x, elems sh !! i = Some x ->
         at_const this (Z.of_nat i) w' = Ok x w')
  | Throw w' =>
      copy_fails (copies w) = true /\ objs w' = objs w /\ heap w' = heap w /\
      trace w' = trace w
  | Undef => False
  end.
Proof.
  intros Hr Hu Hroom. rewrite (push_back_in_place _ _ _ _ Hr Hu Hroom).
  destruct (copy_fails (copies w)); [repeat split|].
  set (sh' := with_elems sh (elems sh ++ [v])).
  set (w' := put_shape _ _ _ _ _ _).
  assert (Hr' : reps w' this sh').
  { apply reps_put_shape_with; [exact (proj1 (proj2 Hr))|].
    rewrite len_app. change (len [v]) with 1. lia. }
  destruct (observe_reps _ _ _ Hr') as (H1 & _ & H3).
  destruct (observe_mode _ _ _ Hr') as (_ & H5).
  destruct (observe_reps _ _ _ Hr) as (_ & _ & A3).
  destruct (observe_mode _ _ _ Hr) as (_ & A5).
  rewrite H1, H3, H5, A3, A5. unfold sh'.
  rewrite elems_with_elems, cap_of_with_elems, block_of_with_elems.
  repeat split.
  intros i x Hx. apply (at_const_reps _ _ _ _ _ Hr').
  unfold sh'. rewrite elems_with_elems. apply lookup_app_l_Some. exact Hx.
Qed.

(** ** Sequences of calls against the list model *)



(** ** [insert] past the end *)

Lemma swap_elems_no_throw p q w :
  match swap_elems p q w with
  | Throw _ => False
  | _ => True
  end.
Proof.
  unfold swap_elems. destruct (slot p w) as [[x|]|]; try exact I.
  destruct (slot q w) as [[y|]|]; exact I.
Qed.

Lemma insert_loop_never_meets b j fuel : forall k w,
  k < j ->
  match insert_loop fuel (Ptr b k) (Ptr b j) w with
  | Undef => True
  | _ => False
  end.
Proof.
  induction fuel as [|fuel IH]; intros k w Hk; simpl insert_loop;
    (destruct (decide (Ptr b k = Ptr b j)) as [E|_];
     [injection E as E; lia|]).
  - exact I.
  - mred. pose proof (swap_elems_no_throw (Ptr b k) (ptr_add (Ptr b k) (-1)) w) as H.
    destruct (swap_elems _ _ w) as [[] w1|w1|]; [|contradiction|exact I].
    unfold ptr_add. cbn [blk off]. apply IH. lia.
Qed.

(** X15. insert(pos, v) with [pos] beyond end() never returns: after the
    push_back, the loop that carries the new element towards [pos] moves
    away from it and walks off the front of the buffer.  The call is
    undefined behaviour, unless push_back throws first. *)
Theorem insert_past_end_undefined this sh i v w :
  reps w this sh -> len (elems sh) < i ->
  (len (elems sh) = cap_of sh -> 2 * cap_of sh + 1 < 2 ^ 63) ->
  match insert this (Ptr (block_of this sh) i) v w with
  | Ok _ _ => False
  | Throw _ => failed w
  | Undef => True
  end.
Proof.
  intros Hr Hi Hg. pose proof Hr as (Ho & Hok & Hb).
  unfold insert, begin_const, begin. mred.
  rewrite (data_const_eq _ _ _ Ho Hok). mred.
  unfold ptr_diff. cbn [blk off]. mred.
  destruct (decide (block_of this sh = block_of this sh)) as [_|]; [|contradiction].
  mred.
  pose proof (push_back_spec this sh v w Hr Hg) as H.
  destruct (push_back this v w) as [[] w1|w1|]; [|exact (proj2 H)|exact I].
  destruct H as (sh1 & _ & Hr1 & He1 & Hu1 & _).
  rewrite (data_unique _ _ _ Hr1 Hu1). mred.
  rewrite (end_unique _ _ _ Hr1 Hu1). mred.
  unfold ptr_add. cbn [blk off].
  pose proof (insert_loop_never_meets (block_of this sh1) (0 + (i - 0))
                (Z.to_nat (len (elems sh1) + -1)) (len (elems sh1) + -1) w1)
    as Hloop.
  destruct (insert_loop _ _ _ w1); try exact I; exfalso; apply Hloop;
    rewrite He1, len_app; change (len [v]) with 1; lia.
Qed.

(** ** Reference counts *)

Lemma holders_delete p k (o : gmap nat socow_vector) :
  (holders p (delete k o) +
   match o !! k with Some c => flag (is_large_at p c) | None => 0 end)%nat
  = holders p o.
Proof.
  unfold holders. rewrite map_filter_delete, map_size_delete.
  set (P := fun kv : nat * socow_vector => is_large_at p kv.2 = true).
  destruct (o !! k) as [c|] eqn:Hk.
  - destruct (is_large_at p c) eqn:Hf; simpl flag.
    + assert (Hin : filter P o !! k = Some c).
      { apply map_lookup_filter_Some. split; [exact Hk|exact Hf]. }
      rewrite Hin.
      assert (Hne : base.size (filter P o) <> 0%nat).
      { apply (map_size_ne_0_lookup_2 _ k). rewrite Hin. eexists. reflexivity. }
      simpl. lia.
    + assert (Hout : filter P o !! k = None).
      { apply map_lookup_filter_None. right. intros x Hx.
        rewrite Hk in Hx. injection Hx as <-. unfold P. simpl. congruence. }
      rewrite Hout. simpl. lia.
  - assert (Hout : filter P o !! k = None).
    { apply map_lookup_filter_None. left. exact Hk. }
    rewrite Hout. simpl. lia.
Qed.

Lemma holders_insert_fresh p k c (o : gmap nat socow_vector) :
  o !! k = None ->
  holders p (<[k := c]> o) = (holders p o + flag (is_large_at p c))%nat.
Proof.
  intros Hk. unfold holders. rewrite map_filter_insert.
  destruct (decide _) as [Hf|Hf]; simpl in Hf.
  - rewrite map_size_insert_None
      by (apply map_lookup_filter_None; left; exact Hk).
    rewrite Hf. simpl. lia.
  - rewrite delete_id by exact Hk.
    destruct (is_large_at p c); [contradiction|]. simpl. lia.
Qed.

Lemma holders_insert p k c' (o : gmap nat socow_vector) :
  (holders p (<[k := c']> o) +
   match o !! k with Some c => flag (is_large_at p c) | None => 0 end)%nat
  = (holders p o + flag (is_large_at p c'))%nat.
Proof.
  rewrite <- (insert_delete_eq o).
  rewrite holders_insert_fresh by apply lookup_delete_eq.
  pose proof (holders_delete p k o). lia.
Qed.

Lemma holders_swap p a b ca cb (o : gmap nat socow_vector) :
  a <> b -> o !! a = Some ca -> o !! b = Some cb ->
  holders p (<[b := Vec (size_ ca) (store cb)]>
               (<[a := Vec (size_ cb) (store ca)]> o)) = holders p o.
Proof.
  intros Hne Ha Hb.
  pose proof (holders_insert p b (Vec (size_ ca) (store cb))
                (<[a := Vec (size_ cb) (store ca)]> o)) as H1.
  rewrite lookup_insert_ne, Hb in H1 by congruence.
  pose proof (holders_insert p a (Vec (size_ cb) (store ca)) o) as H2.
  rewrite Ha in H2. unfold is_large_at in *. cbn [store] in *. lia.
Qed.

















(** ** [clear] in place, capacity requests made twice, [reserve] before
    [push_back], a copy that is destroyed again *)

Lemma clear_unique_eq this sh w :
  reps w this sh -> unique sh = true ->
  clear this w =
  Ok tt (put_shape this 0 (with_elems sh []) (copies w)
           (trace w ++ (Destroy <$> reverse (elems sh))) w).
Proof.
  intros Hr Hu. pose proof Hr as (Ho & Hok & Hb).
  pose proof (ok_cap _ Hok) as Hcap.
  pose proof (len_nonneg (elems sh)) as Hlen.
  unfold clear. mred. rewrite (is_unique_eq _ _ _ Hr), Hu. mred.
  unfold destruct_data. mred.
  rewrite (data_unique _ _ _ Hr Hu). mred.
  rewrite (size_eq _ _ _ Ho Hok). mred.
  rewrite (destruct_array_all _ _ _ _ (block_array_reps _ _ _ Hr)) by lia.
  rewrite (upd_block this (len (elems sh)) sh [] _ _ w Ho Hb). mred.
  erewrite get_size_eq by apply objs_put_shape. mred.
  rewrite size_field_obj_n, is_inline_with_elems.
  rewrite land_tag_STATE_BIT by lia.
  rewrite set_size_put_shape_with. reflexivity.
Qed.

(** X18. clear() on a container that is the only holder of its storage
    works in place: it destroys the elements, last one first, copies
    none, and keeps the buffer, so begin() and capacity() are the ones
    before the call. *)
Theorem clear_destroys_in_reverse this sh w :
  reps w this sh -> unique sh = true ->
  exists w',
    clear this w = Ok tt w' /\
    trace w' = trace w ++ (Destroy <$> reverse (elems sh)) /\
    copies w' = copies w /\
    contents this w' = Some [] /\
    value_of (begin_const this) w' = value_of (begin_const this) w /\
    value_of (capacity this) w' = value_of (capacity this) w /\
    value_of (is_unique this) w' = Some true.
Proof.
  intros Hr Hu. rewrite (clear_unique_eq _ _ _ Hr Hu).
  eexists. split; [reflexivity|].
  set (w' := put_shape _ _ _ _ _ _).
  assert (Hr' : reps w' this (with_elems sh [])).
  { apply (reps_put_shape_with this sh []); [exact (proj1 (proj2 Hr))|].
    pose proof (ok_cap _ (proj1 (proj2 Hr))).
    pose proof (len_nonneg (elems sh)). change (len []) with 0. lia. }
  destruct (observe_reps _ _ _ Hr') as (H1 & _ & H3).
  destruct (observe_mode _ _ _ Hr') as (_ & H5).
  destruct (observe_reps _ _ _ Hr) as (_ & _ & A3).
  destruct (observe_mode _ _ _ Hr) as (_ & A5).
  unfold value_of at 5. rewrite (is_unique_eq _ _ _ Hr').
  rewrite H1, H3, H5, A3, A5.
  rewrite elems_with_elems, cap_of_with_elems, block_of_with_elems,
    unique_with_elems, Hu.
  repeat split.
Qed.

Lemma shrink_to_fit_noop this sh w :
  reps w this sh ->
  is_inline sh || (len (elems sh) =? cap_of sh) = true ->
  shrink_to_fit this w = Ok tt w.
Proof.
  intros Hr Hc. pose proof Hr as (Ho & Hok & Hb).
  unfold shrink_to_fit. mred. rewrite (is_small_eq _ _ _ Ho Hok). mred.
  destruct sh as [xs|p cap rc xs]; [reflexivity|].
  cbn [is_inline orb elems cap_of] in *. simpl in Hb.
  rewrite (size_eq _ _ _ Ho Hok). mred.
  rewrite (get_large_data_eq _ _ _ _ Ho). mred.
  rewrite (get_hdr_eq _ _ _ Hb). mred. unfold hdr_of. cbn [capacity_].
  rewrite Hc. reflexivity.
Qed.

Lemma reserve_noop this sh n w :
  reps w this sh ->
  (negb (unique sh) && (len (elems sh) <? n)) || (cap_of sh <? n) = false ->
  reserve this n w = Ok tt w.
Proof.
  intros Hr Hc. pose proof Hr as (Ho & Hok & Hb).
  unfold reserve. mred. rewrite (is_unique_eq _ _ _ Hr). mred.
  rewrite (size_eq _ _ _ Ho Hok). mred.
  rewrite (capacity_eq _ _ _ Hr). mred. rewrite Hc. reflexivity.
Qed.

(** X19. Asking twice changes nothing more.  When shrink_to_fit()
    returns, a second shrink_to_fit() leaves the world as it is; when
    reserve(n) returns, a second reserve(n) leaves the world as it is. *)
Theorem capacity_requests_idempotent this sh n w :
  reps w this sh -> 0 <= n < 2 ^ 63 ->
  match shrink_to_fit this w with
  | Ok _ w' => shrink_to_fit this w' = Ok tt w'
  | _ => True
  end /\
  match reserve this n w with
  | Ok _ w' => reserve this n w' = Ok tt w'
  | _ => True
  end.
Proof.
  intros Hr Hn. pose proof (ok_cap _ (proj1 (proj2 Hr))) as Hcap. split.
  - pose proof (shrink_to_fit_spec this sh w Hr) as H.
    destruct (shrink_to_fit this w) as [[] w'|w'|]; try exact I.
    destruct H as (sh' & _ & Hr' & _ & Hcase).
    apply (shrink_to_fit_noop this sh' w' Hr').
    destruct (is_inline sh || (len (elems sh) =? cap_of sh)) eqn:E.
    + destruct Hcase as [_ ->]. exact E.
    + destruct (len (elems sh) <=? SMALL_SIZE).
      * rewrite Hcase. reflexivity.
      * destruct Hcase as [q ->]. cbn [is_inline elems cap_of orb].
        apply Z.eqb_refl.
  - pose proof (reserve_spec this sh n w Hr Hn) as H.
    destruct (reserve this n w) as [[] w'|w'|]; try exact I.
    destruct H as (sh' & _ & Hr' & _ & Hle & Hcase).
    apply (reserve_noop this sh' n w' Hr').
    destruct ((negb (unique sh) && (len (elems sh) <? n)) || (cap_of sh <? n))
      eqn:E.
    + assert (Hu : unique sh' = true).
      { destruct (n <=? SMALL_SIZE); [rewrite Hcase; reflexivity|].
        destruct Hcase as [q ->]. reflexivity. }
      rewrite Hu. cbn [negb andb orb]. apply Z.ltb_ge. exact Hle.
    + destruct Hcase as [_ ->]. exact E.
Qed.


(** X21. A copy that is destroyed again leaves no trace on the objects
    and the heap: after copy-constructing [c] from a container and
    destroying [c], every container and every heap buffer, reference
    counts included, is as before.  For an Inline source the elements
    were copied and the copies destroyed, last one first; for a Shared
    source no element was touched. *)
Theorem copy_then_destroy_restores c other sh w :
  reps w other sh -> objs w !! c = None -> not_saturated sh ->
  match (copy_constructor c other;; destructor c;; delete_obj c) w with
  | Ok _ w' =>
      objs w' = objs w /\ heap w' = heap w /\
      trace w' =
        trace w ++
        (if is_inline sh
         then (Construct <$> elems sh) ++ (Destroy <$> reverse (elems sh))
         else [])
  | Throw w' =>
      is_inline sh = true /\ failed w /\ objs w' = objs w /\ heap w' = heap w
  | Undef => False
  end.
Proof.
  intros Hr Hc Hsat. pose proof Hr as (Ho & Hok & Hb).
  assert (Hne : c <> other) by (intros E; rewrite E in Hc; congruence).
  mred. rewrite (copy_constructor_eq c other sh w Hr Hne Hsat).
  destruct sh as [xs|p cap rc xs].
  - destruct (first_fail (copies w) (length xs)) as [j|] eqn:Hf.
    + split; [reflexivity|].
      split; [eapply failed_first_fail; exact Hf|].
      split; [apply delete_id; exact Hc|reflexivity].
    + set (w1 := World _ _ _ _).
      assert (Hr1 : reps w1 c (Inline xs)).
      { split; [apply lookup_insert_eq|split; assumption]. }
      rewrite (destructor_eq c (Inline xs) w1 Hr1). mred.
      unfold delete_obj. mred. unfold w1. red_world.
      split; [|split; [reflexivity|]].
      * rewrite insert_insert_eq, delete_insert_eq. apply delete_id. exact Hc.
      * cbn [unique is_inline elems]. rewrite <- app_assoc. reflexivity.
  - simpl in Hok, Hb, Hsat.
    set (w1 := World _ _ _ _). set (sh1 := Shared p cap (rc + 1) xs).
    assert (Hr1 : reps w1 c sh1).
    { split; [apply lookup_insert_eq|].
      split; [simpl; lia|simpl; apply lookup_insert_eq]. }
    rewrite (destructor_eq c sh1 w1 Hr1). mred.
    unfold delete_obj. mred. unfold w1, sh1. red_world.
    cbn [unique is_inline elems released heap].
    destruct (Z.eqb_spec (rc + 1) 1) as [|_]; [lia|].
    replace (rc + 1 - 1) with rc by lia.
    split; [|split].
    + rewrite insert_insert_eq, delete_insert_eq. apply delete_id. exact Hc.
    + rewrite insert_insert_eq. apply insert_id. exact Hb.
    + reflexivity.
Qed.

(** ** What privatisation and a heap/heap [swap] do to the heap *)

(** X22. Privatisation of a shared buffer.  When the mutable data() is
    called on a container that shares its buffer and no element copy
    throws, it allocates one buffer of the same capacity, copy-constructs
    the size() elements into it, first to last, and makes no other copy;
    the old buffer keeps its elements for the other holders, with one
    reference fewer, and the new buffer has exactly one. *)
Theorem data_privatises_by_copy this p cap rc xs w :
  reps w this (Shared p cap rc xs) -> rc <> 1 ->
  first_fail (copies w) (length xs) = None ->
  exists q w',
    data this w = Ok (Ptr (data_of q) 0) w' /\
    heap w !! q = None /\ q <> p /\
    heap w' !! q = Some (hdr_of cap 1 xs) /\
    heap w' !! p = Some (hdr_of cap (rc - 1) xs) /\
    (forall r, r <> p -> r <> q -> heap w' !! r = heap w !! r) /\
    copies w' = (copies w + length xs)%nat /\
    trace w' = trace w ++ (Construct <$> xs) /\
    reps w' this (Shared q cap 1 xs).
Proof.
  intros Hr Hrc Hf. pose proof Hr as (Ho & Hok & Hb). simpl in Hok, Hb.
  rewrite (data_shared _ _ _ _ _ _ Hr Hrc). cbv zeta. rewrite Hf.
  set (q := fresh (dom (heap w))).
  assert (Hq : heap w !! q = None) by apply fresh_heap_None.
  assert (Hqp : q <> p) by (intros E; rewrite E in Hq; congruence).
  exists q. eexists. split; [reflexivity|].
  split; [exact Hq|]. split; [exact Hqp|].
  unfold put_shape. red_world. cbn [heap_with released heap].
  destruct (Z.eqb_spec rc 1) as [|_]; [contradiction|].
  split; [apply lookup_insert_eq|].
  split; [rewrite lookup_insert_ne by exact Hqp; apply lookup_insert_eq|].
  split; [intros r Hr1 Hr2; rewrite !lookup_insert_ne by congruence; reflexivity|].
  split; [reflexivity|]. split; [reflexivity|].
  split; [apply lookup_insert_eq|].
  split; [simpl; lia|simpl; apply lookup_insert_eq].
Qed.

(** X23. swap of two containers in heap mode is an exchange of
    pointers: it cannot throw, copies and destroys no element, leaves the
    heap as it is, and afterwards each container's begin() is the other's
    former begin(), so pointers to elements stay valid and now refer to
    the other container. *)
Theorem swap_shared_exchanges_pointers
    this other p1 cap1 rc1 xs p2 cap2 rc2 ys w :
  reps w this (Shared p1 cap1 rc1 xs) ->
  reps w other (Shared p2 cap2 rc2 ys) -> this <> other ->
  exists w',
    swap this other w = Ok tt w' /\
    copies w' = copies w /\ trace w' = trace w /\ heap w' = heap w /\
    value_of (begin_const this) w' = value_of (begin_const other) w /\
    value_of (begin_const other) w' = value_of (begin_const this) w /\
    contents this w' = Some ys /\ contents other w' = Some xs /\
    (forall v, v <> this -> v <> other -> objs w' !! v = objs w !! v).
Proof.
  intros Hr1 Hr2 Hne. unfold swap.
  rewrite (swap_fuel_shared_shared 1 _ _ _ _ _ _ _ _ _ _ _ Hr1 Hr2 Hne).
  eexists. split; [reflexivity|]. red_world.
  set (w' := World _ _ _ _).
  destruct Hr1 as (Ho1 & Hok1 & Hb1), Hr2 as (Ho2 & Hok2 & Hb2).
  assert (Hr1' : reps w' this (Shared p2 cap2 rc2 ys)).
  { split; [|split; assumption]. unfold w'. red_world.
    rewrite lookup_insert_ne by congruence. apply lookup_insert_eq. }
  assert (Hr2' : reps w' other (Shared p1 cap1 rc1 xs)).
  { split; [|split; assumption]. apply lookup_insert_eq. }
  assert (Hr1o : reps w this (Shared p1 cap1 rc1 xs))
    by (split; [|split]; assumption).
  assert (Hr2o : reps w other (Shared p2 cap2 rc2 ys))
    by (split; [|split]; assumption).
  rewrite (proj2 (observe_mode _ _ _ Hr1')), (proj2 (observe_mode _ _ _ Hr2')),
    (proj2 (observe_mode _ _ _ Hr1o)), (proj2 (observe_mode _ _ _ Hr2o)),
    (contents_reps _ _ _ Hr1'), (contents_reps _ _ _ Hr2').
  repeat (split; [reflexivity|]).
  intros v Hv1 Hv2. unfold w'. red_world.
  rewrite !lookup_insert_ne by congruence. reflexivity.
Qed.

(** ** Bystanders *)




End socow_vector.

Arguments Ok {T A} a w.
Arguments Throw {T A} w.
Arguments Undef {T A}.

(** * Concrete runs: [socow_vector<int, 2>] *)

Notation "'never_fails'" := (fun _ : nat => false) (only parsing).

(** The second element copy throws. *)
Notation "'second_copy_fails'" := (fun k : nat => Nat.eqb k 1) (only parsing).

(** The first six element copies succeed, every later one throws. *)
Notation "'fails_from_seventh'" := (fun k : nat => Nat.leb 6 k) (only parsing).

Notation "'empty_world'" := (World (T:=Z) ∅ ∅ 0 []) (only parsing).

(** Container 0 holds [1; 2] in its inline array. *)
Notation "'inline_world'" :=
  (World (T:=Z) {[0%nat := Vec 2 (small_data [Some 1; Some 2])]} ∅ 0 [])
  (only parsing).

(** Containers 0 and 1 share heap buffer 0, of capacity 5, holding
    [1; 2; 3]; container 2 holds [7] inline. *)
Notation "'shared_world'" :=
  (World (T:=Z)
     {[0%nat := Vec (STATE_BIT + 3) (large_data 0);
       1%nat := Vec (STATE_BIT + 3) (large_data 0);
       2%nat := Vec 1 (small_data [Some 7; None])]}
     {[0%nat := Hdr 5 2 [Some 1; Some 2; Some 3; None; None]]} 0 [])
  (only parsing).

Ltac concrete_reps :=
  split; [vm_compute; reflexivity
         |split; [cbn; unfold len; simpl; lia|vm_compute; reflexivity]].

Lemma inline_world_reps : reps 2 inline_world 0 (Inline [1; 2]).
Proof. concrete_reps. Defined.

Lemma shared_world_reps_0 : reps 2 shared_world 0 (Shared 0 5 2 [1; 2; 3]).
Proof. concrete_reps. Defined.


Lemma shared_world_reps_2 : reps 2 shared_world 2 (Inline [7]).
Proof. concrete_reps. Defined.

Lemma SMALL_SIZE_2_range : 0 <= 2 < 2 ^ 63.
Proof. lia. Defined.

Lemma copy_then_mutate_keeps_original_witness :
  contents 0 shared_world = Some [1; 2; 3] /\
  match (copy_constructor 2 never_fails 3 0 ≫= fun _ =>
         run_all 2 never_fails 3
           [MPushBack 4; MStore 0 9; MInsert 1 8; MErase 0 2; MPopBack;
            MReserve 9; MShrinkToFit; MClear]) shared_world with
  | Ok _ w' | Throw w' =>
      contents 0 w' = contents 0 shared_world /\
      value_of (size 0) w' = value_of (size 0) shared_world /\
      value_of (capacity 2 0) w' = value_of (capacity 2 0) shared_world
  | Undef => False
  end.
Proof.
  apply (copy_then_mutate_keeps_original 2 never_fails SMALL_SIZE_2_range
           0 3 (Shared 0 5 2 [1; 2; 3])).
  - exact shared_world_reps_0.
  - vm_compute. reflexivity.
  - simpl. lia.
  - simpl. unfold len. simpl. repeat split; try lia; discriminate.
Defined.

Lemma bulk_copy_failure_rolls_back_witness :
  ((1 < length [1; 2])%nat /\ second_copy_fails (0 + 1)%nat = true) /\
  (is_inline (Inline [1; 2]) = true ->
   copy_constructor 2 second_copy_fails 1 0 inline_world =
   Throw (rolled_back inline_world 1 [1; 2])) /\
  (unique (Inline [1; 2]) = false ->
   data second_copy_fails 0 inline_world =
   Throw (rolled_back inline_world 1 [1; 2])) /\
  (len [1; 2] = 2 -> 2 * 2 + 1 < 2 ^ 63 ->
   push_back 2 second_copy_fails 0 9 inline_world =
   Throw (rolled_back inline_world 1 [1; 2])) /\
  (forall u shu, reps 2 inline_world u shu ->
     reps 2 (rolled_back inline_world 1 [1; 2]) u shu /\
     contents u (rolled_back inline_world 1 [1; 2]) = contents u inline_world /\
     value_of (size u) (rolled_back inline_world 1 [1; 2])
       = value_of (size u) inline_world /\
     value_of (capacity 2 u) (rolled_back inline_world 1 [1; 2])
       = value_of (capacity 2 u) inline_world) /\
  heap (rolled_back inline_world 1 [1; 2]) = heap inline_world /\
  objs (rolled_back inline_world 1 [1; 2]) = objs inline_world /\
  trace (rolled_back inline_world 1 [1; 2]) = [Construct 1; Destroy 1].
Proof.
  apply (bulk_copy_failure_rolls_back 2 second_copy_fails SMALL_SIZE_2_range
           0 1 (Inline [1; 2]) 9 1 inline_world).
  - exact inline_world_reps.
  - vm_compute. reflexivity.
  - vm_compute. reflexivity.
Defined.

Lemma shrink_to_fit_capacity_witness :
  match shrink_to_fit 2 never_fails 0 shared_world with
  | Ok _ w' =>
      contents 0 w' = Some [1; 2; 3] /\
      value_of (size 0) w' = Some 3 /\
      value_of (is_small 0) w' = Some false /\
      value_of (capacity 2 0) w' = Some 3
  | Throw w' =>
      kept 2 0 shared_world (Shared 0 5 2 [1; 2; 3]) w' /\
      failed never_fails shared_world
  | Undef => False
  end.
Proof.
  apply (shrink_to_fit_capacity 2 never_fails SMALL_SIZE_2_range
           0 (Shared 0 5 2 [1; 2; 3]) shared_world).
  exact shared_world_reps_0.
Defined.

Lemma swap_exchanges_or_copy_fails_witness :
  swap 2 never_fails 0 0 shared_world = Ok tt shared_world /\
  match swap 2 never_fails 0 2 shared_world with
  | Ok _ w' =>
      reps 2 w' 0 (Inline [7]) /\ reps 2 w' 2 (Shared 0 5 2 [1; 2; 3]) /\
      contents 0 w' = contents 2 shared_world /\
      contents 2 w' = contents 0 shared_world /\
      value_of (size 0) w' = value_of (size 2) shared_world /\
      value_of (size 2) w' = value_of (size 0) shared_world /\
      value_of (capacity 2 0) w' = value_of (capacity 2 2) shared_world /\
      value_of (capacity 2 2) w' = value_of (capacity 2 0) shared_world /\
      (forall v, v <> 0%nat -> v <> 2%nat ->
                 objs w' !! v = objs shared_world !! v) /\
      heap w' = heap shared_world
  | Throw w' =>
      failed never_fails shared_world /\
      ~ (forall k : nat, never_fails k = false) /\
      (is_inline (Shared 0 5 2 [1; 2; 3]) || is_inline (Inline [7])) = true /\
      (is_inline (Shared 0 5 2 [1; 2; 3]) && is_inline (Inline [7]) = false ->
       reps 2 w' 0 (Shared 0 5 2 [1; 2; 3]) /\ reps 2 w' 2 (Inline [7]) /\
       objs w' = objs shared_world /\ heap w' = heap shared_world /\
       contents 0 w' = contents 0 shared_world /\
       contents 2 w' = contents 2 shared_world)
  | Undef => False
  end.
Proof.
  apply (swap_exchanges_or_copy_fails 2 never_fails SMALL_SIZE_2_range
           0 2 (Shared 0 5 2 [1; 2; 3]) (Inline [7]) shared_world).
  - exact shared_world_reps_0.
  - exact shared_world_reps_2.
  - lia.
  - simpl. lia.
  - exact I.
Defined.

Lemma push_back_grows_and_appends_witness :
  match push_back 2 never_fails 0 3 inline_world with
  | Ok _ w' =>
      contents 0 w' = Some [1; 2; 3] /\
      value_of (size 0) w' = Some 3 /\
      value_of (capacity 2 0) w' = Some 5 /\
      value_of (is_small 0) w' = Some false
  | Throw w' =>
      kept 2 0 inline_world (Inline [1; 2]) w' /\
      failed never_fails inline_world
  | Undef => False
  end.
Proof.
  apply (push_back_grows_and_appends 2 never_fails SMALL_SIZE_2_range
           0 (Inline [1; 2]) 3 inline_world).
  - exact inline_world_reps.
  - simpl. lia.
Defined.


Lemma clear_keeps_capacity_witness :
  match clear 2 never_fails 0 shared_world with
  | Ok _ w' =>
      contents 0 w' = Some [] /\
      value_of (size 0) w' = Some 0 /\
      value_of (capacity 2 0) w' = Some 5 /\
      value_of (is_small 0) w' = Some false /\
      (false = true -> reps 2 w' 0 (Shared 0 5 2 [])) /\
      (false = false ->
       exists q, heap shared_world !! q = None /\
         reps 2 w' 0 (Shared q 5 1 []) /\
         heap w' = <[q := hdr_of 5 1 []]>
                     (heap (released (Shared 0 5 2 [1; 2; 3]) shared_world)) /\
         copies w' = copies shared_world /\ trace w' = trace shared_world)
  | Throw _ => False
  | Undef => False
  end.
Proof.
  apply (clear_keeps_capacity 2 never_fails SMALL_SIZE_2_range
           0 (Shared 0 5 2 [1; 2; 3]) shared_world).
  exact shared_world_reps_0.
Defined.

Lemma insert_is_push_back_then_rotate_witness :
  value_of (begin_const 0) inline_world = Some (Ptr (small_of 0) 0) /\
  match push_back 2 never_fails 0 9 inline_world with
  | Ok _ wp => contents 0 wp = Some [1; 2; 9]
  | _ => True
  end /\
  insert_by_rotation 1 9 [1; 2] = [1; 9; 2] /\
  match insert 2 never_fails 0 (Ptr (small_of 0) 1) 9 inline_world with
  | Ok res w' =>
      contents 0 w' = Some (rotate_into 1 [1; 2; 9]) /\
      (exists b, value_of (begin_const 0) w' = Some b /\ res = ptr_add b 1) /\
      value_of (load res) w' = Some 9
  | Throw w' =>
      kept 2 0 inline_world (Inline [1; 2]) w' /\
      failed never_fails inline_world
  | Undef => False
  end.
Proof.
  apply (insert_is_push_back_then_rotate 2 never_fails SMALL_SIZE_2_range
           0 (Inline [1; 2]) 1 9 inline_world).
  - exact inline_world_reps.
  - simpl. lia.
  - simpl. lia.
Defined.

Lemma erase_returns_last_or_end_witness :
  match erase never_fails 0 (Ptr (data_of 0) 1) (Ptr (data_of 0) 2)
              shared_world with
  | Ok res w' =>
      contents 0 w' = Some [1; 3] /\
      exists b,
        value_of (begin_const 0) w' = Some b /\
        res = ptr_add b (2 - 1) /\
        ((1 < 1)%nat -> res <> ptr_add b 1)
  | Throw w' =>
      kept 2 0 shared_world (Shared 0 5 2 [1; 2; 3]) w' /\
      failed never_fails shared_world
  | Undef => False
  end.
Proof.
  apply (erase_returns_last_or_end 2 never_fails SMALL_SIZE_2_range
           0 (Shared 0 5 2 [1; 2; 3]) [1] [2] [3] shared_world).
  - exact shared_world_reps_0.
  - reflexivity.
Defined.


(** * Where the code departs from the specification's sentences *)

(** C3: a default-constructed [socow_vector<int, 2>] has size 0; after
    shrink_to_fit() its capacity is still 2. *)
Lemma shrink_to_fit_inline_capacity_differs :
  exists c s,
    value_of (default_constructor 2 0;;
              shrink_to_fit 2 never_fails 0;;
              c ← capacity 2 0; s ← size 0; mret (c, s)) empty_world
      = Some (c, s) /\
    c <> s.
Proof.
  exists 2, 0. split; [vm_compute; reflexivity|lia].
Qed.

(** C4: with [a = {7}] inline and [b = {1, 2, 3}] on the heap, a.swap(b)
    copy-constructs a's element into b's inline array; that copy throws,
    and so does swap. *)
Lemma swap_mixed_throws :
  exists w1 w',
    (default_constructor 2 0;; push_back 2 fails_from_seventh 0 7;;
     default_constructor 2 1;; push_back 2 fails_from_seventh 1 1;;
     push_back 2 fails_from_seventh 1 2;;
     push_back 2 fails_from_seventh 1 3) empty_world = Ok tt w1 /\
    contents 0 w1 = Some [7] /\ contents 1 w1 = Some [1; 2; 3] /\
    value_of (is_small 0) w1 = Some true /\
    value_of (is_small 1) w1 = Some false /\
    swap 2 fails_from_seventh 0 1 w1 = Throw w'.
Proof.
  do 2 eexists.
  split; [vm_compute; reflexivity|].
  split; [vm_compute; reflexivity|].
  split; [vm_compute; reflexivity|].
  split; [vm_compute; reflexivity|].
  split; vm_compute; reflexivity.
Qed.


(** * A failing copy inside the inline/inline [swap]

    The loop that moves the surplus elements of the longer container has
    no handler.  When a copy in it throws, the elements already moved stay
    destroyed in the source, whose size() still counts them. *)

Notation "'fails_from_fourth'" := (fun k : nat => Nat.leb 3 k) (only parsing).
Notation "'fails_from_sixth'" := (fun k : nat => Nat.leb 5 k) (only parsing).

(** [a = {1, 2}], [b = {}]: a[1] is moved to [b], then the copy of a[0]
    throws; a[1] can no longer be read although a.size() is 2. *)
Lemma swap_inline_failure_loses_element :
  exists w1 w',
    (default_constructor 2 0;; default_constructor 2 1;;
     push_back 2 fails_from_fourth 0 1;;
     push_back 2 fails_from_fourth 0 2) empty_world = Ok tt w1 /\
    contents 0 w1 = Some [1; 2] /\ contents 1 w1 = Some [] /\
    swap 2 fails_from_fourth 0 1 w1 = Throw w' /\
    value_of (size 0) w' = Some 2 /\
    value_of (at_const 0 0) w' = Some 1 /\
    value_of (at_const 0 1) w' = None.
Proof.
  do 2 eexists.
  split; [vm_compute; reflexivity|].
  split; [vm_compute; reflexivity|].
  split; [vm_compute; reflexivity|].
  split; [vm_compute; reflexivity|].
  split; [vm_compute; reflexivity|].
  split; vm_compute; reflexivity.
Qed.

(** [a = {}], [b = {1, 2}], [a = b]: the local copy of [b] loses its second
    element to [a], the next copy throws, and the destructor of the local
    copy destroys that second element once more. *)
Lemma operator_assign_failure_destroys_twice :
  exists w1,
    (default_constructor 2 0;; default_constructor 2 1;;
     push_back 2 fails_from_sixth 1 1;;
     push_back 2 fails_from_sixth 1 2) empty_world = Ok tt w1 /\
    contents 0 w1 = Some [] /\ contents 1 w1 = Some [1; 2] /\
    operator_assign 2 fails_from_sixth 0 1 w1 = Undef.
Proof.
  eexists.
  split; [vm_compute; reflexivity|].
  split; [vm_compute; reflexivity|].
  split; vm_compute; reflexivity.
Qed.

(** * Concrete runs of the further properties *)

(** Container 0 is empty and inline. *)
Notation "'empty_container_world'" :=
  (World (T:=Z) {[0%nat := Vec 0 (small_data [None; None])]} ∅ 0 [])
  (only parsing).

Lemma empty_container_world_reps : reps 2 empty_container_world 0 (Inline []).
Proof. concrete_reps. Defined.

Lemma pop_back_removes_last_witness :
  match pop_back never_fails 0 inline_world with
  | Ok _ w' =>
      contents 0 w' = Some [1] /\
      value_of (size 0) w' = Some (2 - 1) /\
      value_of (capacity 2 0) w' = Some 2 /\
      value_of (is_small 0) w' = Some true
  | Throw w' =>
      unique (Inline [1; 2]) = false /\ failed never_fails inline_world /\
      contents 0 w' = Some [1; 2] /\
      value_of (capacity 2 0) w' = Some 2
  | Undef => False
  end.
Proof.
  apply (pop_back_removes_last 2 never_fails SMALL_SIZE_2_range
           0 (Inline [1; 2]) [1] 2 inline_world).
  - exact inline_world_reps.
  - reflexivity.
Defined.

Lemma pop_back_empty_undefined_witness :
  pop_back never_fails 0 empty_container_world = Undef.
Proof.
  apply (pop_back_empty_undefined 2 never_fails SMALL_SIZE_2_range
           0 (Inline [])).
  - exact empty_container_world_reps.
  - reflexivity.
Defined.

Lemma push_back_pop_back_round_trip_witness :
  match (push_back 2 never_fails 0 3;; pop_back never_fails 0) inline_world with
  | Ok _ w' =>
      contents 0 w' = Some [1; 2] /\
      value_of (size 0) w' = Some 2 /\
      exists c, value_of (capacity 2 0) w' = Some c /\ 2 <= c
  | Throw w' =>
      failed never_fails inline_world /\ contents 0 w' = Some [1; 2] /\
      value_of (capacity 2 0) w' = Some 2
  | Undef => False
  end.
Proof.
  apply (push_back_pop_back_round_trip 2 never_fails SMALL_SIZE_2_range
           0 (Inline [1; 2]) 3 inline_world).
  - exact inline_world_reps.
  - simpl. lia.
Defined.

Lemma copy_constructor_copies_witness :
  match copy_constructor 2 never_fails 3 0 shared_world with
  | Ok _ w' =>
      contents 3 w' = Some [1; 2; 3] /\
      contents 0 w' = Some [1; 2; 3] /\
      value_of (capacity 2 3) w' = Some 5 /\
      value_of (is_small 3) w' = Some false /\
      (heap w' = <[0%nat := hdr_of 5 (2 + 1) [1; 2; 3]]> (heap shared_world) /\
       copies w' = copies shared_world /\ trace w' = trace shared_world /\
       value_of (begin_const 3) w' = value_of (begin_const 0) w')
  | Throw w' =>
      is_inline (Shared 0 5 2 [1; 2; 3]) = true /\
      failed never_fails shared_world /\
      objs w' = objs shared_world /\ heap w' = heap shared_world
  | Undef => False
  end.
Proof.
  apply (copy_constructor_copies 2 never_fails SMALL_SIZE_2_range
           3 0 (Shared 0 5 2 [1; 2; 3]) shared_world).
  - exact shared_world_reps_0.
  - vm_compute. reflexivity.
  - simpl. lia.
Defined.

Lemma operator_assign_copies_witness :
  operator_assign 2 never_fails 2 2 shared_world = Ok tt shared_world /\
  match operator_assign 2 never_fails 2 0 shared_world with
  | Ok _ w' =>
      contents 2 w' = Some [1; 2; 3] /\
      contents 0 w' = Some [1; 2; 3] /\
      value_of (capacity 2 2) w' = Some 5 /\
      value_of (capacity 2 0) w' = Some 5 /\
      value_of (is_small 2) w' = Some false /\
      value_of (is_small 0) w' = Some false
  | Throw _ => failed never_fails shared_world
  | Undef => failed never_fails shared_world
  end /\
  ((forall k : nat, never_fails k = false) ->
   exists w', operator_assign 2 never_fails 2 0 shared_world = Ok tt w').
Proof.
  apply (operator_assign_copies 2 never_fails SMALL_SIZE_2_range
           2 0 (Inline [7]) (Shared 0 5 2 [1; 2; 3]) shared_world).
  - exact shared_world_reps_2.
  - exact shared_world_reps_0.
  - lia.
  - exact I.
  - simpl. lia.
Defined.

Lemma destructor_releases_witness :
  exists w',
    (destructor never_fails 0;; delete_obj 0) shared_world = Ok tt w' /\
    objs w' = delete 0%nat (objs shared_world) /\
    copies w' = copies shared_world /\
    (heap w' = <[0%nat := hdr_of 5 (2 - 1) [1; 2; 3]]> (heap shared_world) /\
     trace w' = trace shared_world) /\
    contents 2 w' = Some [7] /\
    value_of (capacity 2 2) w' = Some 2 /\
    value_of (is_small 2) w' = Some true.
Proof.
  apply (destructor_releases 2 never_fails SMALL_SIZE_2_range
           0 (Shared 0 5 2 [1; 2; 3]) 2 (Inline [7]) shared_world).
  - exact shared_world_reps_0.
  - exact shared_world_reps_2.
  - lia.
  - exact I.
Defined.

Lemma const_access_reads_witness :
  (forall (i : nat) x, [1; 2; 3] !! i = Some x ->
     at_const 0 (Z.of_nat i) shared_world = Ok x shared_world) /\
  (forall i, 3 <= i -> at_const 0 i shared_world = Undef) /\
  (b ← front_const 0; load b) shared_world = Ok 1 shared_world /\
  (b ← back_const 0; load b) shared_world = Ok 3 shared_world /\
  end_const 0 shared_world =
    (b ← begin_const 0; mret (ptr_add b 3)) shared_world.
Proof.
  apply (const_access_reads 2 SMALL_SIZE_2_range
           0 (Shared 0 5 2 [1; 2; 3]) shared_world).
  exact shared_world_reps_0.
Defined.

Lemma store_at_writes_witness :
  match store_at never_fails 0 1 9 shared_world with
  | Ok _ w' =>
      contents 0 w' = Some [1; 9; 3] /\
      value_of (at_const 0 1) w' = Some 9 /\
      value_of (size 0) w' = Some 3 /\
      value_of (capacity 2 0) w' = Some 5 /\
      value_of (is_small 0) w' = Some false
  | Throw w' =>
      failed never_fails shared_world /\ contents 0 w' = Some [1; 2; 3] /\
      value_of (capacity 2 0) w' = Some 5
  | Undef => False
  end.
Proof.
  apply (store_at_writes 2 never_fails SMALL_SIZE_2_range
           0 (Shared 0 5 2 [1; 2; 3]) 1 9 shared_world).
  - exact shared_world_reps_0.
  - simpl. lia.
Defined.

Lemma data_privatises_once_witness :
  match data never_fails 0 shared_world with
  | Ok d w1 =>
      data never_fails 0 w1 = Ok d w1 /\
      value_of (is_unique 0) w1 = Some true /\
      value_of (begin_const 0) w1 = Some d /\
      contents 0 w1 = Some [1; 2; 3] /\
      value_of (capacity 2 0) w1 = Some 5 /\
      (unique (Shared 0 5 2 [1; 2; 3]) = true -> w1 = shared_world)
  | Throw w1 =>
      unique (Shared 0 5 2 [1; 2; 3]) = false /\
      failed never_fails shared_world /\
      objs w1 = objs shared_world /\ heap w1 = heap shared_world
  | Undef => False
  end.
Proof.
  apply (data_privatises_once 2 never_fails SMALL_SIZE_2_range
           0 (Shared 0 5 2 [1; 2; 3]) shared_world).
  exact shared_world_reps_0.
Defined.

Lemma swap_twice_restores_witness :
  match (swap 2 never_fails 0 2;; swap 2 never_fails 0 2) shared_world with
  | Ok _ w' =>
      reps 2 w' 0 (Shared 0 5 2 [1; 2; 3]) /\ reps 2 w' 2 (Inline [7]) /\
      contents 0 w' = contents 0 shared_world /\
      contents 2 w' = contents 2 shared_world /\
      value_of (capacity 2 0) w' = value_of (capacity 2 0) shared_world /\
      value_of (capacity 2 2) w' = value_of (capacity 2 2) shared_world /\
      heap w' = heap shared_world
  | Throw _ => failed never_fails shared_world
  | Undef => False
  end.
Proof.
  apply (swap_twice_restores 2 never_fails SMALL_SIZE_2_range
           0 2 (Shared 0 5 2 [1; 2; 3]) (Inline [7]) shared_world).
  - exact shared_world_reps_0.
  - exact shared_world_reps_2.
  - lia.
  - simpl. lia.
  - exact I.
Defined.


Lemma erase_at_end_undefined_witness :
  match erase_at never_fails 0 (Ptr (small_of 0) 2) inline_world with
  | Ok _ _ => False
  | Throw w' =>
      unique (Inline [1; 2]) = false /\ failed never_fails inline_world /\
      objs w' = objs inline_world /\ heap w' = heap inline_world
  | Undef => True
  end.
Proof.
  apply (erase_at_end_undefined 2 never_fails SMALL_SIZE_2_range
           0 (Inline [1; 2]) inline_world).
  exact inline_world_reps.
Defined.

Lemma push_back_keeps_storage_witness :
  match push_back 2 never_fails 2 8 shared_world with
  | Ok _ w' =>
      never_fails (copies shared_world) = false /\
      copies w' = S (copies shared_world) /\
      trace w' = trace shared_world ++ [Construct 8] /\
      value_of (begin_const 2) w' = value_of (begin_const 2) shared_world /\
      value_of (capacity 2 2) w' = value_of (capacity 2 2) shared_world /\
      contents 2 w' = Some [7; 8] /\
      (forall (i : nat) x, [7] !! i = Some x ->
         at_const 2 (Z.of_nat i) w' = Ok x w')
  | Throw w' =>
      never_fails (copies shared_world) = true /\
      objs w' = objs shared_world /\ heap w' = heap shared_world /\
      trace w' = trace shared_world
  | Undef => False
  end.
Proof.
  apply (push_back_keeps_storage 2 never_fails SMALL_SIZE_2_range
           2 (Inline [7]) 8 shared_world).
  - exact shared_world_reps_2.
  - reflexivity.
  - vm_compute. reflexivity.
Defined.

Notation "'sample_calls'" :=
  [MPushBack 4; MStore 0 9; MInsert 1 8; MErase 0 2; MPopBack;
   MReserve 9; MShrinkToFit; MClear; MPushBack 5]
  (only parsing).


Lemma insert_past_end_undefined_witness :
  match insert 2 never_fails 0 (Ptr (small_of 0) 5) 9 inline_world with
  | Ok _ _ => False
  | Throw _ => failed never_fails inline_world
  | Undef => True
  end.
Proof.
  apply (insert_past_end_undefined 2 never_fails SMALL_SIZE_2_range
           0 (Inline [1; 2]) 5 9 inline_world).
  - exact inline_world_reps.
  - vm_compute. reflexivity.
  - simpl. lia.
Defined.




Lemma clear_destroys_in_reverse_witness :
  exists w',
    clear 2 never_fails 0 inline_world = Ok tt w' /\
    trace w' = trace inline_world ++ [Destroy 2; Destroy 1] /\
    copies w' = copies inline_world /\
    contents 0 w' = Some [] /\
    value_of (begin_const 0) w' = value_of (begin_const 0) inline_world /\
    value_of (capacity 2 0) w' = value_of (capacity 2 0) inline_world /\
    value_of (is_unique 0) w' = Some true.
Proof.
  apply (clear_destroys_in_reverse 2 never_fails SMALL_SIZE_2_range
           0 (Inline [1; 2]) inline_world).
  - exact inline_world_reps.
  - reflexivity.
Defined.

Lemma capacity_requests_idempotent_witness :
  match shrink_to_fit 2 never_fails 0 shared_world with
  | Ok _ w' => shrink_to_fit 2 never_fails 0 w' = Ok tt w'
  | _ => True
  end /\
  match reserve 2 never_fails 0 4 shared_world with
  | Ok _ w' => reserve 2 never_fails 0 4 w' = Ok tt w'
  | _ => True
  end.
Proof.
  apply (capacity_requests_idempotent 2 never_fails SMALL_SIZE_2_range
           0 (Shared 0 5 2 [1; 2; 3]) 4 shared_world).
  - exact shared_world_reps_0.
  - lia.
Defined.


Lemma copy_then_destroy_restores_witness :
  match (copy_constructor 2 never_fails 3 0;; destructor never_fails 3;;
         delete_obj 3) shared_world with
  | Ok _ w' =>
      objs w' = objs shared_world /\ heap w' = heap shared_world /\
      trace w' = trace shared_world ++ []
  | Throw w' =>
      is_inline (Shared 0 5 2 [1; 2; 3]) = true /\
      failed never_fails shared_world /\
      objs w' = objs shared_world /\ heap w' = heap shared_world
  | Undef => False
  end.
Proof.
  apply (copy_then_destroy_restores 2 never_fails SMALL_SIZE_2_range
           3 0 (Shared 0 5 2 [1; 2; 3]) shared_world).
  - exact shared_world_reps_0.
  - vm_compute. reflexivity.
  - simpl. lia.
Defined.

(** Containers 0 and 1 each own a heap buffer. *)
Notation "'two_buffers_world'" :=
  (World (T:=Z)
     {[0%nat := Vec (STATE_BIT + 3) (large_data 0);
       1%nat := Vec (STATE_BIT + 1) (large_data 1)]}
     {[0%nat := Hdr 5 1 [Some 1; Some 2; Some 3; None; None];
       1%nat := Hdr 3 1 [Some 7; None; None]]} 0 [])
  (only parsing).

Lemma two_buffers_world_reps_0 :
  reps 2 two_buffers_world 0 (Shared 0 5 1 [1; 2; 3]).
Proof. concrete_reps. Defined.

Lemma two_buffers_world_reps_1 :
  reps 2 two_buffers_world 1 (Shared 1 3 1 [7]).
Proof. concrete_reps. Defined.

Lemma data_privatises_by_copy_witness :
  exists q w',
    data never_fails 0 shared_world = Ok (Ptr (data_of q) 0) w' /\
    heap shared_world !! q = None /\ q <> 0%nat /\
    heap w' !! q = Some (hdr_of 5 1 [1; 2; 3]) /\
    heap w' !! 0%nat = Some (hdr_of 5 (2 - 1) [1; 2; 3]) /\
    (forall r, r <> 0%nat -> r <> q -> heap w' !! r = heap shared_world !! r) /\
    copies w' = (copies shared_world + 3)%nat /\
    trace w' = trace shared_world ++ [Construct 1; Construct 2; Construct 3] /\
    reps 2 w' 0 (Shared q 5 1 [1; 2; 3]).
Proof.
  apply (data_privatises_by_copy 2 never_fails SMALL_SIZE_2_range
           0 0 5 2 [1; 2; 3] shared_world).
  - exact shared_world_reps_0.
  - lia.
  - reflexivity.
Defined.

Lemma swap_shared_exchanges_pointers_witness :
  exists w',
    swap 2 never_fails 0 1 two_buffers_world = Ok tt w' /\
    copies w' = copies two_buffers_world /\
    trace w' = trace two_buffers_world /\
    heap w' = heap two_buffers_world /\
    value_of (begin_const 0) w' = value_of (begin_const 1) two_buffers_world /\
    value_of (begin_const 1) w' = value_of (begin_const 0) two_buffers_world /\
    contents 0 w' = Some [7] /\ contents 1 w' = Some [1; 2; 3] /\
    (forall v, v <> 0%nat -> v <> 1%nat ->
               objs w' !! v = objs two_buffers_world !! v).
Proof.
  apply (swap_shared_exchanges_pointers 2 never_fails SMALL_SIZE_2_range
           0 1 0 5 1 [1; 2; 3] 1 3 1 [7] two_buffers_world).
  - exact two_buffers_world_reps_0.
  - exact two_buffers_world_reps_1.
  - lia.
Defined.


